(** * Bulk CSV ingestion pipeline: a shallow embedding and its properties

    The development embeds the two versions of the ingestion pipeline that
    live in the repository,

    - [challenge-1/challenge.ts]  (batch size 90, the loader pauses and
      resumes the row stream around each batch insert, no rerun guard);
    - the second copy of the same module (batch size 10, no pause/resume,
      [checkAndVerifyTables] guard, [Promise.all] for the per-dataset
      inference and table creation),

    and states the properties of the design document over them.

    Layout: the JavaScript runtime the code runs on (numbers, regular
    expressions, [Date.parse], promise outcomes, the order of the keys
    of an object), the type inference, the store, the event loop under
    which the listeners of the loader run, the environment of a run, the
    functions over the store, the loader and its transaction, the two
    entry points; then the vocabulary of the properties and the sample
    inputs; then the lemmas and theorems.

    Three things are left to the environment of a run, because the
    source does not decide them: the order in which the runtime
    delivers the events of a stream and settles the batch inserts in
    flight, the reasons of its own for which the store refuses a
    statement, and the text of the errors knex reports. *)

From Stdlib Require Import ZArith List Bool Ascii String Lia Sorted.
From stdpp Require Import base option list strings pretty gmap.

Local Open Scope string_scope.
Local Open Scope list_scope.

(* ===================================================================== *)
(** * The JavaScript runtime                                              *)
(* ===================================================================== *)

Module Js.

(** The errors the pipeline can observe.  [TypeError] and [AssertionError]
    are raised by the runtime ([Object.keys(undefined)], [assert]);
    [Error] is the plain error the entry point throws; [LibError] stands
    for whatever axios, tar, fast-csv or knex reject with. *)
Inductive JsError : Type :=
| TypeError (msg : string)
| AssertionError (msg : string)
| Error (msg : string)
| LibError (origin msg : string).

(** The text [`${err}`] interpolates, i.e. [String(err)]. *)
Definition show_error (e : JsError) : string :=
  match e with
  | TypeError m => "TypeError: " +:+ m
  | AssertionError m => "AssertionError [ERR_ASSERTION]: " +:+ m
  | Error m => "Error: " +:+ m
  | LibError _ m => "Error: " +:+ m
  end.

(** What awaiting a promise can yield.  [Uncaught] is an exception thrown
    inside an event listener: the enclosing promise is never settled and
    the exception reaches the process as an uncaught exception, so no
    [catch] block of the program sees it. *)
Inductive Outcome (A : Type) : Type :=
| Resolved (a : A)
| Rejected (e : JsError)
| Uncaught (e : JsError).
Arguments Resolved {A} a.
Arguments Rejected {A} e.
Arguments Uncaught {A} e.

(** A JavaScript number as far as the code looks at it: the result of
    [Date.parse] is a whole number of milliseconds or [NaN]. *)
Inductive JsNum : Type :=
| NaN
| Num (z : Z).

(** ToBoolean on a number: [NaN] and zero are falsy. *)
Definition truthy (n : JsNum) : bool :=
  match n with
  | NaN => false
  | Num z => negb (z =? 0)%Z
  end.

(** ** Regular expressions used by [inferType] *)

(** [\d] matches the ASCII digits only. *)
Definition is_digit (c : ascii) : bool :=
  (48 <=? nat_of_ascii c)%nat && (nat_of_ascii c <=? 57)%nat.

Definition chars (s : string) : list ascii := list_ascii_of_string s.

(** [\d+] anchored at both ends. *)
Definition all_digits (l : list ascii) : bool :=
  match l with
  | [] => false
  | _ => forallb is_digit l
  end.

(** [/^\d+$/.test(s)] *)
Definition re_digits (s : string) : bool := all_digits (chars s).

(** The longest prefix of digits and what follows it. *)
Fixpoint span_digits (l : list ascii) : list ascii * list ascii :=
  match l with
  | c :: l' =>
      if is_digit c
      then let '(ds, rest) := span_digits l' in (c :: ds, rest)
      else ([], l)
  | [] => ([], [])
  end.

(** [/^\d+\.\d+$/.test(s)]: a digit is never a dot, so the first [\d+]
    must take exactly the leading digits. *)
Definition re_digits_dot_digits (s : string) : bool :=
  match span_digits (chars s) with
  | (_ :: _, c :: frac) => Ascii.eqb c "." && all_digits frac
  | _ => false
  end.

(** ** [parseInt(s, 10)] on a string of digits

    The runtime returns the nearest double.  The code only compares the
    result with [-2147483648] and [2147483647], both exactly representable,
    and rounding to nearest is monotone, so the comparison on the exact
    integer has the same outcome. *)
Definition digit_val (c : ascii) : Z := Z.of_nat (nat_of_ascii c) - 48.

Definition digits_val (l : list ascii) : Z :=
  fold_left (fun acc c => 10 * acc + digit_val c)%Z l 0%Z.

Definition parseInt (s : string) : Z := digits_val (chars s).

(** ** [Date.parse]

    ECMAScript fixes the result for the date-only forms of its Date Time
    String Format, [YYYY], [YYYY-MM] and [YYYY-MM-DD], which are read as
    UTC.  Every other string (date-time forms, whose value depends on the
    local time zone, and the implementation-defined legacy formats) is
    left to [host], the parser of the engine at hand. *)

Definition msPerDay : Z := 86400000.

(** DayFromYear of ECMA-262. *)
Definition DayFromYear (y : Z) : Z :=
  (365 * (y - 1970) + (y - 1969) / 4 - (y - 1901) / 100 + (y - 1601) / 400)%Z.

Definition InLeapYear (y : Z) : bool :=
  ((y mod 4 =? 0) && negb (y mod 100 =? 0) || (y mod 400 =? 0))%Z.

Definition DaysInMonth (leap : bool) (m : Z) : Z :=
  (if m =? 2 then (if leap then 29 else 28)
   else if (m =? 4) || (m =? 6) || (m =? 9) || (m =? 11) then 30
   else 31)%Z.

(** Days of the year before the first of month [m] (1-based). *)
Definition days_before_month (leap : bool) (m : Z) : Z :=
  fold_left (fun acc k => acc + DaysInMonth leap (Z.of_nat k))%Z
            (seq 1 (Z.to_nat m - 1)) 0%Z.

(** MakeDate(MakeDay(y, m - 1, d), 0) for a date of the calendar. *)
Definition utc_ms (y m d : Z) : option Z :=
  let leap := InLeapYear y in
  if ((1 <=? m) && (m <=? 12) && (1 <=? d) && (d <=? DaysInMonth leap m))%Z
  then Some ((DayFromYear y + days_before_month leap m + d - 1) * msPerDay)%Z
  else None.

Definition iso_date_only (s : string) : option Z :=
  let dash c := Ascii.eqb c "-" in
  match chars s with
  | [y1; y2; y3; y4] =>
      if all_digits [y1; y2; y3; y4]
      then utc_ms (digits_val [y1; y2; y3; y4]) 1 1 else None
  | [y1; y2; y3; y4; s1; m1; m2] =>
      if all_digits [y1; y2; y3; y4; m1; m2] && dash s1
      then utc_ms (digits_val [y1; y2; y3; y4]) (digits_val [m1; m2]) 1
      else None
  | [y1; y2; y3; y4; s1; m1; m2; s2; d1; d2] =>
      if all_digits [y1; y2; y3; y4; m1; m2; d1; d2] && dash s1 && dash s2
      then utc_ms (digits_val [y1; y2; y3; y4]) (digits_val [m1; m2])
                  (digits_val [d1; d2])
      else None
  | _ => None
  end.

Definition Date_parse (host : string -> JsNum) (s : string) : JsNum :=
  match iso_date_only s with
  | Some ms => Num ms
  | None => host s
  end.

End Js.

(* ===================================================================== *)
(** * Type inference                                                      *)
(* ===================================================================== *)

(** [type InferredType = 'int' | 'bigint' | 'float' | 'date' | 'string'];
    the design document calls them int32, int64, float64, timestamp and
    string. *)
Inductive InferredType : Type :=
| T_int
| T_bigint
| T_float
| T_date
| T_string.

#[global] Instance InferredType_eq_dec : EqDecision InferredType.
Proof. solve_decision. Defined.

(** [inferType], identical in both versions of the module. *)
Definition inferType (host : string -> Js.JsNum) (value : string)
  : InferredType :=
  if Js.re_digits value then
    let intValue := Js.parseInt value in
    if ((-2147483648 <=? intValue) && (intValue <=? 2147483647))%Z
    then T_int
    else T_bigint
  else if Js.re_digits_dot_digits value then T_float
  else if Js.truthy (Js.Date_parse host value) then T_date
  else T_string.

(** ** JavaScript objects, sets and the parsed CSV stream *)

(** A plain object with string keys, as an association list in the order
    in which the keys were first written.  A row of the CSV parser is
    such an object from column name to cell text, written in header
    order. *)
Abbreviation Obj V := (list (string * V)).
Abbreviation Row := (Obj string).

(** [o[k]], [None] standing for [undefined]. *)
Fixpoint obj_get {V} (o : Obj V) (k : string) : option V :=
  match o with
  | [] => None
  | (k', v) :: o' => if String.eqb k' k then Some v else obj_get o' k
  end.

(** [o[k] = v]: overwrite in place, or append a new key. *)
Fixpoint obj_set {V} (k : string) (v : V) (o : Obj V) : Obj V :=
  match o with
  | [] => [(k, v)]
  | (k', v') :: o' =>
      if String.eqb k' k then (k', v) :: o' else (k', v') :: obj_set k v o'
  end.

(** The keys that JavaScript treats as array indices: the canonical
    decimal form of an integer below [2^32 - 1] ("0", "7", "42"; not
    "007", "-1", "1.5"). *)
Definition array_index (k : string) : option N :=
  match Js.chars k with
  | [] => None
  | c :: rest =>
      if Js.all_digits (c :: rest)
         && (negb (Ascii.eqb c "0") || bool_decide (rest = []))
      then
        let i := Z.to_N (Js.digits_val (c :: rest)) in
        if (i <? 4294967295)%N then Some i else None
      else None
  end.

(** The entries whose key is an array index, each with its index, and the
    other entries, both in the order in which they were written. *)
Fixpoint index_entries {V} (o : Obj V) : list (N * (string * V)) :=
  match o with
  | [] => []
  | kv :: o' =>
      match array_index kv.1 with
      | Some i => (i, kv) :: index_entries o'
      | None => index_entries o'
      end
  end.

Fixpoint named_entries {V} (o : Obj V) : Obj V :=
  match o with
  | [] => []
  | kv :: o' =>
      match array_index kv.1 with
      | Some _ => named_entries o'
      | None => kv :: named_entries o'
      end
  end.

Fixpoint insert_by_index {V} (i : N) (kv : string * V)
  (l : list (N * (string * V))) : list (N * (string * V)) :=
  match l with
  | [] => [(i, kv)]
  | (j, kv') :: l' =>
      if (i <=? j)%N then (i, kv) :: l else (j, kv') :: insert_by_index i kv l'
  end.

Definition by_index {V} (l : list (N * (string * V)))
  : list (N * (string * V)) :=
  fold_right (fun p acc => insert_by_index p.1 p.2 acc) [] l.

(** [Object.entries(o)]: the own properties in the order of
    OrdinaryOwnPropertyKeys, array indices first, in ascending numeric
    order, then the other keys in the order in which they were
    written. *)
Definition Object_entries {V} (o : Obj V) : list (string * V) :=
  map snd (by_index (index_entries o)) ++ named_entries o.

(** [Object.keys(o)] *)
Definition Object_keys {V} (o : Obj V) : list string :=
  map fst (Object_entries o).

(** [String(v)] for a cell that may be [undefined]: the coercion both
    [RegExp.prototype.test] and [Date.parse] apply to their argument. *)
Definition to_js_string (v : option string) : string :=
  match v with
  | Some s => s
  | None => "undefined"
  end.

(** A JavaScript [Set], which iterates in insertion order: the list of
    its elements, oldest first, without repetition. *)
Definition Set_add {A} `{EqDecision A} (s : list A) (x : A) : list A :=
  if bool_decide (x ∈ s) then s else s ++ [x].

(** [new Set(iterable)] *)
Definition Set_from {A} `{EqDecision A} (l : list A) : list A :=
  fold_left Set_add l [].

(** [Array.from(s)[0]] *)
Definition Set_first {A} (s : list A) : option A := head s.


(** What [fs.createReadStream(path).pipe(csv.parse({ headers: true }))]
    delivers to its listeners: one ['data'] event per data row, in file
    order, then either ['end'] or ['error']. *)
Record CsvStream : Type := {
  stream_rows : list Row;
  stream_error : option Js.JsError
}.

(** The extracted files, by path. *)
Abbreviation Files := (gmap string CsvStream).

(** [Record<string, InferredType>]; a column without a recognised type
    tag ([undefined]) is [None]. *)
Abbreviation InferredSchema := (Obj (option InferredType)).

(** The ['data'] listener of [inferColumnTypes]. *)
Definition sample_on_data (sampleSize : nat) (sampleRows : list Row)
  (row : Row) : list Row :=
  if (length sampleRows <? sampleSize)%nat
  then sampleRows ++ [row]
  else sampleRows.

(** The body of the [forEach] over the headers in the ['end'] listener. *)
Definition infer_header (host : string -> Js.JsNum) (sampleRows : list Row)
  (inferredTypes : InferredSchema) (header : string) : InferredSchema :=
  let sampleValues := map (fun row => obj_get row header) sampleRows in
  let types :=
    Set_from (map (fun v => inferType host (to_js_string v)) sampleValues) in
  obj_set header (Set_first types) inferredTypes.

(** The ['end'] listener of [inferColumnTypes].  [Object.keys(undefined)]
    throws a [TypeError]; the listener has no handler around it, so the
    promise is left pending and the exception is uncaught. *)
Definition infer_on_end (host : string -> Js.JsNum) (sampleRows : list Row)
  : Js.Outcome InferredSchema :=
  match sampleRows with
  | [] => Js.Uncaught (Js.TypeError "Cannot convert undefined or null to object")
  | first :: _ =>
      Js.Resolved
        (fold_left (infer_header host sampleRows) (Object_keys first) [])
  end.

(** [inferColumnTypes(filePath, sampleSize = 10)].  A path that cannot be
    opened makes the read stream emit ['error']; the code listens for
    errors on the parser only, so that one is uncaught too. *)
Definition inferColumnTypes (host : string -> Js.JsNum) (files : Files)
  (filePath : string) (sampleSize : nat) : Js.Outcome InferredSchema :=
  match files !! filePath with
  | None => Js.Uncaught (Js.LibError "fs" "ENOENT: no such file or directory")
  | Some stream =>
      let sampleRows :=
        fold_left (sample_on_data sampleSize) (stream_rows stream) [] in
      match stream_error stream with
      | Some e => Js.Rejected e
      | None => infer_on_end host sampleRows
      end
  end.

Definition default_sampleSize : nat := 10.

(* ===================================================================== *)
(** * The destination store and the environment                           *)
(* ===================================================================== *)

(** Column types of the knex schema builder. *)
Inductive ColumnType : Type :=
| increments
| integer
| bigInteger
| float
| dateTime
| varchar.

Record Table : Type := {
  columns : list (string * ColumnType);
  body : list Row
}.

(** Statements that change the store, as issued to it. *)
Inductive DbOp : Type :=
| OpCreateTable (tableName : string)
| OpBatchInsert (tableName : string) (size : nat)
| OpCommit
| OpRollback.

(** The SQLite database, the statements issued so far and the console. *)
Record World : Type := {
  tables : gmap string Table;
  oplog : list DbOp;
  console : list string
}.

Definition issue (op : DbOp) (w : World) : World :=
  {| tables := tables w; oplog := oplog w ++ [op]; console := console w |}.

Definition set_tables (t : gmap string Table) (w : World) : World :=
  {| tables := t; oplog := oplog w; console := console w |}.

Definition print (line : string) (w : World) : World :=
  {| tables := tables w; oplog := oplog w; console := console w ++ [line] |}.

(* ===================================================================== *)
(** * The loader under the event loop                                     *)
(* ===================================================================== *)

(** The listeners of [processCSV] are [async], and [trx.batchInsert]
    reaches the store some time after it is called: a batch insert that
    a listener awaits is in flight while the runtime is free to deliver
    further events of the stream, ['end'] included.  This module keeps
    the interleaving explicit.  A state holds the rows the parser has not
    delivered yet and the error it reports after them, if any; whether
    the stream is flowing and whether it is over; the [rows] buffer; the
    batch inserts in flight, oldest first, each with the listener that
    awaits it; and what has happened to the promise of the transaction:
    the batches that settled before the listener that closes the stream
    called [resolve()] or [reject(err)], that call, and the batches that
    settled after it.  [peak] records the largest size the buffer has
    had, including between [push] and [splice]. *)
Module EventLoop.

Inductive Waiter : Type :=
| DataListener
| EndListener.

Inductive Event : Type :=
| EvData     (** the next row is delivered to the ['data'] listener *)
| EvEnd      (** ['end'] is delivered *)
| EvError    (** the ['error'] of the parser is delivered *)
| EvSettle.  (** the oldest batch insert in flight settles *)

(** How the listener that closes the stream settles the promise. *)
Inductive Closing : Type :=
| Resolve               (** [resolve()], from the ['end'] listener *)
| Reject (e : Js.JsError). (** [reject(err)], the ['error'] listener *)

Record State : Type := {
  source : list Row;
  broken : option Js.JsError;
  flowing : bool;
  ended : bool;
  rows : list Row;
  in_flight : list (list Row * Waiter);
  issued : list (list Row);
  peak : nat;
  arrived : list (list Row);
  closing : option Closing;
  late : list (list Row)
}.

(** [resolve()] has been called. *)
Definition resolved (s : State) : bool :=
  match closing s with
  | Some Resolve => true
  | _ => false
  end.

(** Attaching the ['data'] listener puts the stream in flowing mode. *)
Definition init (src : list Row) : State :=
  {| source := src; broken := None; flowing := true; ended := false;
     rows := []; in_flight := []; issued := []; peak := 0;
     arrived := []; closing := None; late := [] |}.

(** The state in which a load of [stream] starts. *)
Definition open (stream : CsvStream) : State :=
  {| source := stream_rows stream; broken := stream_error stream;
     flowing := true; ended := false;
     rows := []; in_flight := []; issued := []; peak := 0;
     arrived := []; closing := None; late := [] |}.

(** The ['data'] listener up to its [await]: [rows.push(row)], then a
    full batch is cut off the front of the buffer with
    [rows.splice(0, batchSize)] and its insert is started.  [pauses]
    tells whether the version calls [stream.pause()] before the
    insert. *)
Definition data_listener (pauses : bool) (batchSize : nat) (row : Row)
  (rest : list Row) (s : State) : State :=
  let pushed := rows s ++ [row] in
  let high := Nat.max (peak s) (length pushed) in
  if (batchSize <=? length pushed)%nat
  then
    let batch := take batchSize pushed in
    {| source := rest; broken := broken s;
       flowing := if pauses then false else flowing s;
       ended := ended s;
       rows := drop batchSize pushed;
       in_flight := in_flight s ++ [(batch, DataListener)];
       issued := issued s ++ [batch];
       peak := high;
       arrived := arrived s; closing := closing s; late := late s |}
  else
    {| source := rest; broken := broken s; flowing := flowing s;
       ended := ended s;
       rows := pushed; in_flight := in_flight s; issued := issued s;
       peak := high;
       arrived := arrived s; closing := closing s; late := late s |}.

(** The ['end'] listener up to its [await]: with an empty buffer it calls
    [resolve()] at once, whatever is in flight; otherwise it starts the
    insert of the remainder ([rows] itself is passed, and keeps its
    elements). *)
Definition end_listener (s : State) : State :=
  match rows s with
  | [] =>
      {| source := source s; broken := broken s; flowing := flowing s;
         ended := true;
         rows := rows s; in_flight := in_flight s; issued := issued s;
         peak := peak s;
         arrived := arrived s; closing := Some Resolve; late := late s |}
  | _ =>
      {| source := source s; broken := broken s; flowing := flowing s;
         ended := true;
         rows := rows s;
         in_flight := in_flight s ++ [(rows s, EndListener)];
         issued := issued s ++ [rows s];
         peak := peak s;
         arrived := arrived s; closing := closing s; late := late s |}
  end.

(** The ['error'] listener is [reject] itself; the stream is over. *)
Definition error_listener (e : Js.JsError) (s : State) : State :=
  {| source := source s; broken := broken s; flowing := flowing s;
     ended := true;
     rows := rows s; in_flight := in_flight s; issued := issued s;
     peak := peak s;
     arrived := arrived s; closing := Some (Reject e); late := late s |}.

(** The insert of [batch] settles and the listener [who] goes on after
    its [await]: the ['data'] listener calls [stream.resume()] in the
    version that pauses, the ['end'] listener calls [resolve()]. *)
Definition continue (pauses : bool) (batch : list Row) (who : Waiter)
  (others : list (list Row * Waiter)) (s : State) : State :=
  {| source := source s; broken := broken s;
     flowing :=
       match who with
       | DataListener => if pauses then true else flowing s
       | EndListener => flowing s
       end;
     ended := ended s;
     rows := rows s;
     in_flight := others;
     issued := issued s;
     peak := peak s;
     arrived :=
       match closing s with
       | None => arrived s ++ [batch]
       | Some _ => arrived s
       end;
     closing :=
       match closing s, who with
       | None, EndListener => Some Resolve
       | c, _ => c
       end;
     late :=
       match closing s with
       | None => late s
       | Some _ => late s ++ [batch]
       end |}.

(** One turn of the event loop; [None] when the runtime cannot deliver
    the event.  A stream delivers ['data'] only while it is flowing.
    ['end'] and ['error'] come once, after the last row, and do not wait
    for the stream to flow again: the stream has read its last row when
    the ['data'] listener pauses it.  The batch inserts of one
    transaction run on its one connection, in the order in which they
    were started. *)
Definition step (pauses : bool) (batchSize : nat) (ev : Event) (s : State)
  : option State :=
  match ev with
  | EvData =>
      match source s with
      | row :: rest =>
          if flowing s && negb (ended s)
          then Some (data_listener pauses batchSize row rest s)
          else None
      | [] => None
      end
  | EvEnd =>
      match source s, broken s with
      | [], None => if ended s then None else Some (end_listener s)
      | _, _ => None
      end
  | EvError =>
      match source s, broken s with
      | [], Some e => if ended s then None else Some (error_listener e s)
      | _, _ => None
      end
  | EvSettle =>
      match in_flight s with
      | (batch, who) :: others => Some (continue pauses batch who others s)
      | [] => None
      end
  end.

Fixpoint run (pauses : bool) (batchSize : nat) (evs : list Event) (s : State)
  : option State :=
  match evs with
  | [] => Some s
  | ev :: evs' =>
      match step pauses batchSize ev s with
      | Some s' => run pauses batchSize evs' s'
      | None => None
      end
  end.

(** ** The runtime

    Which of the events it can deliver the runtime delivers next depends
    on timers and on I/O.  [pick] stands for that choice: it names the
    event the runtime would deliver in a state; when that event cannot
    be delivered there, the runtime delivers what the stream has, and
    settles an insert when the stream has nothing. *)
Definition next (pauses : bool) (batchSize : nat) (pick : State -> Event)
  (s : State) : option State :=
  match step pauses batchSize (pick s) s with
  | Some s' => Some s'
  | None =>
      match step pauses batchSize EvData s with
      | Some s' => Some s'
      | None =>
          match step pauses batchSize EvEnd s with
          | Some s' => Some s'
          | None =>
              match step pauses batchSize EvError s with
              | Some s' => Some s'
              | None => step pauses batchSize EvSettle s
              end
          end
      end
  end.

(** An upper bound on the events the runtime can still deliver: each row
    left is one ['data'] and at most one settlement, the end of the
    stream is one event and at most one settlement, and each insert in
    flight settles once. *)
Definition work_left (s : State) : nat :=
  2 * length (source s) + (if ended s then 0 else 2) + length (in_flight s).

Fixpoint drive (pauses : bool) (batchSize : nat) (pick : State -> Event)
  (fuel : nat) (s : State) : State :=
  match fuel with
  | 0 => s
  | S fuel' =>
      match next pauses batchSize pick s with
      | Some s' => drive pauses batchSize pick fuel' s'
      | None => s
      end
  end.

(** The state in which the runtime has nothing left to deliver. *)
Definition finish (pauses : bool) (batchSize : nat) (pick : State -> Event)
  (s : State) : State :=
  drive pauses batchSize pick (work_left s) s.

(** Backpressure, as a property of a version of the loader: in every
    state the runtime can reach the buffer has never held more than
    [batchSize] rows, and a row is delivered only when no batch insert is
    in flight. *)
Definition backpressure (pauses : bool) (batchSize : nat) : Prop :=
  forall (src : list Row) (evs : list Event) (s : State),
    run pauses batchSize evs (init src) = Some s ->
    peak s <= batchSize /\
    (forall s', step pauses batchSize EvData s = Some s' -> in_flight s = []).

End EventLoop.

(** How a stage of the environment fails: its promise is rejected, or an
    exception is raised where the code has attached no handler (an
    ['error'] event on a stream without an ['error'] listener), in which
    case the promise is never settled. *)
Inductive Failure : Type :=
| Rejects (e : Js.JsError)
| Throws (e : Js.JsError).

(** Why the store refuses a statement of the program. *)
Inductive Refusal : Type :=
| TableExists (tableName : string)
| DuplicateColumn (tableName column : string)
| NoSuchTable (tableName : string).

(** Everything outside the program that a run depends on. *)
Record Env : Type := {
  (** the engine's [Date.parse] beyond the date-only forms *)
  host_date_parse : string -> Js.JsNum;
  (** [fs.mkdirSync] throwing in [ensureDirectoryExists] *)
  mkdir_error : option Js.JsError;
  (** [downloadFile] failing: the request or the writer rejects, or a
      stream without a listener raises an error *)
  download_error : option Failure;
  (** [decompressAndExtract] failing: the file or the archive rejects, or
      the gunzip stream, which has no listener, raises an error *)
  extract_error : option Failure;
  (** the extracted CSV files *)
  files : Files;
  (** the event the runtime would deliver next during a load *)
  runtime : EventLoop.State -> EventLoop.Event;
  (** the store refusing a [CREATE TABLE] for a reason of its own *)
  create_error : string -> option Js.JsError;
  (** the store refusing the [k]-th batch insert that reaches it during
      a load into a table *)
  insert_error : string -> nat -> option Js.JsError;
  (** the error knex rejects with when the store refuses a statement:
      its message is the text of the statement followed by the message
      of SQLite *)
  store_error : Refusal -> Js.JsError
}.

(** An asynchronous function over the store. *)
Definition Task (A : Type) : Type := World -> Js.Outcome A * World.

Definition ret {A} (a : A) : Task A := fun w => (Js.Resolved a, w).

Definition throw {A} (e : Js.JsError) : Task A := fun w => (Js.Rejected e, w).

(** [const x = await t; k x] *)
Definition await {A B} (t : Task A) (k : A -> Task B) : Task B :=
  fun w =>
    match t w with
    | (Js.Resolved a, w') => k a w'
    | (Js.Rejected e, w') => (Js.Rejected e, w')
    | (Js.Uncaught e, w') => (Js.Uncaught e, w')
    end.

Notation "'let!' x ':=' t 'in' k" := (await t (fun x => k))
  (at level 10, x name, t at level 200, k at level 200).
Notation "'do!' t 'in' k" := (await t (fun _ => k))
  (at level 10, t at level 200, k at level 200).

(** [try { t } catch (err) { h err }] *)
Definition catch {A} (t : Task A) (h : Js.JsError -> Task A) : Task A :=
  fun w =>
    match t w with
    | (Js.Rejected e, w') => h e w'
    | other => other
    end.

(** A synchronous call that may throw. *)
Definition may_fail (err : option Js.JsError) : Task unit :=
  match err with
  | Some e => throw e
  | None => ret tt
  end.

(** An asynchronous stage of the environment. *)
Definition stage (failure : option Failure) : Task unit :=
  match failure with
  | None => ret tt
  | Some (Rejects e) => throw e
  | Some (Throws e) => fun w => (Js.Uncaught e, w)
  end.

(** A promise that does not touch the store. *)
Definition lift {A} (p : Js.Outcome A) : Task A := fun w => (p, w).

(** [await Promise.all([a, b])].  Both promises are already running when
    they are awaited, so the effects of both take place whatever the
    other does; which of two rejections is reported depends on timing in
    the runtime and is taken here in array order. *)
Definition Promise_all {A B} (a : Task A) (b : Task B) : Task (A * B) :=
  fun w =>
    let '(ra, w1) := a w in
    let '(rb, w2) := b w1 in
    (match ra, rb with
     | Js.Uncaught e, _ => Js.Uncaught e
     | _, Js.Uncaught e => Js.Uncaught e
     | Js.Rejected e, _ => Js.Rejected e
     | _, Js.Rejected e => Js.Rejected e
     | Js.Resolved x, Js.Resolved y => Js.Resolved (x, y)
     end, w2).

(** ** [setupDatabase] *)

(** The [switch] on the inferred type. *)
Definition column_for (type : option InferredType) : ColumnType :=
  match type with
  | Some T_int => integer
  | Some T_bigint => bigInteger
  | Some T_float => float
  | Some T_date => dateTime
  | Some T_string | None => varchar
  end.

(** [table.increments('id').primary()], then one column per entry of
    [Object.entries(inferredTypes)]. *)
Definition table_for (inferredTypes : InferredSchema) : Table :=
  {| columns :=
       ("id", increments)
         :: map (fun '(header, type) => (header, column_for type))
                (Object_entries inferredTypes);
     body := [] |}.

(** SQLite compares column names without regard to the case of the
    ASCII letters. *)
Definition lower (c : ascii) : ascii :=
  let n := nat_of_ascii c in
  if (65 <=? n)%nat && (n <=? 90)%nat then ascii_of_nat (n + 32) else c.

Definition same_name (a b : string) : bool :=
  bool_decide (map lower (Js.chars a) = map lower (Js.chars b)).

(** The first column whose name an earlier column has already. *)
Fixpoint duplicate_column (seen cols : list string) : option string :=
  match cols with
  | [] => None
  | c :: cols' =>
      if existsb (same_name c) seen then Some c
      else duplicate_column (seen ++ [c]) cols'
  end.

(** [setupDatabase(inferredTypes, tableName)].  [CREATE TABLE] is refused
    when the table is there already, and when two of its columns have
    the same name: the [id] column the code adds and a column [id] (or
    [ID]) of the file, or two headers that differ in case only. *)
Definition setupDatabase (env : Env) (inferredTypes : InferredSchema)
  (tableName : string) : Task unit :=
  fun w =>
    let w := issue (OpCreateTable tableName) w in
    match tables w !! tableName with
    | Some _ => (Js.Rejected (store_error env (TableExists tableName)), w)
    | None =>
        match duplicate_column [] ("id" :: Object_keys inferredTypes) with
        | Some c =>
            (Js.Rejected (store_error env (DuplicateColumn tableName c)), w)
        | None =>
            match create_error env tableName with
            | Some e => (Js.Rejected e, w)
            | None =>
                (Js.Resolved tt,
                 set_tables
                   (<[tableName := table_for inferredTypes]> (tables w)) w)
            end
        end
    end.

(** ** [countRowsInTable], [countRowsInCSV], [checkTableExistence] *)

Definition countRowsInTable (env : Env) (tableName : string) : Task nat :=
  fun w =>
    match tables w !! tableName with
    | Some t => (Js.Resolved (length (body t)), w)
    | None => (Js.Rejected (store_error env (NoSuchTable tableName)), w)
    end.

Definition countRowsInCSV (fs : Files) (filePath : string) : Js.Outcome nat :=
  match fs !! filePath with
  | None => Js.Uncaught (Js.LibError "fs" "ENOENT: no such file or directory")
  | Some stream =>
      let rowCount := fold_left (fun n _ => S n) (stream_rows stream) 0 in
      match stream_error stream with
      | Some e => Js.Rejected e
      | None => Js.Resolved rowCount
      end
  end.

Definition checkTableExistence (tableName : string) : Task bool :=
  fun w => (Js.Resolved (bool_decide (is_Some (tables w !! tableName))), w).

(* ===================================================================== *)
(** * The batch loader                                                    *)
(* ===================================================================== *)

(** ** The transaction of [processCSV]

    [db.transaction] hands the code a transaction [trx] and takes the
    promise the code returns: knex commits when that promise is
    fulfilled and rolls back when it is rejected.  The record holds the
    tables as the open transaction sees them ([None] once it is rolled
    back), the state of the promise, the number of batch inserts that
    have reached the store, and the statements sent. *)

Inductive Promise : Type :=
| Pending
| Fulfilled
| Failed (e : Js.JsError).

Record Transaction : Type := {
  trx : option (gmap string Table);
  promise : Promise;
  reached : nat;
  ops : list DbOp
}.

Definition begin (w : World) : Transaction :=
  {| trx := Some (tables w); promise := Pending; reached := 0; ops := [] |}.

(** [reject(e)]: settles the promise unless it is settled already; knex
    rolls the transaction back. *)
Definition reject (e : Js.JsError) (l : Transaction) : Transaction :=
  match promise l with
  | Pending =>
      {| trx := None; promise := Failed e; reached := reached l;
         ops := ops l ++ [OpRollback] |}
  | _ => l
  end.

(** [resolve()]: settles the promise unless it is settled already; knex
    commits what the transaction holds at that moment. *)
Definition resolve (l : Transaction) : Transaction :=
  match promise l with
  | Pending =>
      {| trx := trx l; promise := Fulfilled; reached := reached l;
         ops := ops l ++ [OpCommit] |}
  | _ => l
  end.

Definition append_rows (batch : list Row) (t : Table) : Table :=
  {| columns := columns t; body := body t ++ batch |}.

(** [trx.batchInsert(tableName, batch, batchSize).catch(reject)], at the
    moment the insert settles.  While the transaction is open the insert
    reaches the store, which takes the batch or refuses it; once the
    transaction is complete knex rejects the query itself, and in both
    cases of failure [reject] is called, which does nothing to a promise
    that is settled. *)
Definition batchInsert (env : Env) (tableName : string)
  (l : Transaction) (batch : list Row) : Transaction :=
  match promise l, trx l with
  | Pending, Some t =>
      let k := reached l in
      let l :=
        {| trx := trx l; promise := promise l; reached := S k;
           ops := ops l ++ [OpBatchInsert tableName (length batch)] |} in
      match insert_error env tableName k, t !! tableName with
      | Some e, _ => reject e l
      | None, None => reject (store_error env (NoSuchTable tableName)) l
      | None, Some tb =>
          {| trx := Some (<[tableName := append_rows batch tb]> t);
             promise := promise l; reached := reached l; ops := ops l |}
      end
  | _, _ => l
  end.

Definition close (c : EventLoop.Closing) (l : Transaction) : Transaction :=
  match c with
  | EventLoop.Resolve => resolve l
  | EventLoop.Reject e => reject e l
  end.

(** The transaction after the listeners of a load have run to the state
    [s]: the inserts that settled before the stream was closed, the
    closing call, the inserts that settled after it. *)
Definition settle (env : Env) (tableName : string) (s : EventLoop.State)
  (l : Transaction) : Transaction :=
  let l := fold_left (batchInsert env tableName) (EventLoop.arrived s) l in
  let l :=
    match EventLoop.closing s with
    | Some c => close c l
    | None => l
    end in
  fold_left (batchInsert env tableName) (EventLoop.late s) l.

(** The listeners of a load, run until the runtime has nothing left to
    deliver. *)
Definition listeners (pauses : bool) (batchSize : nat) (env : Env)
  (stream : CsvStream) : EventLoop.State :=
  EventLoop.finish pauses batchSize (runtime env) (EventLoop.open stream).

Definition issue_all (l : list DbOp) (w : World) : World :=
  {| tables := tables w; oplog := oplog w ++ l; console := console w |}.

(** [processCSV(db, filePath, tableName)] for a given [batchSize].
    [pauses] tells whether the ['data'] listener pauses the stream
    around its insert, [log_count] whether the function prints
    [rows.length] after the transaction; [challenge.ts] does the former,
    the other version the latter.  The transaction commits when its
    promise is fulfilled; a rejection is caught by the function itself,
    which prints it and returns normally.  Inserts that settle after the
    function has returned find the transaction complete and change
    nothing. *)
Definition processCSV_with (pauses : bool) (batchSize : nat)
  (log_count : bool) (env : Env) (filePath tableName : string) : Task unit :=
  fun w =>
    match files env !! filePath with
    | None =>
        (Js.Uncaught (Js.LibError "fs" "ENOENT: no such file or directory"), w)
    | Some stream =>
        let s := listeners pauses batchSize env stream in
        let l := settle env tableName s (begin w) in
        let w := issue_all (ops l) w in
        match promise l, trx l with
        | Fulfilled, Some t =>
            let w := set_tables t w in
            (Js.Resolved tt,
             if log_count
             then print (pretty (length (EventLoop.rows s))) w
             else w)
        | Failed e, _ =>
            (Js.Resolved tt,
             print ("An error occurred while processing the CSV: "
                      +:+ Js.show_error e) w)
        | _, _ =>
            (* not reached: the stream always settles the promise, and only
               a rejection closes the transaction *)
            (Js.Resolved tt, w)
        end
    end.


(* ===================================================================== *)
(** * The two versions of the pipeline                                    *)
(* ===================================================================== *)

Definition customers_csv : string := "./tmp/extracted/dump/customers.csv".
Definition organizations_csv : string := "./tmp/extracted/dump/organizations.csv".

(** [console.log(line)] *)
Definition say (line : string) : Task unit :=
  fun w => (Js.Resolved tt, print line w).

(** [assert(cond, msg)] *)
Definition assert (cond : bool) (msg : string) : Task unit :=
  if cond then ret tt else throw (Js.AssertionError msg).

(** [throw Error(`An error occurred: ${err}`)], the handler of the
    [try] block that wraps the whole of [processDataDump]. *)
Definition rethrow (err : Js.JsError) : Task unit :=
  throw (Js.Error ("An error occurred: " +:+ Js.show_error err)).

(** ** [challenge-1/challenge.ts] *)
Module Paused.

Definition batchSize : nat := 90.

Definition processCSV : Env -> string -> string -> Task unit :=
  processCSV_with true batchSize false.

Definition processDataDump (env : Env) : Task unit :=
  catch
    (do! say "Ensuring directory exists for SQLite database..." in
     do! may_fail (mkdir_error env) in
     do! say "Directory check complete." in
     do! stage (download_error env) in
     do! stage (extract_error env) in
     let! customerInferredTypes :=
       lift (inferColumnTypes (host_date_parse env) (files env)
               customers_csv default_sampleSize) in
     let! organizationInferredTypes :=
       lift (inferColumnTypes (host_date_parse env) (files env)
               organizations_csv default_sampleSize) in
     do! setupDatabase env customerInferredTypes "customers" in
     do! setupDatabase env organizationInferredTypes "organizations" in
     do! processCSV env customers_csv "customers" in
     processCSV env organizations_csv "organizations")
    rethrow.

End Paused.

(** ** The version with the rerun guard *)
Module Guarded.

Definition batchSize : nat := 10.

Definition processCSV : Env -> string -> string -> Task unit :=
  processCSV_with false batchSize true.

(** [checkAndVerifyTables(db)].  The two assertions are written with
    [!==]: each one throws when the two counts are equal.  The
    [db.destroy()] before [return true] closes the connection pool and
    leaves the tables alone. *)
Definition checkAndVerifyTables (env : Env) : Task bool :=
  let! exist :=
    Promise_all (checkTableExistence "customers")
                (checkTableExistence "organizations") in
  let '(doesCustomersTableExist, doesOrganizationsTableExist) := exist in
  if doesCustomersTableExist && doesOrganizationsTableExist then
    let! counts :=
      Promise_all
        (Promise_all (countRowsInTable env "customers")
                     (lift (countRowsInCSV (files env) customers_csv)))
        (Promise_all (countRowsInTable env "organizations")
                     (lift (countRowsInCSV (files env) organizations_csv))) in
    let '((dbCustomerCount, csvCustomerCount),
          (dbOrganizationCount, csvOrganizationCount)) := counts in
    do! assert (negb (dbCustomerCount =? csvCustomerCount)%nat)
               "customer count in db != customer count in csv" in
    do! assert (negb (dbOrganizationCount =? csvOrganizationCount)%nat)
               "organization count in db != organization count in csv" in
    do! say "Required tables 'customers' and 'organizations' already exist and have the required amount of rows." in
    ret true
  else ret false.

Definition processDataDump (env : Env) : Task unit :=
  catch
    (do! say "Ensuring directory exists for SQLite database..." in
     do! may_fail (mkdir_error env) in
     do! say "Directory check complete." in
     do! stage (download_error env) in
     do! stage (extract_error env) in
     let! inferred :=
       Promise_all
         (lift (inferColumnTypes (host_date_parse env) (files env)
                  customers_csv default_sampleSize))
         (lift (inferColumnTypes (host_date_parse env) (files env)
                  organizations_csv default_sampleSize)) in
     let '(customerInferredTypes, organizationInferredTypes) := inferred in
     let! skip := checkAndVerifyTables env in
     if skip : bool then ret tt
     else
       do! Promise_all (setupDatabase env customerInferredTypes "customers")
                       (setupDatabase env organizationInferredTypes "organizations") in
       do! processCSV env customers_csv "customers" in
       do! processCSV env organizations_csv "organizations" in
       ret tt)
    rethrow.

End Guarded.

(* ===================================================================== *)
(** * Vocabulary of the properties                                        *)
(* ===================================================================== *)

(** Number of rows of a table, [0] when it does not exist. *)
Definition row_count (w : World) (tableName : string) : nat :=
  match tables w !! tableName with
  | Some t => length (body t)
  | None => 0
  end.

(** The sequence of classifications with repetitions removed, each kept
    where it was first met, as the design document words the policy. *)
Fixpoint distinct_from {A} `{EqDecision A} (seen l : list A) : list A :=
  match l with
  | [] => []
  | x :: l' =>
      if bool_decide (x ∈ seen)
      then distinct_from seen l'
      else x :: distinct_from (seen ++ [x]) l'
  end.

Definition first_distinct {A} `{EqDecision A} (l : list A) : list A :=
  distinct_from [] l.

(** The classifications of one column over a sample, in row order. *)
Definition classifications (host : string -> Js.JsNum) (sampleRows : list Row)
  (header : string) : list InferredType :=
  map (fun row => inferType host (to_js_string (obj_get row header))) sampleRows.

(** The tables as the transaction sees them after the batches [bs] went
    into [tableName]. *)
Definition trx_view (t0 : gmap string Table) (tableName : string)
  (bs : list (list Row)) : gmap string Table :=
  match t0 !! tableName with
  | Some tb0 => <[tableName := append_rows (concat bs) tb0]> t0
  | None => t0
  end.

(** The sizes of the batches of a file of [n] rows. *)
Definition batch_sizes (B n : nat) : list nat :=
  repeat B (n / B) ++ (if (n mod B =? 0)%nat then [] else [n mod B]).

(** What the ['data'] listener does to the buffer and to the list of
    batches, without the store. *)
Definition cut (B : nat) (st : list Row * list (list Row)) (row : Row)
  : list Row * list (list Row) :=
  let pushed := st.1 ++ [row] in
  if (B <=? length pushed)%nat
  then (drop B pushed, st.2 ++ [take B pushed])
  else (pushed, st.2).

(** The buffer and the batches after the ['data'] listener has seen the
    rows [rs]. *)
Definition cuts (B : nat) (rs : list Row) : list Row * list (list Row) :=
  fold_left (cut B) rs ([], []).

(** The batches of a file: those cut by the ['data'] listener, then the
    remainder, if any, from the ['end'] listener. *)
Definition batches (B : nat) (rs : list Row) : list (list Row) :=
  let st := fold_left (cut B) rs ([], []) in
  match st.1 with
  | [] => st.2
  | _ => st.2 ++ [st.1]
  end.

(** Both tables exist and hold as many rows as their files. *)
Definition fully_loaded (env : Env) (w : World) : Prop :=
  exists (tc to : Table) (sc so : CsvStream),
    tables w !! "customers" = Some tc /\
    tables w !! "organizations" = Some to /\
    files env !! customers_csv = Some sc /\
    files env !! organizations_csv = Some so /\
    length (body tc) = length (stream_rows sc) /\
    length (body to) = length (stream_rows so).


(** The two entry points. *)
Inductive Version : Type :=
| PausedVersion
| GuardedVersion.

Definition processDataDump_of (v : Version) : Env -> Task unit :=
  match v with
  | PausedVersion => Paused.processDataDump
  | GuardedVersion => Guarded.processDataDump
  end.

(** The stages of [processDataDump] that come before the first call of
    [processCSV]; the result tells whether the guard asked to skip. *)
Definition before_load (v : Version) (env : Env) : Task bool :=
  do! say "Ensuring directory exists for SQLite database..." in
  do! may_fail (mkdir_error env) in
  do! say "Directory check complete." in
  do! stage (download_error env) in
  do! stage (extract_error env) in
  match v with
  | PausedVersion =>
      let! customerInferredTypes :=
        lift (inferColumnTypes (host_date_parse env) (files env)
                customers_csv default_sampleSize) in
      let! organizationInferredTypes :=
        lift (inferColumnTypes (host_date_parse env) (files env)
                organizations_csv default_sampleSize) in
      do! setupDatabase env customerInferredTypes "customers" in
      do! setupDatabase env organizationInferredTypes "organizations" in
      ret false
  | GuardedVersion =>
      let! inferred :=
        Promise_all
          (lift (inferColumnTypes (host_date_parse env) (files env)
                   customers_csv default_sampleSize))
          (lift (inferColumnTypes (host_date_parse env) (files env)
                   organizations_csv default_sampleSize)) in
      let! skip := Guarded.checkAndVerifyTables env in
      if skip : bool then ret true
      else
        do! Promise_all (setupDatabase env inferred.1 "customers")
                        (setupDatabase env inferred.2 "organizations") in
        ret false
  end.

(** The two loads. *)
Definition load (v : Version) (env : Env) : Task unit :=
  match v with
  | PausedVersion =>
      do! Paused.processCSV env customers_csv "customers" in
      Paused.processCSV env organizations_csv "organizations"
  | GuardedVersion =>
      do! Guarded.processCSV env customers_csv "customers" in
      do! Guarded.processCSV env organizations_csv "organizations" in
      ret tt
  end.

Definition wrapped (err : Js.JsError) : Js.JsError :=
  Js.Error ("An error occurred: " +:+ Js.show_error err).

(** The environment with another behaviour of the store on inserts. *)
Definition with_insert_error (fail : string -> nat -> option Js.JsError)
  (env : Env) : Env :=
  {| host_date_parse := host_date_parse env;
     mkdir_error := mkdir_error env;
     download_error := download_error env;
     extract_error := extract_error env;
     files := files env;
     runtime := runtime env;
     create_error := create_error env;
     insert_error := fail;
     store_error := store_error env |}.

(** Re-raising the failure of a load, as a property of an entry point
    that can be observed from outside: whenever a transaction was rolled
    back during the run, the promise of the entry point is rejected. *)
Definition reraises_load_failures (run : Env -> Task unit) : Prop :=
  forall (env : Env) (w : World),
    OpRollback ∉ oplog w ->
    OpRollback ∈ oplog (run env w).2 ->
    exists e, (run env w).1 = Js.Rejected e.

(** The first failure of the stages that come before the files are
    read: directory, download, extraction. *)
Definition prelude_error (env : Env) : option Failure :=
  match mkdir_error env, download_error env with
  | Some e, _ => Some (Rejects e)
  | None, Some f => Some f
  | None, None => extract_error env
  end.

(** The column names [CREATE TABLE] is given for a file whose first row
    is [first] are distinct, [id] included. *)
Definition columns_accepted (first : Row) : Prop :=
  duplicate_column [] ("id" :: Object_keys first) = None.

(** The batch size of a version. *)
Definition batchSize_of (v : Version) : nat :=
  match v with
  | PausedVersion => Paused.batchSize
  | GuardedVersion => Guarded.batchSize
  end.

(** Whether the loader of a version pauses the stream around its
    inserts, and whether it prints [rows.length]. *)
Definition pauses_of (v : Version) : bool :=
  match v with
  | PausedVersion => true
  | GuardedVersion => false
  end.

Definition log_count_of (v : Version) : bool :=
  match v with
  | PausedVersion => false
  | GuardedVersion => true
  end.

(** [processCSV] of a version. *)
Definition processCSV_of (v : Version) : Env -> string -> string -> Task unit :=
  processCSV_with (pauses_of v) (batchSize_of v) (log_count_of v).

(** What a transaction opened on the tables [t0] can hold: the tables
    with some batches added to [tableName], until it is rolled back. *)
Definition holds_view (t0 : gmap string Table) (tableName : string)
  (l : Transaction) : Prop :=
  match promise l with
  | Failed _ => True
  | _ => exists bs, trx l = Some (trx_view t0 tableName bs)
  end.

(** How the stream of a file closes the promise of its load. *)
Definition closing_of (stream : CsvStream) : EventLoop.Closing :=
  match stream_error stream with
  | None => EventLoop.Resolve
  | Some e => EventLoop.Reject e
  end.

(** The statements of the batch inserts [bs] into [tableName]. *)
Definition inserts_of (tableName : string) (bs : list (list Row))
  : list DbOp :=
  map (fun b => OpBatchInsert tableName (length b)) bs.

(** Two runtimes.  The first delivers what the stream has before it
    settles an insert: what happens to a file that the parser reads in
    one go, since an insert reaches the store a timer tick after it was
    started.  The second settles every insert before the next event of
    the stream. *)
Definition stream_first : EventLoop.State -> EventLoop.Event :=
  fun _ => EventLoop.EvData.

Definition store_first : EventLoop.State -> EventLoop.Event :=
  fun _ => EventLoop.EvSettle.

(** Invariants of the event loop. *)
Module EventLoopSpec.
Import EventLoop.

(** The buffer: below the batch size between listeners, at most the
    batch size inside the ['data'] listener. *)
Definition buffer_inv (B : nat) (s : State) : Prop :=
  peak s <= B /\ length (rows s) < B.

(** The inserts in [q] are awaited by ['data'] listeners. *)
Definition awaited_by_data (q : list (list Row * Waiter)) : Prop :=
  Forall (fun p => p.2 = DataListener) q.

(** The delivered rows, the buffer and the batches issued follow [cut],
    whatever the order in which the runtime delivers rows and settles
    inserts; the stream is over only when it has no row left. *)
Definition follows_cut (B : nat) (src : list Row) (s : State) : Prop :=
  exists delivered,
    src = delivered ++ source s /\
    rows s = (cuts B delivered).1 /\
    if ended s
    then source s = [] /\
         issued s = match broken s with
                    | None => batches B src
                    | Some _ => (cuts B src).2
                    end
    else issued s = (cuts B delivered).2.

(** The promise and the inserts.  Inserts settle in the order in which
    they were started; the promise is not closed while the stream runs;
    after ['end'] it is open only as long as the ['end'] listener awaits
    the insert of the remainder, the last one started; it is closed once,
    by [resolve()] if the parser reported no error and by [reject] if it
    did; and when the ['end'] listener had a remainder to insert, nothing
    is in flight or settles after its [resolve()]. *)
Record log_inv (s : State) : Prop := {
  fifo : issued s = arrived s ++ late s ++ map fst (in_flight s);
  late_after_closing : closing s = None -> late s = [];
  open_while_streaming :
    ended s = false -> closing s = None /\ awaited_by_data (in_flight s);
  end_pending :
    ended s = true -> closing s = None ->
    broken s = None /\ rows s <> [] /\
    exists q, in_flight s = q ++ [(rows s, EndListener)] /\ awaited_by_data q;
  closed_once :
    forall c, closing s = Some c ->
              ended s = true /\ awaited_by_data (in_flight s) /\
              c = match broken s with
                  | None => Resolve
                  | Some e => Reject e
                  end;
  closed_by_await :
    closing s = Some Resolve -> rows s <> [] ->
    late s = [] /\ in_flight s = []
}.

(** The version that pauses: at most one insert is in flight, and none
    while the stream is flowing and has not ended; the buffer is empty
    while the stream is paused; and at most one insert is left when the
    stream is closed. *)
Record paused_inv (s : State) : Prop := {
  at_most_one : length (in_flight s) <= 1;
  idle_while_flowing :
    flowing s = true -> ended s = false -> in_flight s = [];
  empty_while_paused :
    flowing s = false -> ended s = false -> rows s = [];
  one_left :
    forall c, closing s = Some c ->
              length (late s) + length (in_flight s) <= 1
}.

(** What keeps the loader going: a stream that has not ended is flowing
    or has an insert in flight whose settlement resumes it, and only the
    version that pauses ever stops the stream. *)
Record live_inv (pauses : bool) (s : State) : Prop := {
  flowing_or_busy : ended s = false -> flowing s = true \/ in_flight s <> [];
  stops_only_when_pausing : pauses = false -> flowing s = true
}.

(** The rows held by the batch inserts in flight. *)
Definition rows_in_flight (s : State) : nat :=
  list_sum (map (fun p => length p.1) (in_flight s)).

(** Every batch in flight has at most [B] rows. *)
Definition batches_bounded (B : nat) (s : State) : Prop :=
  Forall (fun p => length p.1 <= B) (in_flight s).

(** What holds when the stream runs ahead of the store: when the stream
    has delivered its last row and the buffer is empty, the batch that
    row completed is still in flight, and when ['end'] finds the buffer
    empty, [resolve()] leaves a batch behind. *)
Record ahead_inv (s : State) : Prop := {
  last_batch_in_flight :
    ended s = false -> source s = [] -> rows s = [] -> issued s <> [] ->
    in_flight s <> [];
  resolve_leaves_behind :
    closing s = Some Resolve -> rows s = [] -> issued s <> [] ->
    late s <> [] \/ in_flight s <> []
}.

(** Without the pause nothing settles before the stream is over, and
    nothing reaches the transaction at all when ['end'] finds the buffer
    empty. *)
Definition unsettled_inv (s : State) : Prop :=
  ended s = false \/ rows s = [] -> arrived s = [].

(** The runtime has nothing left to deliver. *)
Definition at_rest (pauses : bool) (B : nat) (s : State) : Prop :=
  forall ev, step pauses B ev s = None.

(** What holds of every state of a load of the rows [src], for every
    batch size. *)
Record loader_inv (pauses : bool) (B : nat) (src : list Row) (s : State)
  : Prop := {
  inv_cut : follows_cut B src s;
  inv_log : log_inv s;
  inv_live : live_inv pauses s
}.

End EventLoopSpec.

(* ===================================================================== *)
(** * Sample inputs                                                       *)
(* ===================================================================== *)

(** An engine whose [Date.parse] knows the date-only forms and nothing
    else. *)
Definition strict_host : string -> Js.JsNum := fun _ => Js.NaN.

(** [n] data rows of a two-column file. *)
Definition sample_rows (n : nat) : list Row :=
  map (fun i => [("Index", pretty i); ("Name", "abc")]) (seq 1 n).

Definition csv_of (l : list Row) : CsvStream :=
  {| stream_rows := l; stream_error := None |}.

(** What knex reports when the store refuses a statement, the text of
    the statement cut short. *)
Definition sample_store_error (r : Refusal) : Js.JsError :=
  match r with
  | TableExists t =>
      Js.LibError "sqlite"
        ("create table `" +:+ t +:+ "` (...) - SQLITE_ERROR: table `" +:+ t
           +:+ "` already exists")
  | DuplicateColumn t c =>
      Js.LibError "sqlite"
        ("create table `" +:+ t
           +:+ "` (...) - SQLITE_ERROR: duplicate column name: " +:+ c)
  | NoSuchTable t =>
      Js.LibError "sqlite"
        ("insert into `" +:+ t +:+ "` (...) - SQLITE_ERROR: no such table: "
           +:+ t)
  end.

Definition never_fails : string -> nat -> option Js.JsError :=
  fun _ _ => None.

(** A run in which nothing outside the program fails except, possibly,
    batch inserts, under a given runtime. *)
Definition sample_env_under (pick : EventLoop.State -> EventLoop.Event)
  (customers organizations : list Row)
  (fail : string -> nat -> option Js.JsError) : Env :=
  {| host_date_parse := strict_host;
     mkdir_error := None;
     download_error := None;
     extract_error := None;
     files := {[ customers_csv := csv_of customers;
                 organizations_csv := csv_of organizations ]};
     runtime := pick;
     create_error := fun _ => None;
     insert_error := fail;
     store_error := sample_store_error |}.

(** The same under the runtime that lets the stream run ahead of the
    store. *)
Definition sample_env (customers organizations : list Row)
  (fail : string -> nat -> option Js.JsError) : Env :=
  sample_env_under stream_first customers organizations fail.

(** The store refuses the [k]-th batch insert into [tableName]. *)
Definition fails_at (tableName : string) (k : nat)
  : string -> nat -> option Js.JsError :=
  fun t i =>
    if String.eqb t tableName && (i =? k)%nat
    then Some (Js.LibError "sqlite" "SQLITE_FULL: database or disk is full")
    else None.

Definition empty_world : World :=
  {| tables := ∅; oplog := []; console := [] |}.

(** A column whose first sampled value is text and whose other values
    are numbers. *)
Definition mixed_rows : list Row :=
  [ [("id", "abc"); ("n", "1")];
    [("id", "2"); ("n", "2.5")];
    [("id", "3"); ("n", "x")] ].

(** The store right after both tables were created for [sample_rows]. *)
Definition provisioned_world : World :=
  {| tables :=
       {[ "customers" := table_for [("Index", Some T_int); ("Name", Some T_string)];
          "organizations" :=
            table_for [("Index", Some T_int); ("Name", Some T_string)] ]};
     oplog := [OpCreateTable "customers"; OpCreateTable "organizations"];
     console := [] |}.

(** A first run in which nothing fails: 25 customers, 3 organizations. *)
Definition first_run_env : Env :=
  sample_env (sample_rows 25) (sample_rows 3) never_fails.

(** The world that first run leaves behind. *)
Definition loaded_world : World :=
  (Guarded.processDataDump first_run_env empty_world).2.

(** A table of [sample_rows], fully loaded. *)
Definition loaded_table (n : nat) : Table :=
  {| columns := [("id", increments); ("Index", integer); ("Name", varchar)];
     body := sample_rows n |}.

(** A store whose two tables hold one row each. *)
Definition partial_world : World :=
  {| tables := {[ "customers" := loaded_table 1;
                  "organizations" := loaded_table 1 ]};
     oplog := [];
     console := [] |}.

(** A run in which the store refuses the first batch insert into
    [customers] (in the guarded version: rows 1 to 10; in
    [challenge.ts]: all 25 rows). *)
Definition failing_load_env : Env :=
  sample_env (sample_rows 25) (sample_rows 3) (fails_at "customers" 0).

(** A customers file on which the parser gives up after twelve rows. *)
Definition truncated_csv : CsvStream :=
  {| stream_rows := sample_rows 12;
     stream_error :=
       Some (Js.LibError "fast-csv"
               "Unexpected Error: column header mismatch expected: 2 columns got: 3") |}.

Definition truncated_env : Env :=
  {| host_date_parse := strict_host;
     mkdir_error := None;
     download_error := None;
     extract_error := None;
     files := {[ customers_csv := truncated_csv ]};
     runtime := stream_first;
     create_error := fun _ => None;
     insert_error := never_fails;
     store_error := sample_store_error |}.

(** A run in which the dump cannot be downloaded. *)
Definition offline_env : Env :=
  {| host_date_parse := strict_host;
     mkdir_error := None;
     download_error :=
       Some (Rejects
               (Js.LibError "axios" "connect ECONNREFUSED 127.0.0.1:443"));
     extract_error := None;
     files := ∅;
     runtime := stream_first;
     create_error := fun _ => None;
     insert_error := never_fails;
     store_error := sample_store_error |}.

(** A run in which the archive is not a gzip file. *)
Definition corrupt_archive_env : Env :=
  {| host_date_parse := strict_host;
     mkdir_error := None;
     download_error := None;
     extract_error :=
       Some (Throws (Js.LibError "zlib" "incorrect header check"));
     files := ∅;
     runtime := stream_first;
     create_error := fun _ => None;
     insert_error := never_fails;
     store_error := sample_store_error |}.

(** A store that has the table [customers], loaded, and no table
    [organizations]. *)
Definition customers_only_world : World :=
  {| tables := {[ "customers" := loaded_table 25 ]};
     oplog := [];
     console := [] |}.

(* ===================================================================== *)
(** * Properties of the type inferencer                                   *)
(* ===================================================================== *)

Section Inference.

Variable host : string -> Js.JsNum.

(** C7: [inferType] sends "2147483647" to int32, "2147483648" to int64,
    "3.14" to float64, "2024-01-01" to timestamp and "abc123" to string.
    The first four are fixed by the code and ECMAScript alone; the last
    one needs the engine to reject "abc123" as a date, which is the
    hypothesis. *)
Theorem inferType_boundaries :
  host "abc123" = Js.NaN ->
  inferType host "2147483647" = T_int /\
  inferType host "2147483648" = T_bigint /\
  inferType host "3.14" = T_float /\
  inferType host "2024-01-01" = T_date /\
  inferType host "abc123" = T_string.
Proof.
  intros Hhost. repeat split; try reflexivity.
  unfold inferType, Js.Date_parse. simpl. now rewrite Hhost.
Qed.

Lemma date_branch_falsy (s : string) :
  Js.Date_parse host s = Js.Num 0 ->
  Js.truthy (Js.Date_parse host s) = false.
Proof. intros ->. reflexivity. Qed.

(** C10 (amended): a string whose [Date.parse] is the epoch, 0 ms, is
    never classified as timestamp; it is classified as string whenever it
    gets as far as the date rule, i.e. it is neither all digits nor
    digits-dot-digits. *)
Theorem inferType_epoch (s : string) :
  Js.Date_parse host s = Js.Num 0 ->
  inferType host s <> T_date /\
  (Js.re_digits s = false -> Js.re_digits_dot_digits s = false ->
   inferType host s = T_string).
Proof.
  intros H0. apply date_branch_falsy in H0. unfold inferType. split.
  - destruct (Js.re_digits s).
    + now destruct (_ && _).
    + destruct (Js.re_digits_dot_digits s); [discriminate|].
      now rewrite H0.
  - intros -> ->. now rewrite H0.
Qed.

End Inference.

(** Witness for C7. *)
Lemma inferType_boundaries_witness :
  inferType strict_host "2147483647" = T_int /\
  inferType strict_host "2147483648" = T_bigint /\
  inferType strict_host "3.14" = T_float /\
  inferType strict_host "2024-01-01" = T_date /\
  inferType strict_host "abc123" = T_string.
Proof. apply (inferType_boundaries strict_host). reflexivity. Defined.

(** Witness for C10: "1970-01-01" parses to 0 ms, reaches the date rule
    and is a string. *)
Lemma inferType_epoch_witness :
  inferType strict_host "1970-01-01" <> T_date /\
  inferType strict_host "1970-01-01" = T_string.
Proof.
  destruct (inferType_epoch strict_host "1970-01-01" eq_refl) as [Hnot Hstr].
  split; [exact Hnot|]. apply Hstr; reflexivity.
Defined.

(** C10 as stated fails: "1970" is a date-only form that parses to 0 ms,
    and the all-digits rule, which comes first, makes it an int32. *)
Lemma inferType_epoch_not_always_string :
  ~ (forall (host : string -> Js.JsNum) (s : string),
       Js.Date_parse host s = Js.Num 0 -> inferType host s = T_string).
Proof.
  intros H. specialize (H strict_host "1970" eq_refl). discriminate H.
Qed.

(** ** The sample and the set of classifications *)

Lemma sample_on_data_fold (sampleSize : nat) (rs acc : list Row) :
  fold_left (sample_on_data sampleSize) rs acc
  = acc ++ take (sampleSize - length acc) rs.
Proof.
  revert acc. induction rs as [|r rs IH]; intros acc; simpl.
  - now rewrite take_nil, app_nil_r.
  - rewrite IH. unfold sample_on_data.
    destruct (Nat.ltb_spec (length acc) sampleSize) as [Hlt|Hge].
    + rewrite length_app. simpl.
      replace (sampleSize - length acc) with (S (sampleSize - (length acc + 1)))
        by lia.
      simpl. now rewrite <- app_assoc.
    + now replace (sampleSize - length acc) with 0 by lia.
Qed.

(** The rows the ['data'] listener keeps are the first [sampleSize] rows. *)
Lemma sample_is_prefix (sampleSize : nat) (rs : list Row) :
  fold_left (sample_on_data sampleSize) rs [] = take sampleSize rs.
Proof. rewrite sample_on_data_fold. simpl. now rewrite Nat.sub_0_r. Qed.

Lemma Set_from_acc {A} `{EqDecision A} (l s : list A) :
  fold_left Set_add l s = s ++ distinct_from s l.
Proof.
  revert s. induction l as [|x l IH]; intros s; simpl.
  - now rewrite app_nil_r.
  - unfold Set_add at 2. destruct (bool_decide (x ∈ s)).
    + apply IH.
    + rewrite IH. now rewrite <- app_assoc.
Qed.

(** A [Set] built from a list iterates over the distinct elements of the
    list in the order of their first occurrence. *)
Lemma Set_from_first_distinct {A} `{EqDecision A} (l : list A) :
  Set_from l = first_distinct l.
Proof. unfold Set_from, first_distinct. now rewrite Set_from_acc. Qed.

Lemma head_first_distinct {A} `{EqDecision A} (l : list A) :
  head (first_distinct l) = head l.
Proof. destruct l as [|x l]; reflexivity. Qed.

(** ** Objects *)

Lemma obj_get_set {V} (o : Obj V) (k k' : string) (v : V) :
  obj_get (obj_set k v o) k' = if String.eqb k k' then Some v else obj_get o k'.
Proof.
  induction o as [|[k0 v0] o IH]; simpl.
  - reflexivity.
  - destruct (String.eqb_spec k0 k) as [->|Hne]; simpl.
    + now destruct (String.eqb k k').
    + rewrite IH. destruct (String.eqb_spec k0 k') as [->|Hne'].
      * destruct (String.eqb_spec k k'); [congruence|reflexivity].
      * reflexivity.
Qed.

Lemma infer_header_get host sampleRows (keys : list string)
  (acc : InferredSchema) (h : string) :
  obj_get (fold_left (infer_header host sampleRows) keys acc) h
  = if bool_decide (h ∈ keys)
    then Some (Set_first (Set_from (classifications host sampleRows h)))
    else obj_get acc h.
Proof.
  revert acc. induction keys as [|k keys IH]; intros acc; simpl.
  - reflexivity.
  - rewrite IH. destruct (bool_decide_reflect (h ∈ keys)) as [Hin|Hnin].
    + rewrite bool_decide_eq_true_2; [reflexivity|now right].
    + unfold infer_header at 1. rewrite obj_get_set.
      destruct (String.eqb_spec k h) as [->|Hne].
      * rewrite bool_decide_eq_true_2; [|now left].
        unfold classifications. now rewrite map_map.
      * rewrite bool_decide_eq_false_2; [reflexivity|].
        intros Hin. apply elem_of_cons in Hin as [?|?]; congruence.
Qed.

Section InferColumnTypes.

Variable host : string -> Js.JsNum.
Variable fs : Files.

(** C5: for a file with a header row and no data rows the code does not
    reject with an error that names the file: the ['end'] listener throws
    a [TypeError] from [Object.keys(sampleRows[0])], which nothing
    catches. *)
Theorem inferColumnTypes_no_data_rows (filePath : string) (sampleSize : nat) :
  fs !! filePath = Some (csv_of []) ->
  inferColumnTypes host fs filePath sampleSize
  = Js.Uncaught (Js.TypeError "Cannot convert undefined or null to object").
Proof. intros Hf. unfold inferColumnTypes. now rewrite Hf. Qed.

(** C6: for a file that ends normally, a sample size [N] and a non-empty
    sample (the first [N] rows), [inferColumnTypes] resolves, and for
    every column of the header the inferred type is the first element of
    the classifications of the sampled values with repetitions removed in
    order of first occurrence; that element is the classification of the
    value in the first sampled row, whatever the other rows hold. *)
Theorem inferColumnTypes_first_distinct (filePath : string) (N : nat)
  (stream : CsvStream) (first : Row) (others : list Row) :
  fs !! filePath = Some stream ->
  stream_error stream = None ->
  take N (stream_rows stream) = first :: others ->
  exists schema : InferredSchema,
    inferColumnTypes host fs filePath N = Js.Resolved schema /\
    forall header : string,
      header ∈ Object_keys first ->
      obj_get schema header
      = Some (head (first_distinct
                      (classifications host (first :: others) header))) /\
      obj_get schema header
      = Some (Some (inferType host (to_js_string (obj_get first header)))).
Proof.
  intros Hf Hend Hsample. unfold inferColumnTypes.
  rewrite Hf, Hend, sample_is_prefix, Hsample. simpl.
  eexists. split; [reflexivity|].
  intros header Hin. rewrite infer_header_get.
  rewrite bool_decide_eq_true_2 by exact Hin.
  rewrite Set_from_first_distinct. unfold Set_first. split; [reflexivity|].
  now rewrite head_first_distinct.
Qed.

End InferColumnTypes.

(** Witness for C5: a customers file that holds its header only. *)
Lemma inferColumnTypes_no_data_rows_witness :
  inferColumnTypes strict_host {[ customers_csv := csv_of [] ]}
                   customers_csv default_sampleSize
  = Js.Uncaught (Js.TypeError "Cannot convert undefined or null to object").
Proof.
  apply (inferColumnTypes_no_data_rows strict_host
           {[ customers_csv := csv_of [] ]} customers_csv default_sampleSize).
  reflexivity.
Defined.

(** Witness for C6: in [mixed_rows] the column [id] holds one text value
    followed by two numbers, and is inferred as string, not as the more
    frequent int32. *)
Lemma inferColumnTypes_first_distinct_witness :
  exists schema : InferredSchema,
    inferColumnTypes strict_host {[ customers_csv := csv_of mixed_rows ]}
                     customers_csv 10 = Js.Resolved schema /\
    forall header : string,
      header ∈ Object_keys [("id", "abc"); ("n", "1")] ->
      obj_get schema header
      = Some (head (first_distinct
                      (classifications strict_host mixed_rows header))) /\
      obj_get schema header
      = Some (Some (inferType strict_host
                      (to_js_string
                         (obj_get [("id", "abc"); ("n", "1")] header)))).
Proof.
  apply (inferColumnTypes_first_distinct strict_host
           {[ customers_csv := csv_of mixed_rows ]} customers_csv 10
           (csv_of mixed_rows) [("id", "abc"); ("n", "1")]
           [ [("id", "2"); ("n", "2.5")]; [("id", "3"); ("n", "x")] ]);
    reflexivity.
Defined.

(** The policy is not a majority vote: two of the three sampled values of
    [id] are int32, yet the column is a string column. *)
Example first_distinct_is_not_majority :
  classifications strict_host mixed_rows "id" = [T_string; T_int; T_int] /\
  inferColumnTypes strict_host {[ customers_csv := csv_of mixed_rows ]}
                   customers_csv 10
  = Js.Resolved [("id", Some T_string); ("n", Some T_int)].
Proof. split; reflexivity. Qed.


(* ===================================================================== *)
(** * The order of the keys of an object                                  *)
(* ===================================================================== *)

Lemma index_entries_app {V} (a b : Obj V) :
  index_entries (a ++ b) = index_entries a ++ index_entries b.
Proof.
  induction a as [|kv a IH]; simpl; [reflexivity|].
  destruct (array_index kv.1); simpl; now rewrite IH.
Qed.

Lemma named_entries_app {V} (a b : Obj V) :
  named_entries (a ++ b) = named_entries a ++ named_entries b.
Proof.
  induction a as [|kv a IH]; simpl; [reflexivity|].
  destruct (array_index kv.1); simpl; now rewrite IH.
Qed.

(** Every entry of [index_entries] carries the index of its key. *)
Lemma index_entries_indexed {V} (o : Obj V) :
  Forall (fun p => array_index p.2.1 = Some p.1) (index_entries o).
Proof.
  induction o as [|kv o IH]; simpl; [constructor|].
  destruct (array_index kv.1) eqn:Hk; [|exact IH].
  constructor; [exact Hk|exact IH].
Qed.

Lemma index_entries_named {V} (o : Obj V) :
  index_entries (named_entries o) = [].
Proof.
  induction o as [|kv o IH]; simpl; [reflexivity|].
  destruct (array_index kv.1) eqn:Hk; [exact IH|].
  simpl. now rewrite Hk.
Qed.

Lemma named_entries_named {V} (o : Obj V) :
  named_entries (named_entries o) = named_entries o.
Proof.
  induction o as [|kv o IH]; simpl; [reflexivity|].
  destruct (array_index kv.1) eqn:Hk; [exact IH|].
  simpl. now rewrite Hk, IH.
Qed.

Lemma index_entries_indices {V} (l : list (N * (string * V))) :
  Forall (fun p => array_index p.2.1 = Some p.1) l ->
  index_entries (map snd l) = l /\ named_entries (map snd l) = [].
Proof.
  induction 1 as [|[i kv] l Hp _ [IH1 IH2]]; simpl; [now split|].
  simpl in Hp. rewrite Hp, IH1. now split.
Qed.

Lemma insert_by_index_perm {V} i (kv : string * V) l :
  insert_by_index i kv l ≡ₚ (i, kv) :: l.
Proof.
  induction l as [|[j kv'] l IH]; simpl; [reflexivity|].
  destruct (i <=? j)%N; [reflexivity|].
  rewrite IH. apply Permutation_swap.
Qed.

Lemma by_index_perm {V} (l : list (N * (string * V))) : by_index l ≡ₚ l.
Proof.
  induction l as [|[i kv] l IH]; [reflexivity|].
  change (by_index ((i, kv) :: l)) with (insert_by_index i kv (by_index l)).
  now rewrite insert_by_index_perm, IH.
Qed.

Lemma entries_split_perm {V} (o : Obj V) :
  map snd (index_entries o) ++ named_entries o ≡ₚ o.
Proof.
  induction o as [|kv o IH]; simpl; [reflexivity|].
  destruct (array_index kv.1); simpl.
  - now rewrite IH.
  - rewrite <- Permutation_middle. now rewrite IH.
Qed.

(** [Object.entries] lists every entry once. *)
Lemma Object_entries_perm {V} (o : Obj V) : Object_entries o ≡ₚ o.
Proof.
  unfold Object_entries. rewrite by_index_perm. apply entries_split_perm.
Qed.

Lemma Object_keys_perm {V} (o : Obj V) : Object_keys o ≡ₚ map fst o.
Proof. unfold Object_keys. now rewrite Object_entries_perm. Qed.

(** The indices come out in ascending order. *)
Lemma insert_by_index_sorted {V} i (kv : string * V) l :
  Sorted (fun p q => (p.1 <= q.1)%N) l ->
  Sorted (fun p q => (p.1 <= q.1)%N) (insert_by_index i kv l).
Proof.
  induction 1 as [|[j kv'] l Hs IH Hd]; simpl.
  - repeat constructor.
  - destruct (i <=? j)%N eqn:Hij.
    + apply N.leb_le in Hij. constructor; [now constructor|].
      constructor. exact Hij.
    + apply N.leb_gt in Hij. constructor; [exact IH|].
      destruct l as [|[j' kv''] l]; simpl.
      * constructor. simpl. lia.
      * destruct (i <=? j')%N; constructor; simpl.
        -- lia.
        -- now inversion Hd.
Qed.

Lemma by_index_sorted {V} (l : list (N * (string * V))) :
  Sorted (fun p q => (p.1 <= q.1)%N) (by_index l).
Proof.
  induction l as [|[i kv] l IH]; [constructor|].
  change (by_index ((i, kv) :: l)) with (insert_by_index i kv (by_index l)).
  now apply insert_by_index_sorted.
Qed.

Lemma by_index_of_sorted {V} (l : list (N * (string * V))) :
  Sorted (fun p q => (p.1 <= q.1)%N) l -> by_index l = l.
Proof.
  induction 1 as [|[i kv] l Hs IH Hd]; [reflexivity|].
  change (by_index ((i, kv) :: l)) with (insert_by_index i kv (by_index l)).
  rewrite IH.
  destruct Hd as [|[j kv'] l Hij]; simpl; [reflexivity|].
  simpl in Hij. apply N.leb_le in Hij. now rewrite Hij.
Qed.

Lemma by_index_indexed {V} (l : list (N * (string * V))) :
  Forall (fun p => array_index p.2.1 = Some p.1) l ->
  Forall (fun p => array_index p.2.1 = Some p.1) (by_index l).
Proof.
  intros H. eapply Permutation_Forall; [|exact H].
  symmetry. apply by_index_perm.
Qed.

(** Listing the entries of an object that was written in the order of
    [Object.entries] gives the same list again. *)
Lemma Object_entries_idem {V} (o : Obj V) :
  Object_entries (Object_entries o) = Object_entries o.
Proof.
  unfold Object_entries at 1.
  unfold Object_entries at 1 2.
  rewrite index_entries_app, named_entries_app.
  destruct (index_entries_indices (by_index (index_entries o))) as [-> ->].
  { apply by_index_indexed, index_entries_indexed. }
  rewrite index_entries_named, named_entries_named, app_nil_r. simpl.
  rewrite by_index_of_sorted by apply by_index_sorted. reflexivity.
Qed.

(** Rewriting the values leaves the order of the keys alone. *)
Lemma index_entries_map {V W} (g : string * V -> W) (o : Obj V) :
  index_entries (map (fun kv => (kv.1, g kv)) o)
  = map (fun p => (p.1, (p.2.1, g p.2))) (index_entries o).
Proof.
  induction o as [|kv o IH]; simpl; [reflexivity|].
  destruct (array_index kv.1); simpl; now rewrite IH.
Qed.

Lemma named_entries_map {V W} (g : string * V -> W) (o : Obj V) :
  named_entries (map (fun kv => (kv.1, g kv)) o)
  = map (fun kv => (kv.1, g kv)) (named_entries o).
Proof.
  induction o as [|kv o IH]; simpl; [reflexivity|].
  destruct (array_index kv.1); simpl; now rewrite IH.
Qed.

Lemma insert_by_index_map {V W} (g : string * V -> W) i kv l :
  insert_by_index i (kv.1, g kv) (map (fun p => (p.1, (p.2.1, g p.2))) l)
  = map (fun p => (p.1, (p.2.1, g p.2))) (insert_by_index i kv l).
Proof.
  induction l as [|[j kv'] l IH]; simpl; [reflexivity|].
  destruct (i <=? j)%N; simpl; [reflexivity|]. now rewrite IH.
Qed.

Lemma by_index_map {V W} (g : string * V -> W) l :
  by_index (map (fun p => (p.1, (p.2.1, g p.2))) l)
  = map (fun p => (p.1, (p.2.1, g p.2))) (by_index l).
Proof.
  induction l as [|[i kv] l IH]; [reflexivity|].
  change (by_index ((i, kv) :: l)) with (insert_by_index i kv (by_index l)).
  rewrite <- insert_by_index_map, <- IH. reflexivity.
Qed.

Lemma Object_entries_map {V W} (g : string * V -> W) (o : Obj V) :
  Object_entries (map (fun kv => (kv.1, g kv)) o)
  = map (fun kv => (kv.1, g kv)) (Object_entries o).
Proof.
  unfold Object_entries.
  rewrite index_entries_map, named_entries_map, by_index_map, map_app.
  f_equal. rewrite !map_map. reflexivity.
Qed.

(** An object none of whose keys is an array index lists its entries in
    the order in which they were written. *)
Lemma Object_entries_named {V} (o : Obj V) :
  (forall k, In k (map fst o) -> array_index k = None) ->
  Object_entries o = o.
Proof.
  intros Hk. unfold Object_entries.
  assert (H : index_entries o = [] /\ named_entries o = o).
  { induction o as [|kv o IH]; simpl; [now split|].
    rewrite (Hk kv.1) by (now left).
    destruct IH as [-> ->]; [|now split].
    intros k Hin. apply Hk. now right. }
  destruct H as [-> ->]. reflexivity.
Qed.

(** Column names that [CREATE TABLE] accepts are distinct. *)
Lemma same_name_refl a : same_name a a = true.
Proof. unfold same_name. now apply bool_decide_eq_true. Qed.

Lemma duplicate_column_distinct seen cols :
  duplicate_column seen cols = None ->
  List.NoDup cols /\ forall c, In c cols -> ~ In c seen.
Proof.
  revert seen. induction cols as [|c cols IH]; intros seen H; simpl in *.
  - split; [constructor|tauto].
  - destruct (existsb (same_name c) seen) eqn:Hex; [discriminate|].
    destruct (IH _ H) as [Hnd Hfresh]. split.
    + constructor; [|exact Hnd].
      intros Hin. apply (Hfresh c Hin). apply in_or_app. right. now left.
    + intros c' [<-|Hin] Hseen.
      * assert (existsb (same_name c) seen = true) as Htrue; [|congruence].
        apply existsb_exists. exists c. split; [exact Hseen|].
        apply same_name_refl.
      * apply (Hfresh c' Hin). apply in_or_app. now left.
Qed.

Lemma columns_accepted_distinct (first : Row) :
  columns_accepted first -> List.NoDup (map fst first).
Proof.
  intros H. apply duplicate_column_distinct in H as [Hnd _].
  apply List.NoDup_cons_iff in Hnd as [_ Hnd].
  eapply Permutation_NoDup; [apply Object_keys_perm|exact Hnd].
Qed.

(* ===================================================================== *)
(** * Further properties of the type inferencer                           *)
(* ===================================================================== *)

Lemma digit_val_nonneg c : Js.is_digit c = true -> (0 <= Js.digit_val c)%Z.
Proof.
  unfold Js.is_digit, Js.digit_val. intros H.
  apply andb_true_iff in H as [H _]. apply Nat.leb_le in H. lia.
Qed.

Lemma fold_digits_nonneg (l : list ascii) (acc : Z) :
  (0 <= acc)%Z -> forallb Js.is_digit l = true ->
  (0 <= fold_left (fun a c => 10 * a + Js.digit_val c) l acc)%Z.
Proof.
  revert acc. induction l as [|c l IH]; intros acc Hacc Hl; simpl;
    [exact Hacc|].
  simpl in Hl. apply andb_true_iff in Hl as [Hc Hl].
  apply IH; [|exact Hl]. pose proof (digit_val_nonneg c Hc). lia.
Qed.

Lemma all_digits_forallb l : Js.all_digits l = true -> forallb Js.is_digit l = true.
Proof. destruct l; [discriminate|]. trivial. Qed.

(** [parseInt] of a string of digits is never negative: the comparison
    with [-2147483648] in [inferType] cannot fail. *)
Lemma parseInt_nonneg s : Js.re_digits s = true -> (0 <= Js.parseInt s)%Z.
Proof.
  intros H. apply fold_digits_nonneg; [lia|]. now apply all_digits_forallb.
Qed.

(** What [span_digits] returns: the two parts make up the input, the
    first is made of digits, the second does not start with one. *)
Lemma span_digits_spec l :
  let '(ds, rest) := Js.span_digits l in
  l = ds ++ rest /\ forallb Js.is_digit ds = true /\
  match rest with
  | c :: _ => Js.is_digit c = false
  | [] => True
  end.
Proof.
  induction l as [|c l IH]; simpl; [easy|].
  destruct (Js.is_digit c) eqn:Hc.
  - destruct (Js.span_digits l) as [ds rest]. destruct IH as (-> & Hds & Hr).
    simpl. now rewrite Hc, Hds.
  - simpl. easy.
Qed.

Lemma dot_is_no_digit : Js.is_digit "."%char = false.
Proof. reflexivity. Qed.

(** The two regular expressions exclude each other. *)
Lemma digits_not_dotted s :
  Js.re_digits s = true -> Js.re_digits_dot_digits s = false.
Proof.
  unfold Js.re_digits, Js.re_digits_dot_digits. intros H.
  apply all_digits_forallb in H.
  pose proof (span_digits_spec (Js.chars s)) as Hs.
  destruct (Js.span_digits (Js.chars s)) as [ds rest].
  destruct Hs as (Hl & _ & Hr). destruct ds as [|d ds]; [reflexivity|].
  destruct rest as [|c frac]; [reflexivity|].
  rewrite Hl, forallb_app in H. apply andb_true_iff in H as [_ H].
  simpl in H. apply andb_true_iff in H as [H _]. congruence.
Qed.

(** A string matched by one of the two regular expressions is made of
    digits and dots. *)
Lemma numeric_chars s :
  Js.re_digits s = true \/ Js.re_digits_dot_digits s = true ->
  forall c, In c (Js.chars s) -> Js.is_digit c = true \/ c = "."%char.
Proof.
  intros [H|H] c Hc.
  - left. apply all_digits_forallb in H.
    rewrite forallb_forall in H. now apply H.
  - unfold Js.re_digits_dot_digits in H.
    pose proof (span_digits_spec (Js.chars s)) as Hs.
    destruct (Js.span_digits (Js.chars s)) as [ds rest].
    destruct Hs as (Hl & Hds & _). destruct ds as [|d ds]; [discriminate|].
    destruct rest as [|c0 frac]; [discriminate|].
    apply andb_true_iff in H as [Hdot Hfrac].
    apply Ascii.eqb_eq in Hdot. subst c0.
    apply all_digits_forallb in Hfrac.
    rewrite Hl in Hc. apply in_app_or in Hc as [Hc|Hc].
    + left. rewrite forallb_forall in Hds. now apply Hds.
    + destruct Hc as [<-|Hc]; [now right|].
      left. rewrite forallb_forall in Hfrac. now apply Hfrac.
Qed.

Section InferTypeCases.

Variable host : string -> Js.JsNum.
Variable s : string.

(** X1: the result of [inferType] read off the value.  It is int32
    exactly for the strings of digits worth at most 2147483647 and int64
    exactly for the other strings of digits (the lower bound of the range
    test never matters); float64 exactly for digits-dot-digits; and for
    every other string timestamp or string according to the truthiness
    of [Date.parse]. *)
Theorem inferType_cases :
  (inferType host s = T_int <->
   Js.re_digits s = true /\ (Js.parseInt s <= 2147483647)%Z) /\
  (inferType host s = T_bigint <->
   Js.re_digits s = true /\ (2147483647 < Js.parseInt s)%Z) /\
  (inferType host s = T_float <-> Js.re_digits_dot_digits s = true) /\
  (inferType host s = T_date <->
   Js.re_digits s = false /\ Js.re_digits_dot_digits s = false /\
   Js.truthy (Js.Date_parse host s) = true) /\
  (inferType host s = T_string <->
   Js.re_digits s = false /\ Js.re_digits_dot_digits s = false /\
   Js.truthy (Js.Date_parse host s) = false).
Proof.
  unfold inferType.
  destruct (Js.re_digits s) eqn:Hd.
  - pose proof (parseInt_nonneg s Hd) as Hpos.
    pose proof (digits_not_dotted s Hd) as Hnf. rewrite Hnf.
    destruct (Z.leb_spec (-2147483648) (Js.parseInt s)); [|lia].
    destruct (Z.leb_spec (Js.parseInt s) 2147483647); simpl;
      repeat split; intros; intuition (try discriminate; try lia).
  - destruct (Js.re_digits_dot_digits s) eqn:Hf.
    + repeat split; intros; intuition discriminate.
    + destruct (Js.truthy (Js.Date_parse host s));
        repeat split; intros; intuition discriminate.
Qed.

(** X2: a string that holds a character other than a digit and a dot (a
    sign, an exponent, a separator, a blank) is never given a numeric
    type. *)
Theorem inferType_not_numeric (c : ascii) :
  In c (Js.chars s) -> Js.is_digit c = false -> c <> "."%char ->
  inferType host s = T_date \/ inferType host s = T_string.
Proof.
  intros Hin Hnd Hndot.
  assert (Hd : Js.re_digits s = false).
  { destruct (Js.re_digits s) eqn:Hd; [|reflexivity].
    destruct (numeric_chars s (or_introl Hd) c Hin); congruence. }
  assert (Hf : Js.re_digits_dot_digits s = false).
  { destruct (Js.re_digits_dot_digits s) eqn:Hf; [|reflexivity].
    destruct (numeric_chars s (or_intror Hf) c Hin); congruence. }
  unfold inferType. rewrite Hd, Hf.
  destruct (Js.truthy _); [now left|now right].
Qed.

End InferTypeCases.

(** Witness for X2: a negative number is not an integer for [inferType]. *)
Lemma inferType_not_numeric_witness :
  inferType strict_host "-42" = T_date \/ inferType strict_host "-42" = T_string.
Proof.
  apply (inferType_not_numeric strict_host "-42" "-"%char).
  - simpl. now left.
  - reflexivity.
  - discriminate.
Defined.

(** X3: a calendar date written [YYYY-MM] or [YYYY-MM-DD], other than
    the epoch, is a timestamp whatever the engine's own date formats
    are; this includes the dates before 1970, whose time value is
    negative. *)
Theorem inferType_iso_date (host : string -> Js.JsNum) (s : string) (ms : Z) :
  Js.iso_date_only s = Some ms ->
  ms <> 0%Z ->
  length (Js.chars s) <> 4 ->
  inferType host s = T_date.
Proof.
  intros Hiso Hms Hlen.
  unfold inferType, Js.Date_parse. rewrite Hiso.
  unfold Js.re_digits, Js.re_digits_dot_digits.
  unfold Js.iso_date_only in Hiso.
  assert (Htruthy : Js.truthy (Js.Num ms) = true).
  { simpl. now apply negb_true_iff, Z.eqb_neq. }
  rewrite Htruthy. clear Htruthy.
  destruct (Js.chars s) as [|y1 [|y2 [|y3 [|y4 [|s1 [|m1 [|m2 l]]]]]]];
    try discriminate; [contradiction|].
  assert (Hhead : (forall c, In c [y1; y2; y3; y4] -> Js.is_digit c = true)
                  /\ s1 = "-"%char).
  { destruct l as [|s2 [|d1 [|d2 [|x l]]]]; try discriminate.
    - destruct (_ && _) eqn:Hc in Hiso; [|discriminate].
      apply andb_true_iff in Hc as [Hc Hdash].
      apply Ascii.eqb_eq in Hdash. apply all_digits_forallb in Hc.
      rewrite forallb_forall in Hc.
      split; [|exact Hdash]. intros c Hin. apply Hc. simpl in *. tauto.
    - destruct (_ && _) eqn:Hc in Hiso; [|discriminate].
      apply andb_true_iff in Hc as [Hc _].
      apply andb_true_iff in Hc as [Hc Hdash].
      apply Ascii.eqb_eq in Hdash. apply all_digits_forallb in Hc.
      rewrite forallb_forall in Hc.
      split; [|exact Hdash]. intros c Hin. apply Hc. simpl in *. tauto. }
  destruct Hhead as [Hy ->].
  cbn [Js.all_digits forallb Js.span_digits].
  rewrite (Hy y1), (Hy y2), (Hy y3), (Hy y4) by (simpl; tauto).
  reflexivity.
Qed.

(** Witness for X3: a day of 1969. *)
Lemma inferType_iso_date_witness :
  inferType strict_host "1969-07-20" = T_date.
Proof.
  apply (inferType_iso_date strict_host "1969-07-20" (-14256000000)%Z).
  - reflexivity.
  - discriminate.
  - simpl. discriminate.
Defined.

(* ===================================================================== *)
(** * Further properties of [inferColumnTypes]                            *)
(* ===================================================================== *)

(** Only the first sampled row decides what [infer_header] writes. *)
Lemma infer_header_first host first others acc header :
  infer_header host (first :: others) acc header
  = infer_header host [first] acc header.
Proof.
  unfold infer_header. rewrite !Set_from_first_distinct. unfold Set_first.
  now rewrite !head_first_distinct.
Qed.

Lemma fold_infer_header_first host first others keys acc :
  fold_left (infer_header host (first :: others)) keys acc
  = fold_left (infer_header host [first]) keys acc.
Proof.
  revert acc. induction keys as [|k keys IH]; intros acc; simpl; [reflexivity|].
  now rewrite IH, infer_header_first.
Qed.

(** X4: a sample of one row is as good as any: for every file, readable
    or not, and every sample size [N >= 1], [inferColumnTypes] gives what
    it gives with a sample size of 1. *)
Theorem inferColumnTypes_sample_size (host : string -> Js.JsNum) (fs : Files)
  (filePath : string) (N : nat) :
  1 <= N ->
  inferColumnTypes host fs filePath N = inferColumnTypes host fs filePath 1.
Proof.
  intros HN. unfold inferColumnTypes.
  destruct (fs !! filePath) as [stream|]; [|reflexivity].
  rewrite !sample_is_prefix.
  destruct (stream_error stream); [reflexivity|].
  destruct (stream_rows stream) as [|r rs]; [now rewrite !take_nil|].
  destruct N as [|N]; [lia|]. simpl. rewrite take_0.
  now rewrite fold_infer_header_first.
Qed.

(** Witness for X4: the default sample size on [mixed_rows]. *)
Lemma inferColumnTypes_sample_size_witness :
  inferColumnTypes strict_host {[ customers_csv := csv_of mixed_rows ]}
                   customers_csv default_sampleSize
  = inferColumnTypes strict_host {[ customers_csv := csv_of mixed_rows ]}
                     customers_csv 1.
Proof.
  apply (inferColumnTypes_sample_size strict_host
           {[ customers_csv := csv_of mixed_rows ]} customers_csv
           default_sampleSize).
  unfold default_sampleSize. lia.
Defined.

(** X5: with a sample size of 0 no row is kept, and the ['end'] listener
    throws for every file that is read to its end, however many rows it
    holds. *)
Theorem inferColumnTypes_sample_size_0 (host : string -> Js.JsNum) (fs : Files)
  (filePath : string) (stream : CsvStream) :
  fs !! filePath = Some stream ->
  stream_error stream = None ->
  inferColumnTypes host fs filePath 0
  = Js.Uncaught (Js.TypeError "Cannot convert undefined or null to object").
Proof.
  intros Hf Hend. unfold inferColumnTypes.
  now rewrite Hf, Hend, sample_is_prefix, take_0.
Qed.

Lemma inferColumnTypes_sample_size_0_witness :
  inferColumnTypes strict_host {[ customers_csv := csv_of mixed_rows ]}
                   customers_csv 0
  = Js.Uncaught (Js.TypeError "Cannot convert undefined or null to object").
Proof.
  apply (inferColumnTypes_sample_size_0 strict_host
           {[ customers_csv := csv_of mixed_rows ]} customers_csv
           (csv_of mixed_rows)); reflexivity.
Defined.

(** Writing a key the object does not hold appends it. *)
Lemma obj_set_fresh {V} (o : Obj V) (k : string) (v : V) :
  ~ In k (map fst o) -> obj_set k v o = o ++ [(k, v)].
Proof.
  induction o as [|[k0 v0] o IH]; simpl; intros Hk; [reflexivity|].
  destruct (String.eqb_spec k0 k) as [->|Hne]; [tauto|].
  rewrite IH; [reflexivity|tauto].
Qed.

Lemma fold_obj_set_fresh {V} (g : string -> V) (keys : list string)
  (acc : Obj V) :
  List.NoDup keys ->
  (forall k, In k keys -> ~ In k (map fst acc)) ->
  fold_left (fun o h => obj_set h (g h) o) keys acc
  = acc ++ map (fun h => (h, g h)) keys.
Proof.
  revert acc. induction keys as [|k keys IH]; intros acc Hnd Hfresh; simpl.
  - now rewrite app_nil_r.
  - apply List.NoDup_cons_iff in Hnd as [Hk Hnd].
    rewrite obj_set_fresh by (apply Hfresh; now left).
    rewrite IH; [now rewrite <- app_assoc|exact Hnd|].
    intros k' Hk' Hin.
    rewrite map_app in Hin. apply in_app_or in Hin as [Hin|[<-|[]]].
    + apply (Hfresh k'); [now right|exact Hin].
    + contradiction.
Qed.

(** Reading a key of an object with distinct keys gives the value
    written with it. *)
Lemma obj_get_entry {V} (o : Obj V) (k : string) (v : V) :
  List.NoDup (map fst o) -> In (k, v) o -> obj_get o k = Some v.
Proof.
  induction o as [|[k0 v0] o IH]; simpl; intros Hnd Hin; [contradiction|].
  apply List.NoDup_cons_iff in Hnd as [Hk Hnd].
  destruct Hin as [[= -> ->]|Hin].
  - now rewrite String.eqb_refl.
  - destruct (String.eqb_spec k0 k) as [->|Hne]; [|now apply IH].
    exfalso. apply Hk. apply in_map_iff. now exists (k, v).
Qed.

(** The schema inferred from a sample whose first row has distinct
    column names: the entries of that row, in the order of
    [Object.keys], each cell replaced by its classification. *)
Lemma infer_on_end_schema (host : string -> Js.JsNum) (first : Row)
  (others : list Row) :
  List.NoDup (Object_keys first) ->
  fold_left (infer_header host (first :: others)) (Object_keys first) []
  = map (fun kv => (kv.1, Some (inferType host kv.2))) (Object_entries first).
Proof.
  intros Hnd. rewrite fold_infer_header_first.
  set (G := fun c : option string => Some (inferType host (to_js_string c))).
  assert (Hfold : forall keys acc,
             fold_left (infer_header host [first]) keys acc
             = fold_left (fun o h => obj_set h (G (obj_get first h)) o)
                         keys acc).
  { induction keys as [|h keys IH]; intros acc; cbn [fold_left];
      [reflexivity|].
    rewrite IH. f_equal. }
  rewrite Hfold, (fold_obj_set_fresh _ _ [] Hnd) by (intros k _ []).
  simpl. unfold Object_keys. rewrite map_map.
  apply map_ext_in. intros [k v] Hin. simpl. unfold G.
  rewrite (obj_get_entry first k v); [reflexivity| |].
  - eapply Permutation_NoDup; [apply Object_keys_perm|exact Hnd].
  - eapply Permutation_in; [apply Object_entries_perm|exact Hin].
Qed.

(** The keys of the inferred schema are the keys of the first row, in
    the same order. *)
Lemma infer_on_end_keys (host : string -> Js.JsNum) (first : Row)
  (others : list Row) :
  List.NoDup (Object_keys first) ->
  Object_keys
    (fold_left (infer_header host (first :: others)) (Object_keys first) [])
  = Object_keys first.
Proof.
  intros Hnd. rewrite infer_on_end_schema by exact Hnd.
  unfold Object_keys.
  rewrite (Object_entries_map (fun kv => Some (inferType host kv.2))).
  rewrite Object_entries_idem, map_map. reflexivity.
Qed.

(** X6: for a file read to its end whose first row has distinct column
    names, the schema has one entry per column and nothing else, each
    cell of the first row replaced by its classification, in the order
    in which JavaScript lists the keys of that row: the names that are
    array indices first, in ascending numeric order, then the other
    names in header order.  When no column name is an array index this
    is the order of the header. *)
Theorem inferColumnTypes_schema (host : string -> Js.JsNum) (fs : Files)
  (filePath : string) (N : nat) (stream : CsvStream)
  (first : Row) (others : list Row) :
  fs !! filePath = Some stream ->
  stream_error stream = None ->
  take N (stream_rows stream) = first :: others ->
  List.NoDup (Object_keys first) ->
  inferColumnTypes host fs filePath N
  = Js.Resolved
      (map (fun '(k, v) => (k, Some (inferType host v)))
           (Object_entries first)) /\
  ((forall k, In k (map fst first) -> array_index k = None) ->
   inferColumnTypes host fs filePath N
   = Js.Resolved (map (fun '(k, v) => (k, Some (inferType host v))) first)).
Proof.
  intros Hf Hend Hsample Hnd.
  assert (H : inferColumnTypes host fs filePath N
              = Js.Resolved
                  (map (fun '(k, v) => (k, Some (inferType host v)))
                       (Object_entries first))).
  { unfold inferColumnTypes.
    rewrite Hf, Hend, sample_is_prefix, Hsample. simpl. f_equal.
    rewrite infer_on_end_schema by exact Hnd.
    apply map_ext. now intros [k v]. }
  split; [exact H|].
  intros Hnamed. now rewrite H, Object_entries_named.
Qed.

(** A file whose header is [b,1,a]: the column [1] comes first. *)
Lemma inferColumnTypes_schema_witness :
  inferColumnTypes strict_host
    {[ customers_csv := csv_of [ [("b", "x"); ("1", "2"); ("a", "3")] ] ]}
    customers_csv 10
  = Js.Resolved
      (map (fun '(k, v) => (k, Some (inferType strict_host v)))
           (Object_entries [("b", "x"); ("1", "2"); ("a", "3")])) /\
  ((forall k, In k (map fst [("b", "x"); ("1", "2"); ("a", "3")]) ->
              array_index k = None) ->
   inferColumnTypes strict_host
     {[ customers_csv := csv_of [ [("b", "x"); ("1", "2"); ("a", "3")] ] ]}
     customers_csv 10
   = Js.Resolved
       (map (fun '(k, v) => (k, Some (inferType strict_host v)))
            [("b", "x"); ("1", "2"); ("a", "3")])).
Proof.
  apply (inferColumnTypes_schema strict_host
           {[ customers_csv := csv_of [ [("b", "x"); ("1", "2"); ("a", "3")] ] ]}
           customers_csv 10
           (csv_of [ [("b", "x"); ("1", "2"); ("a", "3")] ])
           [("b", "x"); ("1", "2"); ("a", "3")] []);
    try reflexivity.
  vm_compute. repeat constructor; simpl; intuition discriminate.
Defined.

(** The same file, evaluated. *)
Example inferColumnTypes_index_first :
  inferColumnTypes strict_host
    {[ customers_csv := csv_of [ [("b", "x"); ("1", "2"); ("a", "3")] ] ]}
    customers_csv 10
  = Js.Resolved [("1", Some T_int); ("b", Some T_string); ("a", Some T_int)].
Proof. reflexivity. Qed.
(* ===================================================================== *)
(** * Properties of the batch loader                                      *)
(* ===================================================================== *)

(** ** What the ['data'] listener does to the buffer and to the batches *)

Lemma cuts_snoc B (rs : list Row) r : cuts B (rs ++ [r]) = cut B (cuts B rs) r.
Proof. unfold cuts. now rewrite fold_left_app. Qed.

(** No row is lost or repeated: the batches cut so far followed by the
    buffer are the rows received so far, in order. *)
Lemma fold_cut_conserves B (rs : list Row) st :
  let st' := fold_left (cut B) rs st in
  concat st'.2 ++ st'.1 = concat st.2 ++ st.1 ++ rs.
Proof.
  revert st. induction rs as [|r rs IH]; intros st; simpl.
  - now rewrite app_nil_r.
  - simpl in IH. rewrite IH. unfold cut.
    destruct (B <=? length (st.1 ++ [r]))%nat; simpl.
    + rewrite concat_app; simpl. rewrite app_nil_r, <- !app_assoc.
      f_equal. rewrite (app_assoc (take B _)), take_drop.
      now rewrite <- app_assoc.
    + now rewrite <- app_assoc.
Qed.

Lemma cuts_conserves B (rs : list Row) :
  concat (cuts B rs).2 ++ (cuts B rs).1 = rs.
Proof. exact (fold_cut_conserves B rs ([], [])). Qed.

(** Sizes: from a buffer shorter than the batch size, every batch cut by
    the ['data'] listener is full, and the buffer stays shorter. *)
Lemma fold_cut_sizes B (rs : list Row) st :
  0 < B -> length st.1 < B ->
  let st' := fold_left (cut B) rs st in
  map length st'.2
  = map length st.2 ++ repeat B ((length st.1 + length rs) / B) /\
  length st'.1 = (length st.1 + length rs) mod B.
Proof.
  intros HB. revert st. induction rs as [|r rs IH]; intros st Hlt; simpl.
  - rewrite Nat.add_0_r, Nat.div_small, Nat.mod_small by lia.
    simpl. now rewrite app_nil_r.
  - simpl in IH.
    assert (Hlen : length (st.1 ++ [r]) = S (length st.1))
      by (rewrite length_app; simpl; lia).
    unfold cut at 2 4.
    destruct (Nat.leb_spec B (length (st.1 ++ [r]))) as [Hfull|Hroom].
    + assert (HeqB : S (length st.1) = B) by lia.
      destruct (IH (drop B (st.1 ++ [r]), st.2 ++ [take B (st.1 ++ [r])]))
        as [IHs IHr].
      { simpl. rewrite length_drop. lia. }
      simpl in IHs, IHr. rewrite length_drop in IHs, IHr.
      replace (length (st.1 ++ [r]) - B) with 0 in * by lia.
      replace (length st.1 + S (length rs)) with (length rs + 1 * B) by lia.
      rewrite Nat.div_add, Nat.Div0.mod_add, Nat.add_1_r by lia.
      simpl in IHs, IHr. split; [|exact IHr].
      rewrite IHs, map_app; simpl. rewrite length_take, <- app_assoc.
      simpl. do 2 f_equal. lia.
    + destruct (IH (st.1 ++ [r], st.2)) as [IHs IHr].
      { simpl. lia. }
      simpl in IHs, IHr. rewrite Hlen in *.
      replace (length st.1 + S (length rs))
        with (S (length st.1) + length rs) by lia.
      now split.
Qed.

Lemma cuts_sizes B (rs : list Row) :
  0 < B ->
  map length (cuts B rs).2 = repeat B (length rs / B) /\
  length (cuts B rs).1 = length rs mod B.
Proof.
  intros HB.
  destruct (fold_cut_sizes B rs ([], []) HB) as [Hs Hr]; [simpl; lia|].
  now split.
Qed.

Lemma cuts_short B (rs : list Row) : 0 < B -> length (cuts B rs).1 < B.
Proof.
  intros HB. destruct (cuts_sizes B rs HB) as [_ ->].
  apply Nat.mod_upper_bound. lia.
Qed.

(** The buffer is empty at ['end'] exactly when the batch size divides
    the number of rows. *)
Lemma cuts_whole B (rs : list Row) :
  0 < B -> ((cuts B rs).1 = [] <-> length rs mod B = 0).
Proof.
  intros HB. destruct (cuts_sizes B rs HB) as [_ Hr]. rewrite <- Hr.
  now destruct ((cuts B rs).1).
Qed.

Lemma batches_unfold B (rs : list Row) :
  batches B rs
  = match (cuts B rs).1 with
    | [] => (cuts B rs).2
    | _ => (cuts B rs).2 ++ [(cuts B rs).1]
    end.
Proof. reflexivity. Qed.

(** The batches of a file are its rows, in order. *)
Lemma batches_concat B (rs : list Row) : concat (batches B rs) = rs.
Proof.
  rewrite batches_unfold. pose proof (cuts_conserves B rs) as H.
  destruct ((cuts B rs).1) as [|r q] eqn:Hq.
  - now rewrite app_nil_r in H.
  - rewrite concat_app. simpl. now rewrite app_nil_r.
Qed.

Lemma batches_sizes B (rs : list Row) :
  0 < B -> map length (batches B rs) = batch_sizes B (length rs).
Proof.
  intros HB. rewrite batches_unfold. unfold batch_sizes.
  destruct (cuts_sizes B rs HB) as [Hs Hr].
  destruct ((cuts B rs).1) as [|r q] eqn:Hq.
  - rewrite Hs. simpl in Hr. rewrite <- Hr. simpl. now rewrite app_nil_r.
  - rewrite map_app, Hs, <- Hr. reflexivity.
Qed.

(** [⌈n/B⌉] batches. *)
Lemma batch_sizes_length (B n : nat) :
  0 < B -> length (batch_sizes B n) = (n + B - 1) / B.
Proof.
  intros HB. unfold batch_sizes. rewrite length_app, repeat_length.
  pose proof (Nat.div_mod_eq n B) as Hn.
  pose proof (Nat.mod_upper_bound n B ltac:(lia)) as Hm.
  remember (n / B) as q eqn:Hq. remember (n mod B) as r eqn:Hr.
  destruct (Nat.eqb_spec r 0) as [H0|H0]; simpl.
  - rewrite Nat.add_0_r.
    apply (Nat.div_unique _ _ _ (B - 1)); [lia|]. subst r. lia.
  - apply (Nat.div_unique _ _ _ (r - 1)); [lia|]. lia.
Qed.

Lemma batch_sizes_sum (B n : nat) :
  0 < B -> list_sum (batch_sizes B n) = n.
Proof.
  intros HB. unfold batch_sizes. rewrite list_sum_app.
  pose proof (Nat.div_mod_eq n B) as Hn.
  assert (Hrep : forall k, list_sum (repeat B k) = B * k).
  { induction k; simpl; lia. }
  rewrite Hrep. remember (n / B) as q eqn:Hq. remember (n mod B) as r eqn:Hr.
  destruct (Nat.eqb_spec r 0); simpl; lia.
Qed.

Lemma batches_length B (rs : list Row) :
  0 < B -> length (batches B rs) = (length rs + B - 1) / B.
Proof.
  intros HB. rewrite <- (length_map length), batches_sizes by exact HB.
  now apply batch_sizes_length.
Qed.

(** ** The event loop *)

Module EventLoopFacts.
Import EventLoop EventLoopSpec.

(** The cases of one turn of the event loop. *)
Ltac data_case H :=
  match type of H with
  | step ?p ?B EvData ?s = Some _ =>
      simpl in H;
      destruct (source s) as [|row rest] eqn:Hsrc in H; [discriminate|];
      destruct (flowing s) eqn:Hflow in H; [|discriminate];
      destruct (ended s) eqn:Hended in H; [discriminate|];
      simpl in H; injection H as <-
  end.

Ltac end_case H :=
  match type of H with
  | step ?p ?B EvEnd ?s = Some _ =>
      simpl in H;
      destruct (source s) as [|row rest] eqn:Hsrc in H; [|discriminate];
      destruct (broken s) as [err|] eqn:Hbroken in H; [discriminate|];
      destruct (ended s) eqn:Hended in H; [discriminate|];
      injection H as <-
  end.

Ltac error_case H :=
  match type of H with
  | step ?p ?B EvError ?s = Some _ =>
      simpl in H;
      destruct (source s) as [|row rest] eqn:Hsrc in H; [|discriminate];
      destruct (broken s) as [err|] eqn:Hbroken in H; [|discriminate];
      destruct (ended s) eqn:Hended in H; [discriminate|];
      injection H as <-
  end.

Ltac settle_case H :=
  match type of H with
  | step ?p ?B EvSettle ?s = Some _ =>
      simpl in H;
      destruct (in_flight s) as [|[batch who] others] eqn:Hfl in H;
      [discriminate|]; injection H as <-
  end.

Ltac step_cases H :=
  match type of H with
  | step ?p ?B ?ev ?s = Some _ =>
      destruct ev; [data_case H | end_case H | error_case H | settle_case H]
  end.

Ltac fifo_eq :=
  repeat (progress (simpl; rewrite ?map_app, <- ?app_assoc, ?app_nil_r));
  reflexivity.

Lemma init_open src : init src = open (csv_of src).
Proof. reflexivity. Qed.

Lemma step_broken pauses B ev s s' :
  step pauses B ev s = Some s' -> broken s' = broken s.
Proof.
  intros Hstep. step_cases Hstep.
  - unfold data_listener. now destruct (B <=? _)%nat.
  - unfold end_listener. now destruct (rows s).
  - reflexivity.
  - reflexivity.
Qed.

Lemma run_broken pauses B evs s s' :
  run pauses B evs s = Some s' -> broken s' = broken s.
Proof.
  revert s. induction evs as [|ev evs IH]; intros s Hrun.
  - simpl in Hrun. now injection Hrun as <-.
  - simpl in Hrun. destruct (step pauses B ev s) as [s1|] eqn:Hstep;
      [|discriminate].
    rewrite (IH _ Hrun). eapply step_broken; eauto.
Qed.

Lemma step_buffer_inv pauses B ev s s' :
  0 < B ->
  step pauses B ev s = Some s' ->
  buffer_inv B s -> buffer_inv B s'.
Proof.
  intros HB Hstep [Hpeak Hrows]. unfold buffer_inv.
  step_cases Hstep.
  - unfold data_listener.
    assert (Hlen : length (rows s ++ [row]) = S (length (rows s)))
      by (rewrite length_app; simpl; lia).
    destruct (Nat.leb_spec B (length (rows s ++ [row]))); simpl;
      rewrite ?length_drop; lia.
  - unfold end_listener. destruct (rows s); simpl in *; lia.
  - simpl. lia.
  - simpl. lia.
Qed.

Lemma step_follows_cut pauses B src ev s s' :
  step pauses B ev s = Some s' ->
  follows_cut B src s -> follows_cut B src s'.
Proof.
  intros Hstep (delivered & Hsplit & Hrows & Hcut).
  step_cases Hstep.
  - rewrite Hended in Hcut. exists (delivered ++ [row]).
    rewrite cuts_snoc. unfold cut. rewrite <- Hrows, <- Hcut.
    unfold data_listener.
    destruct (B <=? length (rows s ++ [row]))%nat; simpl;
      rewrite Hended, Hsplit, Hsrc, <- app_assoc; now repeat split.
  - rewrite Hended in Hcut. rewrite Hsrc, app_nil_r in Hsplit.
    subst delivered.
    exists src. unfold end_listener. rewrite batches_unfold, <- Hrows, <- Hcut.
    destruct (rows s) eqn:Hr; simpl; rewrite Hsrc, Hbroken, ?Hr;
      rewrite ?app_nil_r; now repeat split.
  - rewrite Hended in Hcut. rewrite Hsrc, app_nil_r in Hsplit.
    subst delivered.
    exists src. simpl. rewrite Hsrc, Hbroken, app_nil_r, <- Hcut.
    now repeat split.
  - exists delivered. simpl. now repeat split.
Qed.

Lemma awaited_head_end batch others :
  ~ awaited_by_data ((batch, EndListener) :: others).
Proof. intros H. apply Forall_inv in H. discriminate H. Qed.

(** An insert awaited by the ['end'] listener is the last one in
    flight. *)
Lemma end_listener_last (q : list (list Row * Waiter)) r b who others :
  (b, who) :: others = q ++ [(r, EndListener)] ->
  awaited_by_data q ->
  (who = EndListener /\ q = [] /\ others = [] /\ b = r) \/
  (who = DataListener /\
   exists q', q = (b, DataListener) :: q' /\
              others = q' ++ [(r, EndListener)] /\ awaited_by_data q').
Proof.
  intros Heq Hq. destruct q as [|[b' w'] q'].
  - simpl in Heq. injection Heq as -> -> ->. now left.
  - simpl in Heq. injection Heq as -> -> ->. right.
    pose proof (Forall_inv Hq) as Hw. simpl in Hw. subst w'.
    split; [reflexivity|]. exists q'. repeat split.
    exact (Forall_inv_tail Hq).
Qed.

Lemma step_log_inv pauses B ev s s' :
  step pauses B ev s = Some s' -> log_inv s -> log_inv s'.
Proof.
  intros Hstep [Hfifo Hlate Hopen Hpend Hclosed Hawait].
  step_cases Hstep.
  - (* a row *)
    destruct (Hopen Hended) as [Hc Hq]. specialize (Hlate Hc).
    unfold data_listener.
    destruct (B <=? length (rows s ++ [row]))%nat; split; simpl;
      rewrite ?Hended, ?Hc; try easy.
    + rewrite Hfifo, Hlate. fifo_eq.
    + intros _. split; [reflexivity|]. apply Forall_app. split; [exact Hq|].
      now repeat constructor.
  - (* 'end' *)
    destruct (Hopen Hended) as [Hc Hq]. specialize (Hlate Hc).
    unfold end_listener.
    destruct (rows s) as [|r0 q0] eqn:Hr; split; simpl;
      rewrite ?Hbroken, ?Hc, ?Hr; try easy.
    + intros c [= <-]. now repeat split.
    + rewrite Hfifo, Hlate. fifo_eq.
    + intros _ _. split; [reflexivity|]. split; [discriminate|]. eauto.
  - (* 'error' *)
    destruct (Hopen Hended) as [Hc Hq]. specialize (Hlate Hc).
    split; simpl; rewrite ?Hbroken; try easy.
    intros c [= <-]. now repeat split.
  - (* an insert settles *)
    rewrite Hfl in Hfifo, Hopen, Hpend, Hclosed, Hawait.
    destruct (closing s) as [c|] eqn:Hc.
    + destruct (Hclosed c eq_refl) as (He & Hq & Hkind).
      pose proof (Forall_inv Hq) as Hw. simpl in Hw. subst who.
      split; simpl; rewrite ?Hc; try easy.
      * rewrite Hfifo. fifo_eq.
      * intros Hf. congruence.
      * intros c' [= <-]. repeat split; try assumption.
        exact (Forall_inv_tail Hq).
      * intros Hres Hrows. destruct (Hawait Hres Hrows) as [_ Hnil].
        discriminate Hnil.
    + specialize (Hlate eq_refl).
      destruct (ended s) eqn:Hended.
      * destruct (Hpend eq_refl eq_refl) as (Hb & Hrows & q & Hq & Hdata).
        destruct (end_listener_last q (rows s) batch who others Hq Hdata)
          as [(-> & -> & -> & ->)|(-> & q' & -> & -> & Hdata')].
        -- split; simpl; rewrite ?Hc, ?Hended, ?Hb; try easy.
           ++ rewrite Hfifo, Hlate. fifo_eq.
           ++ intros c [= <-]. repeat split. constructor.
        -- split; simpl; rewrite ?Hc, ?Hended, ?Hb; try easy.
           ++ rewrite Hfifo, Hlate. fifo_eq.
           ++ intros _ _. repeat split; try assumption. eauto.
      * destruct (Hopen eq_refl) as [_ Hq].
        pose proof (Forall_inv Hq) as Hw. simpl in Hw. subst who.
        split; simpl; rewrite ?Hc, ?Hended; try easy.
        -- rewrite Hfifo, Hlate. fifo_eq.
        -- intros _. split; [reflexivity|]. exact (Forall_inv_tail Hq).
Qed.

Lemma step_live_inv pauses B ev s s' :
  step pauses B ev s = Some s' ->
  log_inv s -> live_inv pauses s -> live_inv pauses s'.
Proof.
  intros Hstep Hlog [Hbusy Hstop].
  step_cases Hstep.
  - unfold data_listener.
    destruct (B <=? length (rows s ++ [row]))%nat; split; simpl.
    + intros _. right. now destruct (in_flight s).
    + now intros ->.
    + now left.
    + intros _. exact Hflow.
  - unfold end_listener. destruct (rows s); split; simpl; try easy.
  - split; simpl; try easy.
  - split; simpl.
    + intros He. destruct (open_while_streaming s Hlog He) as [_ Hq].
      rewrite Hfl in Hq. pose proof (Forall_inv Hq) as Hw. simpl in Hw.
      subst who. destruct pauses; [now left|]. left. now apply Hstop.
    + intros ->. destruct who; now apply Hstop.
Qed.

Lemma step_loader_inv pauses B src ev s s' :
  step pauses B ev s = Some s' ->
  loader_inv pauses B src s -> loader_inv pauses B src s'.
Proof.
  intros Hstep [Hcut Hlog Hlive]. split.
  - eapply step_follows_cut; eauto.
  - eapply step_log_inv; eauto.
  - eapply step_live_inv; eauto.
Qed.

Lemma run_loader_inv pauses B src evs s s' :
  run pauses B evs s = Some s' ->
  loader_inv pauses B src s -> loader_inv pauses B src s'.
Proof.
  revert s. induction evs as [|ev evs IH]; intros s Hrun Hinv.
  - simpl in Hrun. now injection Hrun as <-.
  - simpl in Hrun. destruct (step pauses B ev s) as [s1|] eqn:Hstep;
      [|discriminate].
    eapply IH; [exact Hrun|]. eapply step_loader_inv; eauto.
Qed.

Lemma open_loader_inv pauses B stream :
  loader_inv pauses B (stream_rows stream) (open stream).
Proof.
  split.
  - exists []. simpl. now repeat split.
  - split; simpl; try easy. intros _. split; [reflexivity|]. constructor.
  - split; simpl; try easy. now left.
Qed.

Lemma run_buffer_inv pauses B evs s s' :
  0 < B ->
  run pauses B evs s = Some s' ->
  buffer_inv B s -> buffer_inv B s'.
Proof.
  intros HB. revert s. induction evs as [|ev evs IH]; intros s Hrun Hinv.
  - simpl in Hrun. now injection Hrun as <-.
  - simpl in Hrun. destruct (step pauses B ev s) as [s1|] eqn:Hstep;
      [|discriminate].
    eapply IH; [exact Hrun|]. eapply step_buffer_inv; eauto.
Qed.

Lemma open_buffer_inv B stream : 0 < B -> buffer_inv B (open stream).
Proof. intros HB. split; simpl; lia. Qed.

Lemma step_paused_inv B ev s s' :
  0 < B ->
  step true B ev s = Some s' ->
  buffer_inv B s -> log_inv s -> paused_inv s -> paused_inv s'.
Proof.
  intros HB Hstep [_ Hshort] Hlog [Hone Hidle Hempty Hleft].
  step_cases Hstep.
  - specialize (Hidle Hflow Hended).
    destruct (open_while_streaming s Hlog Hended) as [Hc _].
    unfold data_listener.
    assert (Hlen : length (rows s ++ [row]) = S (length (rows s)))
      by (rewrite length_app; simpl; lia).
    destruct (Nat.leb_spec B (length (rows s ++ [row]))); split; simpl;
      rewrite ?Hidle, ?Hc, ?Hflow; simpl; try easy; try lia.
    intros _ _. apply nil_length_inv. rewrite length_drop. lia.
  - destruct (open_while_streaming s Hlog Hended) as [Hc _].
    pose proof (late_after_closing s Hlog Hc) as Hlate.
    unfold end_listener.
    destruct (rows s) as [|r0 q0] eqn:Hr; split; simpl;
      rewrite ?Hc, ?Hlate; simpl; try easy; try lia.
    destruct (flowing s) eqn:Hf.
    + rewrite (Hidle eq_refl Hended). simpl. lia.
    + now specialize (Hempty eq_refl Hended).
  - destruct (open_while_streaming s Hlog Hended) as [Hc _].
    pose proof (late_after_closing s Hlog Hc) as Hlate.
    split; simpl; rewrite ?Hlate; simpl; try easy; try lia.
  - rewrite Hfl in Hone, Hleft. simpl in Hone.
    assert (others = []) as ->
      by (destruct others; [reflexivity|simpl in *; lia]).
    split; simpl; try easy; try lia.
    + intros Hf He. destruct (open_while_streaming s Hlog He) as [_ Hq].
      rewrite Hfl in Hq. pose proof (Forall_inv Hq) as Hw. simpl in Hw.
      subst who. discriminate Hf.
    + intros c Hc'. destruct (closing s) as [c0|] eqn:Hc.
      * specialize (Hleft c0 eq_refl). simpl in Hleft.
        rewrite length_app. simpl. lia.
      * rewrite (late_after_closing s Hlog Hc). simpl. lia.
Qed.

Lemma run_paused_inv B evs s s' :
  0 < B ->
  run true B evs s = Some s' ->
  buffer_inv B s -> log_inv s -> paused_inv s ->
  paused_inv s'.
Proof.
  intros HB. revert s.
  induction evs as [|ev evs IH]; intros s Hrun Hbuf Hlog Hinv.
  - simpl in Hrun. now injection Hrun as <-.
  - simpl in Hrun. destruct (step true B ev s) as [s1|] eqn:Hstep;
      [|discriminate].
    eapply IH; [exact Hrun| | |].
    + eapply step_buffer_inv; eauto.
    + eapply step_log_inv; eauto.
    + eapply step_paused_inv; eauto.
Qed.

Lemma open_paused_inv stream : paused_inv (open stream).
Proof. split; simpl; try easy; lia. Qed.

(** ** The runtime always gets to the end of a load *)

Lemma step_work_left pauses B ev s s' :
  step pauses B ev s = Some s' -> work_left s' < work_left s.
Proof.
  intros Hstep. unfold work_left.
  step_cases Hstep.
  - unfold data_listener.
    destruct (B <=? length (rows s ++ [row]))%nat; simpl;
      rewrite Hsrc, Hended, ?length_app; simpl; lia.
  - unfold end_listener.
    destruct (rows s); simpl; rewrite Hended, ?length_app; simpl; lia.
  - simpl. rewrite Hended. lia.
  - simpl. rewrite Hfl. simpl. lia.
Qed.

Lemma run_work_left pauses B evs s s' :
  run pauses B evs s = Some s' -> length evs + work_left s' <= work_left s.
Proof.
  revert s. induction evs as [|ev evs IH]; intros s Hrun.
  - simpl in Hrun. injection Hrun as <-. simpl. lia.
  - simpl in Hrun. destruct (step pauses B ev s) as [s1|] eqn:Hstep;
      [|discriminate].
    apply IH in Hrun. apply step_work_left in Hstep. simpl. lia.
Qed.

Lemma next_step pauses B pick s s' :
  next pauses B pick s = Some s' ->
  exists ev, step pauses B ev s = Some s'.
Proof.
  unfold next. intros H.
  destruct (step pauses B (pick s) s) eqn:H0; [injection H as <-; eauto|].
  destruct (step pauses B EvData s) eqn:H1; [injection H as <-; eauto|].
  destruct (step pauses B EvEnd s) eqn:H2; [injection H as <-; eauto|].
  destruct (step pauses B EvError s) eqn:H3; [injection H as <-; eauto|].
  eauto.
Qed.

Lemma next_at_rest pauses B pick s :
  next pauses B pick s = None -> at_rest pauses B s.
Proof.
  unfold next. intros H.
  destruct (step pauses B (pick s) s) eqn:H0; [discriminate|].
  destruct (step pauses B EvData s) eqn:H1; [discriminate|].
  destruct (step pauses B EvEnd s) eqn:H2; [discriminate|].
  destruct (step pauses B EvError s) eqn:H3; [discriminate|].
  intros [| | |]; assumption.
Qed.

(** The runtime delivers a schedule of the event loop. *)
Lemma drive_run pauses B pick fuel s :
  exists evs,
    run pauses B evs s = Some (drive pauses B pick fuel s) /\
    length evs <= fuel.
Proof.
  revert s. induction fuel as [|fuel IH]; intros s; simpl.
  - exists []. split; [reflexivity|simpl; lia].
  - destruct (next pauses B pick s) as [s1|] eqn:Hnext.
    + destruct (next_step _ _ _ _ _ Hnext) as [ev Hev].
      destruct (IH s1) as (evs & Hrun & Hlen).
      exists (ev :: evs). simpl. rewrite Hev. split; [exact Hrun|lia].
    + exists []. split; [reflexivity|simpl; lia].
Qed.

Lemma drive_at_rest pauses B pick fuel s :
  work_left s <= fuel -> at_rest pauses B (drive pauses B pick fuel s).
Proof.
  revert s. induction fuel as [|fuel IH]; intros s Hfuel; simpl.
  - intros ev. destruct (step pauses B ev s) as [s1|] eqn:Hstep;
      [|reflexivity].
    apply step_work_left in Hstep. lia.
  - destruct (next pauses B pick s) as [s1|] eqn:Hnext.
    + apply IH. destruct (next_step _ _ _ _ _ Hnext) as [ev Hev].
      apply step_work_left in Hev. lia.
    + now apply next_at_rest with pick.
Qed.

Lemma finish_run pauses B pick s :
  exists evs,
    run pauses B evs s = Some (finish pauses B pick s) /\
    length evs <= work_left s.
Proof. apply drive_run. Qed.

Lemma finish_at_rest pauses B pick s :
  at_rest pauses B (finish pauses B pick s).
Proof. now apply drive_at_rest. Qed.

(** A state in which the runtime has nothing to deliver is a state in
    which the stream is over and no insert is in flight. *)
Lemma at_rest_over pauses B src s :
  loader_inv pauses B src s -> at_rest pauses B s ->
  source s = [] /\ ended s = true /\ in_flight s = [].
Proof.
  intros [Hcut Hlog Hlive] Hrest.
  assert (Hfl : in_flight s = []).
  { specialize (Hrest EvSettle). simpl in Hrest.
    now destruct (in_flight s) as [|[b who] q]. }
  assert (He : ended s = true).
  { destruct (ended s) eqn:He; [reflexivity|].
    destruct (flowing_or_busy pauses s Hlive He) as [Hf|Hbusy]; [|easy].
    destruct (source s) as [|row rest] eqn:Hsrc.
    - destruct (broken s) as [e|] eqn:Hb.
      + specialize (Hrest EvError). simpl in Hrest.
        rewrite Hsrc, Hb, He in Hrest. discriminate.
      + specialize (Hrest EvEnd). simpl in Hrest.
        rewrite Hsrc, Hb, He in Hrest. discriminate.
    - specialize (Hrest EvData). simpl in Hrest.
      rewrite Hsrc, Hf, He in Hrest. discriminate. }
  destruct Hcut as (d & _ & _ & Hc). rewrite He in Hc. now destruct Hc.
Qed.

(** ** When the stream runs ahead of the store *)

Lemma drive_invariant pauses B pick src (I : State -> Prop) :
  (forall s s',
      loader_inv pauses B src s -> I s ->
      next pauses B pick s = Some s' -> I s') ->
  forall fuel s,
    loader_inv pauses B src s -> I s -> I (drive pauses B pick fuel s).
Proof.
  intros Hnext. induction fuel as [|fuel IH]; intros s Hinv HI; simpl.
  - exact HI.
  - destruct (next pauses B pick s) as [s1|] eqn:Hn; [|exact HI].
    apply IH.
    + destruct (next_step _ _ _ _ _ Hn) as [ev Hev].
      eapply step_loader_inv; eauto.
    + eapply Hnext; eauto.
Qed.

(** The runtime that lets the stream run ahead delivers a row when it
    can, then the end of the stream, and settles an insert only when
    the stream has nothing to deliver. *)
Lemma next_stream_first pauses B s s' :
  next pauses B stream_first s = Some s' ->
  step pauses B EvData s = Some s' \/
  (step pauses B EvData s = None /\ step pauses B EvEnd s = Some s') \/
  (step pauses B EvData s = None /\ step pauses B EvError s = Some s') \/
  (step pauses B EvData s = None /\ step pauses B EvEnd s = None /\
   step pauses B EvError s = None /\ step pauses B EvSettle s = Some s').
Proof.
  unfold next, stream_first. intros H.
  destruct (step pauses B EvData s) eqn:H1; [now left|].
  destruct (step pauses B EvEnd s) eqn:H2; [right; now left|].
  destruct (step pauses B EvError s) eqn:H3; [right; right; now left|].
  right. right. right. now repeat split.
Qed.

Lemma step_ahead_inv pauses B src s s' :
  loader_inv pauses B src s -> ahead_inv s ->
  next pauses B stream_first s = Some s' -> ahead_inv s'.
Proof.
  intros [_ Hlog _] [Hlast Hbehind] Hnext.
  destruct (next_stream_first _ _ _ _ Hnext)
    as [Hstep|[[_ Hstep]|[[_ Hstep]|(Hdata & Hend & Herr & Hstep)]]].
  - (* a row *)
    data_case Hstep.
    destruct (open_while_streaming s Hlog Hended) as [Hc _].
    unfold data_listener.
    destruct (B <=? length (rows s ++ [row]))%nat; split; simpl;
      rewrite ?Hc; try easy.
    + intros _ _ _ _. now destruct (in_flight s).
    + intros _ _ Hr. now destruct (rows s).
  - (* 'end' *)
    end_case Hstep.
    destruct (open_while_streaming s Hlog Hended) as [Hc _].
    unfold end_listener.
    destruct (rows s) as [|r0 q0] eqn:Hr; split; simpl; rewrite ?Hc;
      try easy.
    intros _ _ Hissued. right. now apply Hlast.
  - (* 'error' *)
    error_case Hstep. split; simpl; try easy.
  - (* an insert settles: the stream has nothing to deliver *)
    settle_case Hstep. split; simpl.
    + intros He Hsrc Hrows Hissued. exfalso.
      simpl in Hend, Herr. rewrite Hsrc, He in Hend, Herr.
      destruct (broken s); discriminate.
    + destruct (closing s) as [c|] eqn:Hc.
      * intros _ _ _. left. now destruct (late s).
      * destruct who; [discriminate|]. intros _ Hrows _.
        destruct (ended s) eqn:He.
        -- destruct (end_pending s Hlog He Hc) as (_ & Hne & _). easy.
        -- destruct (open_while_streaming s Hlog He) as [_ Hq].
           rewrite Hfl in Hq. pose proof (Forall_inv Hq) as Hw.
           discriminate Hw.
Qed.

Lemma step_unsettled_inv B src s s' :
  loader_inv false B src s -> unsettled_inv s ->
  next false B stream_first s = Some s' -> unsettled_inv s'.
Proof.
  unfold unsettled_inv. intros [_ Hlog Hlive] Hun Hnext.
  destruct (next_stream_first _ _ _ _ Hnext)
    as [Hstep|[[_ Hstep]|[[_ Hstep]|(Hdata & Hend & Herr & Hstep)]]].
  - data_case Hstep. unfold data_listener.
    destruct (B <=? length (rows s ++ [row]))%nat; simpl; intros _;
      apply Hun; now left.
  - end_case Hstep. unfold end_listener.
    destruct (rows s) as [|r0 q0] eqn:Hr; simpl.
    + intros _. apply Hun. now left.
    + intros [?|?]; discriminate.
  - error_case Hstep. simpl. intros _. apply Hun. now left.
  - settle_case Hstep. simpl.
    assert (He : ended s = true).
    { destruct (ended s) eqn:He; [reflexivity|]. exfalso.
      pose proof (stops_only_when_pausing false s Hlive eq_refl) as Hf.
      simpl in Hdata, Hend, Herr. rewrite Hf, He in Hdata.
      destruct (source s); [|discriminate].
      rewrite He in Hend, Herr. destruct (broken s); discriminate. }
    rewrite He. intros [?|Hrows]; [discriminate|].
    destruct (closing s) as [c|] eqn:Hc.
    + apply Hun. now right.
    + destruct (end_pending s Hlog He Hc) as (_ & Hne & _). easy.
Qed.

(** ** Backpressure *)

(** In both versions the buffer never holds more than [batchSize] rows.
    In the version that pauses a row is delivered only when no batch
    insert is in flight, at most one insert is in flight at any time, and
    a stream that is not flowing flows again only when an insert
    settles. *)
Lemma backpressure_when_paused (B : nat) :
  0 < B ->
  (forall pauses src evs s,
      run pauses B evs (init src) = Some s -> peak s <= B) /\
  backpressure true B /\
  (forall src evs s,
      run true B evs (init src) = Some s -> length (in_flight s) <= 1) /\
  (forall ev s s',
      step true B ev s = Some s' ->
      flowing s = false -> flowing s' = true -> ev = EvSettle).
Proof.
  intros HB.
  assert (Hpaused : forall src evs s,
             run true B evs (init src) = Some s -> paused_inv s).
  { intros src evs s Hrun. rewrite init_open in Hrun.
    eapply run_paused_inv; [exact HB|exact Hrun| | |].
    - now apply open_buffer_inv.
    - apply (inv_log true B (stream_rows (csv_of src))), open_loader_inv.
    - apply open_paused_inv. }
  assert (Hpeak : forall pauses src evs s,
             run pauses B evs (init src) = Some s -> peak s <= B).
  { intros pauses src evs s Hrun. rewrite init_open in Hrun.
    now destruct (run_buffer_inv _ _ _ _ _ HB Hrun
                    (open_buffer_inv B (csv_of src) HB)). }
  split; [exact Hpeak|]. split; [|split].
  - intros src evs s Hrun. split; [now apply (Hpeak true src evs)|].
    intros s' Hstep.
    pose proof (Hpaused _ _ _ Hrun) as Hinv.
    simpl in Hstep. destruct (source s); [discriminate|].
    destruct (flowing s) eqn:Hf; [|discriminate].
    destruct (ended s) eqn:He; [discriminate|].
    now apply (idle_while_flowing s Hinv).
  - intros src evs s Hrun. apply (at_most_one s), (Hpaused _ _ _ Hrun).
  - intros ev s s' Hstep Hoff Hon. destruct ev; [| | |reflexivity].
    + simpl in Hstep. destruct (source s); [discriminate|].
      rewrite Hoff in Hstep. discriminate.
    + end_case Hstep. unfold end_listener in Hon.
      destruct (rows s); simpl in Hon; congruence.
    + error_case Hstep. simpl in Hon. congruence.
Qed.

(** Without the pause a row can be delivered while an insert is in
    flight: after ten rows of a file of eleven a batch insert is pending,
    and the eleventh row is delivered all the same. *)
Lemma no_backpressure_without_pause :
  ~ backpressure false Guarded.batchSize.
Proof.
  intros H.
  edestruct (H (sample_rows 11) (repeat EvData 10)) as [_ Hidle].
  - vm_compute. reflexivity.
  - specialize (Hidle _ eq_refl). discriminate Hidle.
Qed.

(** C9: backpressure (the buffer never exceeds the batch size, and no row
    is delivered while a batch insert is in flight) holds of the loader
    of [challenge.ts], which pauses the stream around each insert, and
    does not hold of the loader of the guarded version, which has no
    [stream.pause()] and no [stream.resume()]. *)
Theorem backpressure_only_when_paused :
  backpressure true Paused.batchSize /\
  ~ backpressure false Guarded.batchSize.
Proof.
  split.
  - apply backpressure_when_paused. unfold Paused.batchSize. lia.
  - exact no_backpressure_without_pause.
Qed.

(** [resolve()] can come before an insert has settled.  Without the
    pause, for a file of ten rows the ['end'] listener finds the buffer
    empty and resolves the promise of the transaction while the only
    batch is still in flight. *)
Example resolve_before_settle_without_pause :
  exists s,
    run false Guarded.batchSize (repeat EvData 10 ++ [EvEnd])
        (init (sample_rows 10)) = Some s /\
    resolved s = true /\ length (in_flight s) = 1.
Proof. eexists. split; [vm_compute; reflexivity|]. split; reflexivity. Qed.

(** With the pause the same happens to the last batch: for a file of 180
    rows the stream is paused after the last row, ['end'] is delivered
    all the same, and [resolve()] is called while the second batch is in
    flight. *)
Example resolve_before_settle_with_pause :
  exists s,
    run true Paused.batchSize
        (repeat EvData 90 ++ [EvSettle] ++ repeat EvData 90 ++ [EvEnd])
        (init (sample_rows 180)) = Some s /\
    resolved s = true /\ flowing s = false /\
    length (arrived s) = 1 /\ length (in_flight s) = 1.
Proof.
  eexists. split; [vm_compute; reflexivity|]. repeat split; reflexivity.
Qed.

(** Without the pause the inserts in flight pile up: thirty rows
    delivered in a row leave three batches waiting for the store. *)
Example inserts_pile_up_without_pause :
  exists s,
    run false Guarded.batchSize (repeat EvData 30) (init (sample_rows 30))
    = Some s /\
    length (in_flight s) = 3 /\ peak s = 10.
Proof. eexists. split; [vm_compute; reflexivity|]. split; reflexivity. Qed.

End EventLoopFacts.
(** ** Where a load ends *)

Section Listeners.

Import EventLoop EventLoopSpec EventLoopFacts.

Variable pauses : bool.
Variable B : nat.
Variable env : Env.
Variable stream : CsvStream.

Let s := listeners pauses B env stream.

Lemma listeners_run :
  exists evs,
    run pauses B evs (open stream) = Some s /\
    length evs <= 2 * length (stream_rows stream) + 2.
Proof.
  destruct (finish_run pauses B (runtime env) (open stream))
    as (evs & Hrun & Hlen).
  exists evs. split; [exact Hrun|].
  unfold work_left in Hlen. simpl in Hlen. lia.
Qed.

Lemma listeners_inv : loader_inv pauses B (stream_rows stream) s.
Proof.
  destruct listeners_run as (evs & Hrun & _).
  exact (run_loader_inv _ _ _ _ _ _ Hrun (open_loader_inv pauses B stream)).
Qed.

Lemma listeners_broken : broken s = stream_error stream.
Proof.
  destruct listeners_run as (evs & Hrun & _).
  now rewrite (run_broken _ _ _ _ _ Hrun).
Qed.

(** When the runtime has nothing left to deliver the stream is over, no
    insert is in flight, the buffer holds the remainder, the promise has
    been closed, and every batch has settled, before or after that. *)
Lemma listeners_over :
  source s = [] /\ ended s = true /\ in_flight s = [] /\
  rows s = (cuts B (stream_rows stream)).1 /\
  closing s = Some (closing_of stream) /\
  arrived s ++ late s
  = match stream_error stream with
    | None => batches B (stream_rows stream)
    | Some _ => (cuts B (stream_rows stream)).2
    end.
Proof.
  pose proof listeners_inv as Hinv.
  destruct (at_rest_over _ _ _ _ Hinv
              (finish_at_rest pauses B (runtime env) (open stream)))
    as (Hsrc & Hended & Hfl).
  fold (listeners pauses B env stream) in Hsrc, Hended, Hfl. fold s in Hsrc, Hended, Hfl.
  destruct Hinv as [(d & Hsplit & Hrows & Hcut) Hlog _].
  rewrite Hended in Hcut. destruct Hcut as [_ Hissued].
  rewrite Hsrc, app_nil_r in Hsplit. subst d.
  rewrite listeners_broken in Hissued.
  repeat split; try assumption.
  - destruct (closing s) as [c|] eqn:Hc.
    + destruct (closed_once s Hlog c Hc) as (_ & _ & ->).
      now rewrite listeners_broken.
    + destruct (end_pending s Hlog Hended Hc) as (_ & _ & q & Hq & _).
      rewrite Hfl in Hq. now destruct q.
  - rewrite <- Hissued, (fifo s Hlog), Hfl. simpl. now rewrite app_nil_r.
Qed.

(** When the ['end'] listener has a remainder to insert, every batch has
    settled before [resolve()]. *)
Lemma listeners_remainder :
  stream_error stream = None ->
  (cuts B (stream_rows stream)).1 <> [] ->
  late s = [] /\ arrived s = batches B (stream_rows stream).
Proof.
  intros Hend Hrem.
  destruct listeners_over as (_ & _ & _ & Hrows & Hc & Hall).
  unfold closing_of in Hc. rewrite Hend in Hc, Hall.
  destruct (closed_by_await s (inv_log _ _ _ _ listeners_inv) Hc) as [Hlate _].
  { now rewrite Hrows. }
  split; [exact Hlate|]. now rewrite Hlate, app_nil_r in Hall.
Qed.

(** In the version that pauses at most one batch settles after the
    stream has closed the promise. *)
Lemma listeners_paused :
  pauses = true -> 0 < B -> length (late s) <= 1.
Proof.
  intros Hp HB. destruct listeners_run as (evs & Hrun & _).
  rewrite Hp in Hrun.
  pose proof (run_paused_inv B evs _ _ HB Hrun (open_buffer_inv B stream HB)
                (inv_log _ _ _ _ (open_loader_inv true B stream))
                (open_paused_inv stream)) as Hinv.
  destruct listeners_over as (_ & _ & _ & _ & Hc & _).
  pose proof (one_left s Hinv _ Hc). lia.
Qed.

End Listeners.

(** ** The transaction *)

Lemma append_rows_nil tb : append_rows [] tb = tb.
Proof. destruct tb. unfold append_rows; simpl. now rewrite app_nil_r. Qed.

Lemma append_rows_app a b tb :
  append_rows b (append_rows a tb) = append_rows (a ++ b) tb.
Proof. unfold append_rows; simpl. now rewrite app_assoc. Qed.

Lemma trx_view_nil t0 tableName : trx_view t0 tableName [] = t0.
Proof.
  unfold trx_view. destruct (t0 !! tableName) eqn:Ht; [|reflexivity].
  simpl. rewrite append_rows_nil. now apply insert_id.
Qed.

Lemma trx_view_snoc t0 tableName tb0 bs batch :
  t0 !! tableName = Some tb0 ->
  <[tableName := append_rows batch (append_rows (concat bs) tb0)]>
    (trx_view t0 tableName bs)
  = trx_view t0 tableName (bs ++ [batch]).
Proof.
  intros Ht. unfold trx_view. rewrite Ht, insert_insert_eq.
  rewrite append_rows_app, concat_app. simpl. now rewrite app_nil_r.
Qed.

Lemma trx_view_lookup t0 tableName tb0 bs :
  t0 !! tableName = Some tb0 ->
  trx_view t0 tableName bs !! tableName
  = Some (append_rows (concat bs) tb0).
Proof. intros Ht. unfold trx_view. rewrite Ht. apply lookup_insert_eq. Qed.

Lemma trx_view_missing t0 tableName bs :
  t0 !! tableName = None -> trx_view t0 tableName bs = t0.
Proof. intros Ht. unfold trx_view. now rewrite Ht. Qed.

(** A settled promise stays as it is. *)
Lemma batchInsert_settled env tableName l batch :
  promise l <> Pending -> batchInsert env tableName l batch = l.
Proof. unfold batchInsert. now destruct (promise l). Qed.

Lemma fold_batchInsert_settled env tableName bs l :
  promise l <> Pending ->
  fold_left (batchInsert env tableName) bs l = l.
Proof.
  revert l. induction bs as [|b bs IH]; intros l Hp; simpl; [reflexivity|].
  rewrite batchInsert_settled by exact Hp. now apply IH.
Qed.

Lemma close_settles c l : promise (close c l) <> Pending.
Proof.
  destruct c; simpl; unfold resolve, reject;
    destruct (promise l) eqn:Hp; simpl; congruence.
Qed.

(** The transaction of a load: the inserts that settled before the
    stream closed the promise, then the closing call. *)
Lemma settle_listeners pauses B env stream tableName l :
  settle env tableName (listeners pauses B env stream) l
  = close (closing_of stream)
      (fold_left (batchInsert env tableName)
                 (EventLoop.arrived (listeners pauses B env stream)) l).
Proof.
  destruct (listeners_over pauses B env stream)
    as (_ & _ & _ & _ & Hc & _).
  unfold settle. rewrite Hc.
  apply fold_batchInsert_settled, close_settles.
Qed.

Lemma holds_view_begin w tableName :
  holds_view (tables w) tableName (begin w).
Proof. exists []. simpl. now rewrite trx_view_nil. Qed.

Lemma holds_view_batchInsert env t0 tableName l batch :
  holds_view t0 tableName l ->
  holds_view t0 tableName (batchInsert env tableName l batch).
Proof.
  unfold holds_view, batchInsert. intros H.
  destruct (promise l) eqn:Hp; try exact H.
  - destruct H as [bs Hbs]. rewrite Hbs.
    destruct (insert_error env tableName (reached l)); unfold reject; simpl;
      rewrite ?Hp; simpl; [exact I|].
    destruct (trx_view t0 tableName bs !! tableName) as [tb|] eqn:Htb;
      simpl; rewrite ?Hp; simpl; [|exact I].
    exists (bs ++ [batch]). f_equal.
    unfold trx_view in Htb |- *.
    destruct (t0 !! tableName) as [tb0|] eqn:Ht0.
    + rewrite lookup_insert_eq in Htb. injection Htb as <-.
      rewrite insert_insert_eq, append_rows_app, concat_app. simpl.
      now rewrite app_nil_r.
    + congruence.
  - now rewrite Hp.
  - now rewrite Hp.
Qed.

Lemma holds_view_fold env t0 tableName bs l :
  holds_view t0 tableName l ->
  holds_view t0 tableName (fold_left (batchInsert env tableName) bs l).
Proof.
  revert l. induction bs as [|b bs IH]; intros l H; simpl; [exact H|].
  now apply IH, holds_view_batchInsert.
Qed.

Lemma holds_view_close t0 tableName c l :
  holds_view t0 tableName l -> holds_view t0 tableName (close c l).
Proof.
  unfold holds_view. destruct c; simpl; unfold resolve, reject;
    destruct (promise l) eqn:Hp; simpl; rewrite ?Hp; try easy.
Qed.

(** The inserts alone never fulfil the promise. *)
Lemma batchInsert_unfulfilled env tableName l batch :
  promise l <> Fulfilled ->
  promise (batchInsert env tableName l batch) <> Fulfilled.
Proof.
  unfold batchInsert. intros H.
  destruct (promise l) eqn:Hp; rewrite ?Hp; try easy.
  destruct (trx l); rewrite ?Hp; try easy.
  destruct (insert_error env tableName (reached l)); unfold reject; simpl;
    rewrite ?Hp; simpl; try easy.
  destruct (_ !! tableName); simpl; rewrite ?Hp; simpl; easy.
Qed.

Lemma fold_batchInsert_unfulfilled env tableName bs l :
  promise l <> Fulfilled ->
  promise (fold_left (batchInsert env tableName) bs l) <> Fulfilled.
Proof.
  revert l. induction bs as [|b bs IH]; intros l H; simpl; [exact H|].
  now apply IH, batchInsert_unfulfilled.
Qed.

(** Inserts that the store accepts, into a table that exists. *)
Lemma fold_batchInsert_accepted env tableName t0 tb0 bs prev l :
  t0 !! tableName = Some tb0 ->
  promise l = Pending ->
  trx l = Some (trx_view t0 tableName prev) ->
  (forall k, reached l <= k < reached l + length bs ->
             insert_error env tableName k = None) ->
  fold_left (batchInsert env tableName) bs l
  = {| trx := Some (trx_view t0 tableName (prev ++ bs));
       promise := Pending;
       reached := reached l + length bs;
       ops := ops l ++ inserts_of tableName bs |}.
Proof.
  intros Ht0. revert prev l.
  induction bs as [|b bs IH]; intros prev l Hp Htrx Hok; simpl.
  - rewrite !app_nil_r, Nat.add_0_r. destruct l; simpl in *. congruence.
  - assert (Hone : batchInsert env tableName l b
                   = {| trx := Some (trx_view t0 tableName (prev ++ [b]));
                        promise := Pending;
                        reached := S (reached l);
                        ops := ops l ++ [OpBatchInsert tableName (length b)] |}).
    { unfold batchInsert. rewrite Hp, Htrx, Hok by (simpl; lia).
      rewrite (trx_view_lookup _ _ _ _ Ht0). simpl.
      now rewrite (trx_view_snoc _ _ _ _ _ Ht0). }
    rewrite Hone, (IH (prev ++ [b])); simpl; try reflexivity.
    + rewrite <- !app_assoc. simpl. f_equal. lia.
    + intros k Hk. apply Hok. simpl in *. lia.
Qed.

(** What one insert does to an open transaction. *)
Lemma batchInsert_open env tableName l t batch :
  promise l = Pending -> trx l = Some t ->
  (insert_error env tableName (reached l) = None /\
   exists tb,
     t !! tableName = Some tb /\
     batchInsert env tableName l batch
     = {| trx := Some (<[tableName := append_rows batch tb]> t);
          promise := Pending;
          reached := S (reached l);
          ops := ops l ++ [OpBatchInsert tableName (length batch)] |}) \/
  (exists e', promise (batchInsert env tableName l batch) = Failed e' /\
              (insert_error env tableName (reached l) = None ->
               t !! tableName = None)).
Proof.
  intros Hp Ht. unfold batchInsert. rewrite Hp, Ht.
  destruct (insert_error env tableName (reached l)) as [e0|] eqn:He0.
  - right. unfold reject. simpl. rewrite ?Hp. simpl. eexists. split; eauto.
    discriminate.
  - destruct (t !! tableName) as [tb|] eqn:Htb.
    + left. split; [reflexivity|]. exists tb. simpl. now rewrite ?Hp.
    + right. unfold reject. simpl. rewrite ?Hp. simpl. eauto.
Qed.

(** One insert that reaches the store and is refused rejects the
    promise, and nothing after it changes that. *)
Lemma fold_batchInsert_refused env tableName bs l k e :
  promise l = Pending -> is_Some (trx l) ->
  reached l <= k < reached l + length bs ->
  insert_error env tableName k = Some e ->
  exists e', promise (fold_left (batchInsert env tableName) bs l) = Failed e'.
Proof.
  revert l. induction bs as [|b bs IH]; intros l Hp [t Ht] Hk He; simpl in *.
  - lia.
  - destruct (batchInsert_open env tableName l t b Hp Ht)
      as [(Hok & tb & _ & ->)|(e' & Hfail & _)].
    + apply IH; simpl; eauto.
      assert (k <> reached l) by congruence. lia.
    + rewrite fold_batchInsert_settled by congruence. eauto.
Qed.

(** An insert into a table that does not exist rejects the promise. *)
Lemma fold_batchInsert_missing env tableName b bs w :
  tables w !! tableName = None ->
  exists e',
    promise (fold_left (batchInsert env tableName) (b :: bs) (begin w))
    = Failed e'.
Proof.
  intros Hnone. simpl.
  destruct (batchInsert_open env tableName (begin w) (tables w) b
              eq_refl eq_refl) as [(_ & tb & Htb & _)|(e' & Hfail & _)].
  - simpl in Htb. congruence.
  - rewrite fold_batchInsert_settled by congruence. eauto.
Qed.

(** ** [processCSV] *)

Lemma processCSV_unfold pauses B lc env filePath tableName stream w :
  files env !! filePath = Some stream ->
  processCSV_with pauses B lc env filePath tableName w
  = let s := listeners pauses B env stream in
    let l := close (closing_of stream)
               (fold_left (batchInsert env tableName) (EventLoop.arrived s)
                          (begin w)) in
    match promise l, trx l with
    | Fulfilled, Some t =>
        (Js.Resolved tt,
         if lc
         then print (pretty (length (EventLoop.rows s)))
                    (set_tables t (issue_all (ops l) w))
         else set_tables t (issue_all (ops l) w))
    | Failed e, _ =>
        (Js.Resolved tt,
         print ("An error occurred while processing the CSV: "
                  +:+ Js.show_error e) (issue_all (ops l) w))
    | _, _ => (Js.Resolved tt, issue_all (ops l) w)
    end.
Proof.
  intros Hfile. unfold processCSV_with. rewrite Hfile.
  cbv zeta. now rewrite settle_listeners.
Qed.

(** [processCSV] never rejects: whatever happens to its inserts, it
    returns normally as long as the file can be opened. *)
Lemma processCSV_outcome pauses B lc env filePath tableName w :
  (processCSV_with pauses B lc env filePath tableName w).1
  = match files env !! filePath with
    | Some _ => Js.Resolved tt
    | None => Js.Uncaught (Js.LibError "fs" "ENOENT: no such file or directory")
    end.
Proof.
  unfold processCSV_with. destruct (files env !! filePath); [|reflexivity].
  cbv zeta. destruct (promise _); [reflexivity| |reflexivity].
  destruct (trx _); reflexivity.
Qed.

(** A load whose promise is rejected leaves every table as it was and
    prints the error. *)
Lemma processCSV_rolled_back pauses B lc env filePath tableName stream w e :
  files env !! filePath = Some stream ->
  promise (close (closing_of stream)
             (fold_left (batchInsert env tableName)
                (EventLoop.arrived (listeners pauses B env stream))
                (begin w))) = Failed e ->
  let r := processCSV_with pauses B lc env filePath tableName w in
  r.1 = Js.Resolved tt /\
  tables r.2 = tables w /\
  console r.2
  = console w
    ++ ["An error occurred while processing the CSV: " +:+ Js.show_error e].
Proof.
  intros Hfile Hp. simpl. rewrite (processCSV_unfold _ _ _ _ _ _ _ _ Hfile).
  cbv zeta. rewrite Hp. now repeat split.
Qed.

(** A load all of whose inserts that reached the store in time were
    accepted commits exactly those. *)
Lemma processCSV_committed pauses B lc env filePath tableName stream w tb :
  files env !! filePath = Some stream ->
  stream_error stream = None ->
  tables w !! tableName = Some tb ->
  let s := listeners pauses B env stream in
  (forall k, k < length (EventLoop.arrived s) ->
             insert_error env tableName k = None) ->
  let r := processCSV_with pauses B lc env filePath tableName w in
  r.1 = Js.Resolved tt /\
  tables r.2
  = <[tableName := append_rows (concat (EventLoop.arrived s)) tb]> (tables w) /\
  oplog r.2
  = oplog w ++ inserts_of tableName (EventLoop.arrived s) ++ [OpCommit] /\
  console r.2
  = if lc then console w ++ [pretty (length (EventLoop.rows s))]
    else console w.
Proof.
  intros Hfile Hend Htb s Hok. simpl.
  rewrite (processCSV_unfold _ _ _ _ _ _ _ _ Hfile). cbv zeta.
  fold s.
  rewrite (fold_batchInsert_accepted env tableName (tables w) tb
             (EventLoop.arrived s) [] (begin w) Htb eq_refl)
    by (first [ simpl; now rewrite trx_view_nil
              | intros k Hk; apply Hok; simpl in Hk; lia ]).
  unfold closing_of. rewrite Hend. simpl.
  unfold trx_view. rewrite Htb.
  destruct lc; simpl; now rewrite <- ?app_assoc.
Qed.

(** ** When the stream runs ahead of the store *)

Section Ahead.

Import EventLoop EventLoopSpec EventLoopFacts.

Variable B : nat.
Variable env : Env.
Variable stream : CsvStream.

Hypothesis Hruntime : runtime env = stream_first.
Hypothesis Hend : stream_error stream = None.
Hypothesis Hwhole : (cuts B (stream_rows stream)).1 = [].

(** Without the pause no insert has settled when ['end'] resolves the
    promise. *)
Lemma listeners_ahead_unpaused :
  arrived (listeners false B env stream) = [].
Proof.
  pose proof (listeners_over false B env stream)
    as (_ & _ & _ & Hrows & _).
  assert (Hun : unsettled_inv (listeners false B env stream)).
  { unfold listeners, finish. rewrite Hruntime.
    apply (drive_invariant false B stream_first (stream_rows stream)).
    - intros s s'. apply step_unsettled_inv.
    - apply open_loader_inv.
    - intros _. reflexivity. }
  apply Hun. right. now rewrite Hrows.
Qed.

(** With the pause the last batch has not. *)
Lemma listeners_ahead_paused :
  0 < B -> stream_rows stream <> [] ->
  exists last,
    late (listeners true B env stream) = [last] /\
    arrived (listeners true B env stream) ++ [last]
    = batches B (stream_rows stream).
Proof.
  intros HB Hrows.
  pose proof (listeners_over true B env stream)
    as (_ & _ & Hfl & Hbuf & Hc & Hall).
  rewrite Hend in Hall. unfold closing_of in Hc. rewrite Hend in Hc.
  pose proof (listeners_paused true B env stream eq_refl HB) as Hone.
  assert (Hah : ahead_inv (listeners true B env stream)).
  { unfold listeners, finish. rewrite Hruntime.
    apply (drive_invariant true B stream_first (stream_rows stream)).
    - intros s s'. apply step_ahead_inv.
    - apply open_loader_inv.
    - split; simpl; easy. }
  destruct (resolve_leaves_behind _ Hah Hc) as [Hlate|Hbusy].
  - now rewrite Hbuf.
  - pose proof (fifo _ (inv_log _ _ _ _ (listeners_inv true B env stream)))
      as Hfifo.
    rewrite Hfl in Hfifo. simpl in Hfifo. rewrite app_nil_r in Hfifo.
    rewrite Hfifo, Hall. intros Hnil.
    pose proof (batches_concat B (stream_rows stream)) as Hcat.
    rewrite Hnil in Hcat. simpl in Hcat. congruence.
  - destruct (late (listeners true B env stream)) as [|last [|x q]];
      simpl in *; try easy; try lia.
    exists last. split; [reflexivity|exact Hall].
  - now rewrite Hfl in Hbusy.
Qed.

End Ahead.

(** The rows that come before the last full batch. *)
Lemma all_but_last_batch B (rs : list Row) (bs : list (list Row)) last :
  0 < B -> (cuts B rs).1 = [] ->
  bs ++ [last] = batches B rs ->
  concat bs = take (length rs - B) rs /\ length last = B.
Proof.
  intros HB Hwhole Hsplit.
  pose proof (batches_concat B rs) as Hcat.
  pose proof (batches_sizes B rs HB) as Hsizes.
  rewrite <- Hsplit in Hcat, Hsizes.
  rewrite concat_app in Hcat. simpl in Hcat. rewrite app_nil_r in Hcat.
  assert (Hlast : length last = B).
  { rewrite map_app in Hsizes. simpl in Hsizes. unfold batch_sizes in Hsizes.
    apply (cuts_whole B rs HB) in Hwhole. rewrite Hwhole in Hsizes.
    simpl in Hsizes. rewrite app_nil_r in Hsizes.
    assert (Hin : In (length last) (repeat B (length rs / B))).
    { rewrite <- Hsizes. apply in_or_app. right. now left. }
    now apply repeat_spec in Hin. }
  split; [|exact Hlast].
  rewrite <- Hcat. symmetry. apply take_app_length'.
  rewrite length_app. lia.
Qed.

(** ** What a load does to the store *)

(** A load of a file whose number of rows the batch size does not
    divide, into a table that exists and with a store that accepts every
    insert: the ['end'] listener awaits the insert of the remainder, so
    every batch has settled when it resolves the promise. *)
Lemma processCSV_success pauses B lc env filePath tableName stream w tb :
  0 < B ->
  files env !! filePath = Some stream ->
  stream_error stream = None ->
  length (stream_rows stream) mod B <> 0 ->
  tables w !! tableName = Some tb ->
  (forall k, insert_error env tableName k = None) ->
  let r := processCSV_with pauses B lc env filePath tableName w in
  r.1 = Js.Resolved tt /\
  tables r.2 = <[tableName := append_rows (stream_rows stream) tb]> (tables w) /\
  oplog r.2
  = oplog w ++ inserts_of tableName (batches B (stream_rows stream))
      ++ [OpCommit].
Proof.
  intros HB Hfile Hend Hmod Htb Hok.
  destruct (listeners_remainder pauses B env stream Hend) as [_ Harr].
  { intros H. now apply (cuts_whole B _ HB) in H. }
  destruct (processCSV_committed pauses B lc env filePath tableName stream w
              tb Hfile Hend Htb) as (H1 & H2 & H3 & _).
  { intros k _. apply Hok. }
  rewrite Harr, batches_concat in H2. rewrite Harr in H3.
  now repeat split.
Qed.

(** The tables after a load: those of before, or those of before with
    some batches added to the destination. *)
Lemma processCSV_tables pauses batchSize log_count env filePath tableName w :
  let w' :=
    (processCSV_with pauses batchSize log_count env filePath tableName w).2 in
  tables w' = tables w \/
  exists bs, tables w' = trx_view (tables w) tableName bs.
Proof.
  cbv zeta. destruct (files env !! filePath) as [stream|] eqn:Hfile.
  - rewrite (processCSV_unfold _ _ _ _ _ _ _ _ Hfile). cbv zeta.
    pose proof (holds_view_close (tables w) tableName (closing_of stream) _
                  (holds_view_fold env (tables w) tableName
                     (EventLoop.arrived (listeners pauses batchSize env stream))
                     _ (holds_view_begin w tableName))) as Hview.
    unfold holds_view in Hview.
    destruct (promise _) eqn:Hp.
    + now left.
    + destruct Hview as [bs ->]. right. exists bs. now destruct log_count.
    + now left.
  - unfold processCSV_with. rewrite Hfile. now left.
Qed.

Section LoadEffects.

Variable pauses : bool.
Variable batchSize : nat.
Variable log_count : bool.
Variable env : Env.
Variables filePath tableName : string.
Variable w : World.

Let w' := (processCSV_with pauses batchSize log_count env filePath tableName w).2.

(** X10: [processCSV] never removes, reorders or rewrites what the store
    holds.  Whatever the file, the runtime and the answers of the store,
    every other table is untouched, a missing destination table is not
    created, and an existing one keeps its columns and its rows, in
    order, in front of whatever the load added. *)
Theorem processCSV_preserves :
  (forall other, other <> tableName ->
                 tables w' !! other = tables w !! other) /\
  (tables w !! tableName = None -> tables w' !! tableName = None) /\
  (forall tb, tables w !! tableName = Some tb ->
              exists added,
                tables w' !! tableName
                = Some {| columns := columns tb; body := body tb ++ added |}).
Proof.
  destruct (processCSV_tables pauses batchSize log_count env filePath
              tableName w) as [Hsame|[bs Hview]];
    [fold w' in Hsame|fold w' in Hview].
  - rewrite Hsame. repeat split; try easy.
    intros tb Htb. exists []. rewrite Htb. destruct tb; simpl.
    now rewrite app_nil_r.
  - rewrite Hview. unfold trx_view.
    split; [|split].
    + intros other Hne. destruct (tables w !! tableName); [|reflexivity].
      now rewrite lookup_insert_ne.
    + intros Hnone. now rewrite Hnone.
    + intros tb Htb. rewrite Htb, lookup_insert_eq. eauto.
Qed.

End LoadEffects.

Section LoadOutcomes.

Variable pauses : bool.
Variable batchSize : nat.
Variable log_count : bool.
Variable env : Env.
Variables filePath tableName : string.
Variable stream : CsvStream.
Variable w : World.

Hypothesis Hfile : files env !! filePath = Some stream.

Let r := processCSV_with pauses batchSize log_count env filePath tableName w.

(** X12: when the parser reports an error, whatever was read and
    inserted before is rolled back: every table is as it was, the
    function prints one line and returns normally. *)
Theorem processCSV_parser_error (e : Js.JsError) :
  stream_error stream = Some e ->
  r.1 = Js.Resolved tt /\
  tables r.2 = tables w /\
  exists e', console r.2
             = console w
               ++ ["An error occurred while processing the CSV: "
                     +:+ Js.show_error e'].
Proof.
  intros Herr.
  set (l := fold_left (batchInsert env tableName)
              (EventLoop.arrived (listeners pauses batchSize env stream))
              (begin w)).
  assert (Hp : exists e',
             promise (close (closing_of stream) l) = Failed e').
  { unfold closing_of. rewrite Herr. simpl. unfold reject.
    pose proof (fold_batchInsert_unfulfilled env tableName
                  (EventLoop.arrived (listeners pauses batchSize env stream))
                  (begin w)) as Hnf.
    fold l in Hnf.
    destruct (promise l) eqn:Hl; simpl; eauto.
    now exfalso; apply Hnf. }
  destruct Hp as [e' Hp].
  destruct (processCSV_rolled_back pauses batchSize log_count env filePath
              tableName stream w e' Hfile Hp) as (H1 & H2 & H3).
  split; [exact H1|]. split; [exact H2|]. eauto.
Qed.

(** X14: a file without data rows that is read to its end issues no
    insert at all; the transaction commits and the store is as it was,
    whether or not the table exists. *)
Theorem processCSV_empty_file :
  stream_rows stream = [] ->
  stream_error stream = None ->
  r.1 = Js.Resolved tt /\
  tables r.2 = tables w /\
  oplog r.2 = oplog w ++ [OpCommit].
Proof.
  intros Hrows Hend.
  destruct (listeners_over pauses batchSize env stream)
    as (_ & _ & _ & _ & _ & Hall).
  rewrite Hend, Hrows in Hall. change (batches batchSize []) with
    (@nil (list Row)) in Hall.
  apply app_eq_nil in Hall as [Harr _].
  unfold r. rewrite (processCSV_unfold _ _ _ _ _ _ _ _ Hfile). cbv zeta.
  rewrite Harr. unfold closing_of. rewrite Hend. simpl.
  destruct log_count; simpl; now repeat split.
Qed.

End LoadOutcomes.

Section Loader.

Variable pauses : bool.
Variable batchSize : nat.
Variable log_count : bool.
Variable env : Env.
Variables filePath tableName : string.
Variable stream : CsvStream.
Variable w : World.

Hypothesis Hbatch : 0 < batchSize.
Hypothesis Hfile : files env !! filePath = Some stream.
Hypothesis Hread : stream_error stream = None.

Let rs := stream_rows stream.
Let n := length rs.
Let s := listeners pauses batchSize env stream.
Let r := processCSV_with pauses batchSize log_count env filePath tableName w.

(** When every insert is accepted, what the load commits is the batches
    that had settled when [resolve()] was called: the first [j] batches
    of the file, all of them unless ['end'] found the buffer empty. *)
Lemma processCSV_prefix (tb : Table) :
  tables w !! tableName = Some tb ->
  (forall k, insert_error env tableName k = None) ->
  exists j,
    j <= length (batches batchSize rs) /\
    EventLoop.arrived s = take j (batches batchSize rs) /\
    r.1 = Js.Resolved tt /\
    tables r.2
    = <[tableName := append_rows (concat (take j (batches batchSize rs))) tb]>
        (tables w) /\
    oplog r.2
    = oplog w ++ inserts_of tableName (take j (batches batchSize rs))
        ++ [OpCommit] /\
    (n mod batchSize <> 0 -> j = length (batches batchSize rs)) /\
    (pauses = true -> length (batches batchSize rs) <= j + 1).
Proof.
  intros Htb Hok.
  destruct (listeners_over pauses batchSize env stream)
    as (_ & _ & _ & _ & _ & Hall).
  rewrite Hread in Hall. fold s rs in Hall.
  destruct (processCSV_committed pauses batchSize log_count env filePath
              tableName stream w tb Hfile Hread Htb) as (H1 & H2 & H3 & _).
  { intros k _. apply Hok. }
  fold s r in H1, H2, H3.
  assert (Harr : EventLoop.arrived s
                 = take (length (EventLoop.arrived s)) (batches batchSize rs)).
  { rewrite <- Hall. now rewrite take_app_length. }
  exists (length (EventLoop.arrived s)).
  rewrite <- Harr. repeat split; try assumption.
  - rewrite <- Hall, length_app. lia.
  - intros Hmod.
    destruct (listeners_remainder pauses batchSize env stream Hread)
      as [_ Hfull].
    { intros H. now apply (cuts_whole batchSize _ Hbatch) in H. }
    fold s rs in Hfull. now rewrite Hfull.
  - intros Hp.
    pose proof (listeners_paused pauses batchSize env stream Hp Hbatch)
      as Hone.
    fold s in Hone. rewrite <- Hall, length_app. lia.
Qed.

(** C2: the load is all-or-nothing only when the batch size does not
    divide the number of rows.  Then the ['end'] listener awaits the
    insert of the remainder: a refused insert rolls everything back and
    the table has the rows it had, and with a store that accepts every
    insert the table gains the [n] rows of the file.  When the batch
    size divides [n], ['end'] finds the buffer empty and resolves the
    promise without waiting for the inserts in flight: with the stream
    running ahead of the store, and although no insert is refused, the
    loader of [challenge.ts] commits the file without its last batch
    and the other loader commits nothing. *)
Theorem processCSV_commits_before_inserts (tb : Table) :
  tables w !! tableName = Some tb ->
  (n mod batchSize <> 0 ->
   ((exists k e, k < length (batches batchSize rs) /\
                 insert_error env tableName k = Some e) ->
    tables r.2 = tables w /\
    row_count r.2 tableName = row_count w tableName) /\
   ((forall k, insert_error env tableName k = None) ->
    tables r.2 = <[tableName := append_rows rs tb]> (tables w) /\
    row_count r.2 tableName = row_count w tableName + n)) /\
  (n mod batchSize = 0 -> 0 < n ->
   runtime env = stream_first ->
   (forall k, insert_error env tableName k = None) ->
   r.1 = Js.Resolved tt /\
   tables r.2
   = <[tableName :=
         append_rows (if pauses then take (n - batchSize) rs else []) tb]>
       (tables w) /\
   row_count r.2 tableName
   = row_count w tableName + (if pauses then n - batchSize else 0)).
Proof.
  intros Htb.
  assert (Hcount : forall added,
             tables r.2 = <[tableName := append_rows added tb]> (tables w) ->
             row_count r.2 tableName
             = row_count w tableName + length added).
  { intros added Ht. unfold row_count. rewrite Ht, lookup_insert_eq, Htb.
    simpl. now rewrite length_app. }
  split.
  - intros Hmod.
    destruct (listeners_remainder pauses batchSize env stream Hread)
      as [_ Hfull].
    { intros H. now apply (cuts_whole batchSize _ Hbatch) in H. }
    split.
    + intros (k & e & Hk & He).
      destruct (fold_batchInsert_refused env tableName
                  (EventLoop.arrived (listeners pauses batchSize env stream))
                  (begin w) k e eq_refl ltac:(eexists; reflexivity))
        as [e' Hfail]; [rewrite Hfull; simpl; fold rs; lia|exact He|].
      destruct (processCSV_rolled_back pauses batchSize log_count env
                  filePath tableName stream w e' Hfile) as (_ & Ht & _).
      { unfold closing_of. rewrite Hread. simpl. unfold resolve.
        now rewrite Hfail. }
      fold r in Ht. split; [exact Ht|]. unfold row_count. now rewrite Ht.
    + intros Hok.
      destruct (processCSV_success pauses batchSize log_count env filePath
                  tableName stream w tb Hbatch Hfile Hread Hmod Htb Hok)
        as (_ & Ht & _).
      fold r rs in Ht. split; [exact Ht|]. now apply Hcount.
  - intros Hmod Hn Hrt Hok.
    assert (Hwhole : (cuts batchSize (stream_rows stream)).1 = [])
      by now apply (cuts_whole batchSize _ Hbatch).
    destruct (processCSV_committed pauses batchSize log_count env filePath
                tableName stream w tb Hfile Hread Htb) as (H1 & H2 & _).
    { intros k _. apply Hok. }
    fold r in H1, H2. split; [exact H1|].
    assert (Hadded : concat (EventLoop.arrived
                               (listeners pauses batchSize env stream))
                     = if pauses then take (n - batchSize) rs else []).
    { destruct pauses.
      - destruct (listeners_ahead_paused batchSize env stream Hrt Hread
                    Hwhole Hbatch) as (last & _ & Hsplit).
        { intros Hnil. unfold n, rs in Hn. rewrite Hnil in Hn.
          simpl in Hn. lia. }
        now destruct (all_but_last_batch batchSize _ _ _ Hbatch Hwhole Hsplit).
      - now rewrite (listeners_ahead_unpaused batchSize env stream Hrt Hwhole). }
    rewrite Hadded in H2. split; [exact H2|].
    rewrite (Hcount _ H2). f_equal.
    destruct pauses; [|reflexivity].
    rewrite length_take. fold n. lia.
Qed.

(** C8: the loader starts [⌈n/B⌉] batch inserts, of [B] rows each except
    for a last one of [n mod B] rows when [B] does not divide [n], and
    they carry the rows of the file in order, whatever the runtime does.
    What is committed is the inserts that had settled when [resolve()]
    was called, the first [j] of them: all of them, hence [n] rows, when
    [B] does not divide [n]; when it does and the stream runs ahead of
    the store, all but the last in [challenge.ts] and none in the other
    version, so that the committed row count is not [n]. *)
Theorem processCSV_batches :
  EventLoop.issued s = batches batchSize rs /\
  length (EventLoop.issued s) = (n + batchSize - 1) / batchSize /\
  map length (EventLoop.issued s) = batch_sizes batchSize n /\
  concat (EventLoop.issued s) = rs /\
  (forall tb,
      tables w !! tableName = Some tb ->
      (forall k, insert_error env tableName k = None) ->
      exists j,
        j <= length (batches batchSize rs) /\
        oplog r.2
        = oplog w ++ inserts_of tableName (take j (batches batchSize rs))
            ++ [OpCommit] /\
        row_count r.2 tableName
        = row_count w tableName
          + length (concat (take j (batches batchSize rs))) /\
        (n mod batchSize <> 0 ->
         j = length (batches batchSize rs) /\
         row_count r.2 tableName = row_count w tableName + n) /\
        (n mod batchSize = 0 -> 0 < n -> runtime env = stream_first ->
         j = (if pauses then length (batches batchSize rs) - 1 else 0) /\
         row_count r.2 tableName < row_count w tableName + n)).
Proof.
  assert (Hissued : EventLoop.issued s = batches batchSize rs).
  { destruct (listeners_over pauses batchSize env stream)
      as (_ & _ & Hfl & _ & _ & Hall).
    pose proof (EventLoopSpec.fifo _
                  (EventLoopSpec.inv_log _ _ _ _
                     (listeners_inv pauses batchSize env stream))) as Hfifo.
    fold s in Hfifo, Hfl, Hall. rewrite Hfl in Hfifo. simpl in Hfifo.
    rewrite app_nil_r in Hfifo. rewrite Hread in Hall.
    now rewrite Hfifo, Hall. }
  rewrite Hissued.
  split; [reflexivity|].
  split; [now apply batches_length|].
  split; [now apply batches_sizes|].
  split; [apply batches_concat|].
  intros tb Htb Hok.
  destruct (processCSV_prefix tb Htb Hok)
    as (j & Hj & Harr & _ & Ht & Hops & Hfull & _).
  assert (Hcount : row_count r.2 tableName
                   = row_count w tableName
                     + length (concat (take j (batches batchSize rs)))).
  { unfold row_count. rewrite Ht, lookup_insert_eq, Htb. simpl.
    now rewrite length_app. }
  exists j. split; [exact Hj|]. split; [exact Hops|].
  split; [exact Hcount|]. split.
  - intros Hmod. specialize (Hfull Hmod). split; [exact Hfull|].
    rewrite Hcount, Hfull, firstn_all, batches_concat. reflexivity.
  - intros Hmod Hn Hrt.
    assert (Hwhole : (cuts batchSize (stream_rows stream)).1 = [])
      by now apply (cuts_whole batchSize _ Hbatch).
    assert (Hne : stream_rows stream <> []).
    { intros Hnil. unfold n, rs in Hn. rewrite Hnil in Hn. simpl in Hn. lia. }
    assert (Hjlen : j = length (EventLoop.arrived s)).
    { rewrite Harr, length_take. lia. }
    destruct pauses eqn:Hp.
    + destruct (listeners_ahead_paused batchSize env stream Hrt Hread
                  Hwhole Hbatch Hne) as (last & _ & Hsplit).
      fold s rs in Hsplit.
      destruct (all_but_last_batch batchSize _ _ _ Hbatch Hwhole Hsplit)
        as [Hcat Hlast].
      split.
      * rewrite Hjlen, <- Hsplit, length_app. simpl. lia.
      * rewrite Hcount, <- Harr, Hcat, length_take. fold rs n. lia.
    + pose proof (listeners_ahead_unpaused batchSize env stream Hrt Hwhole)
        as Hnone.
      fold s in Hnone. split.
      * now rewrite Hjlen, Hnone.
      * rewrite Hcount, <- Harr, Hnone. simpl. lia.
Qed.

(** X11: with a store that accepts every insert, what a load adds is a
    prefix of the file made of whole batches, in file order, whatever
    the runtime does; in the version that pauses at most the last batch
    is missing. *)
Theorem processCSV_appends_prefix (tb : Table) :
  tables w !! tableName = Some tb ->
  (forall k, insert_error env tableName k = None) ->
  r.1 = Js.Resolved tt /\
  exists j,
    j <= length (batches batchSize rs) /\
    tables r.2
    = <[tableName := append_rows (concat (take j (batches batchSize rs))) tb]>
        (tables w) /\
    (exists rest, rs = concat (take j (batches batchSize rs)) ++ rest) /\
    (pauses = true -> length (batches batchSize rs) <= j + 1).
Proof.
  intros Htb Hok.
  destruct (processCSV_prefix tb Htb Hok)
    as (j & Hj & _ & Hres & Ht & _ & _ & Hp).
  split; [exact Hres|]. exists j. repeat split; try assumption.
  exists (concat (drop j (batches batchSize rs))).
  rewrite <- concat_app, take_drop. symmetry. apply batches_concat.
Qed.

(** X13: loading a file into a table that does not exist creates
    nothing, and the function returns normally.  The error is printed
    when the ['end'] listener has a remainder to insert; when it has
    none and no insert has reached the store at ['end'], the transaction
    commits, nothing tells that the table is missing, and the version
    that prints [rows.length] prints 0. *)
Theorem processCSV_missing_table :
  tables w !! tableName = None ->
  r.1 = Js.Resolved tt /\
  tables r.2 = tables w /\
  (n mod batchSize <> 0 ->
   exists e', console r.2
              = console w
                ++ ["An error occurred while processing the CSV: "
                      +:+ Js.show_error e']) /\
  (n mod batchSize = 0 -> pauses = false -> runtime env = stream_first ->
   console r.2 = if log_count then console w ++ ["0"] else console w).
Proof.
  intros Hnone.
  split; [unfold r; now rewrite processCSV_outcome, Hfile|].
  split.
  { destruct (processCSV_tables pauses batchSize log_count env filePath
                tableName w) as [Hsame|[bs Hview]].
    - exact Hsame.
    - fold r in Hview. now rewrite Hview, trx_view_missing. }
  split.
  - intros Hmod.
    destruct (listeners_remainder pauses batchSize env stream Hread)
      as [_ Hfull].
    { intros H. now apply (cuts_whole batchSize _ Hbatch) in H. }
    destruct (batches batchSize (stream_rows stream)) as [|b bs] eqn:Hb.
    { exfalso. pose proof (batches_concat batchSize (stream_rows stream)) as Hc.
      rewrite Hb in Hc. simpl in Hc. unfold n, rs in Hmod. rewrite <- Hc in Hmod.
      simpl in Hmod. now rewrite Nat.Div0.mod_0_l in Hmod. }
    destruct (fold_batchInsert_missing env tableName b bs w Hnone)
      as [e' Hfail].
    destruct (processCSV_rolled_back pauses batchSize log_count env filePath
                tableName stream w e' Hfile) as (_ & _ & Hcons).
    { rewrite Hfull. unfold closing_of. rewrite Hread. cbn [close].
      unfold resolve. now rewrite Hfail. }
    eauto.
  - intros Hmod -> Hrt.
    assert (Hwhole : (cuts batchSize (stream_rows stream)).1 = [])
      by now apply (cuts_whole batchSize _ Hbatch).
    destruct (listeners_over false batchSize env stream)
      as (_ & _ & _ & Hrows & _).
    unfold r. rewrite (processCSV_unfold _ _ _ _ _ _ _ _ Hfile). cbv zeta.
    rewrite (listeners_ahead_unpaused batchSize env stream Hrt Hwhole).
    rewrite Hrows, Hwhole. unfold closing_of. rewrite Hread. simpl.
    now destruct log_count.
Qed.

(** X15: what a load that goes through prints.  The guarded version
    prints [rows.length], which by then is the size of the last, partial
    batch, [n mod batchSize], not the number of rows loaded; the version
    of [challenge.ts] prints nothing. *)
Theorem processCSV_logged_count (tb : Table) :
  tables w !! tableName = Some tb ->
  (forall k, insert_error env tableName k = None) ->
  console r.2
  = if log_count
    then console w ++ [pretty (length (stream_rows stream) mod batchSize)]
    else console w.
Proof.
  intros Htb Hok.
  destruct (processCSV_committed pauses batchSize log_count env filePath
              tableName stream w tb Hfile Hread Htb) as (_ & _ & _ & Hcons).
  { intros k _. apply Hok. }
  fold r in Hcons. rewrite Hcons.
  destruct (listeners_over pauses batchSize env stream)
    as (_ & _ & _ & Hrows & _).
  rewrite Hrows.
  now destruct (cuts_sizes batchSize (stream_rows stream) Hbatch) as [_ ->].
Qed.

End Loader.


(** ** The loader on sample files *)

(** The loader of [challenge.ts] on a file of 180 rows, with a store
    that accepts every insert: the load returns normally and the table
    has 90 rows more, not 180. *)
Lemma processCSV_commits_before_inserts_witness :
  (processCSV_with true Paused.batchSize false
     (sample_env (sample_rows 180) (sample_rows 3) never_fails)
     customers_csv "customers" provisioned_world).1
  = Js.Resolved tt /\
  row_count (processCSV_with true Paused.batchSize false
               (sample_env (sample_rows 180) (sample_rows 3) never_fails)
               customers_csv "customers" provisioned_world).2 "customers"
  = row_count provisioned_world "customers" + (180 - 90).
Proof.
  destruct (processCSV_commits_before_inserts true Paused.batchSize false
              (sample_env (sample_rows 180) (sample_rows 3) never_fails)
              customers_csv "customers" (csv_of (sample_rows 180))
              provisioned_world
              ltac:(unfold Paused.batchSize; lia) eq_refl eq_refl
              (table_for [("Index", Some T_int); ("Name", Some T_string)])
              eq_refl) as [_ H].
  destruct H as (H1 & _ & H3).
  - vm_compute. reflexivity.
  - vm_compute. lia.
  - reflexivity.
  - intros k. reflexivity.
  - split; [exact H1|exact H3].
Defined.

(** The loader of the version with the guard on a file of 20 rows: two
    batches of ten are started, the commit is the only statement that
    reaches the store, and the table is left empty. *)
Lemma processCSV_batches_witness :
  map length
      (EventLoop.issued
         (listeners false Guarded.batchSize
            (sample_env (sample_rows 20) (sample_rows 3) never_fails)
            (csv_of (sample_rows 20))))
  = batch_sizes Guarded.batchSize 20 /\
  oplog (processCSV_with false Guarded.batchSize true
           (sample_env (sample_rows 20) (sample_rows 3) never_fails)
           customers_csv "customers" provisioned_world).2
  = oplog provisioned_world ++ [OpCommit] /\
  row_count (processCSV_with false Guarded.batchSize true
               (sample_env (sample_rows 20) (sample_rows 3) never_fails)
               customers_csv "customers" provisioned_world).2 "customers"
  < row_count provisioned_world "customers" + 20.
Proof.
  destruct (processCSV_batches false Guarded.batchSize true
              (sample_env (sample_rows 20) (sample_rows 3) never_fails)
              customers_csv "customers" (csv_of (sample_rows 20))
              provisioned_world
              ltac:(unfold Guarded.batchSize; lia) eq_refl eq_refl)
    as (_ & _ & Hsizes & _ & Hcommit).
  split; [exact Hsizes|].
  destruct (Hcommit
              (table_for [("Index", Some T_int); ("Name", Some T_string)])
              eq_refl ltac:(intros k; reflexivity))
    as (j & _ & Hops & _ & _ & Hwhole).
  destruct Hwhole as [Hj Hless].
  - vm_compute. reflexivity.
  - vm_compute. lia.
  - reflexivity.
  - split; [|exact Hless]. rewrite Hops, Hj. reflexivity.
Defined.

(** The loader of [challenge.ts] on a file of 180 rows and a table that
    holds one row. *)
Lemma processCSV_appends_prefix_witness :
  (processCSV_with true Paused.batchSize false
     (sample_env (sample_rows 180) (sample_rows 3) never_fails)
     customers_csv "customers" partial_world).1 = Js.Resolved tt /\
  exists j,
    j <= length (batches Paused.batchSize (sample_rows 180)) /\
    tables (processCSV_with true Paused.batchSize false
              (sample_env (sample_rows 180) (sample_rows 3) never_fails)
              customers_csv "customers" partial_world).2
    = <["customers" :=
          append_rows
            (concat (take j (batches Paused.batchSize (sample_rows 180))))
            (loaded_table 1)]>
        (tables partial_world) /\
    (exists rest,
        sample_rows 180
        = concat (take j (batches Paused.batchSize (sample_rows 180)))
            ++ rest) /\
    (true = true ->
     length (batches Paused.batchSize (sample_rows 180)) <= j + 1).
Proof.
  apply (processCSV_appends_prefix true Paused.batchSize false
           (sample_env (sample_rows 180) (sample_rows 3) never_fails)
           customers_csv "customers" (csv_of (sample_rows 180)) partial_world
           ltac:(unfold Paused.batchSize; lia) eq_refl eq_refl
           (loaded_table 1)).
  - reflexivity.
  - intros k. reflexivity.
Defined.

(** A file the parser gives up on after twelve rows: the first batch of ten
    is rolled back. *)
Lemma processCSV_parser_error_witness :
  (processCSV_with false Guarded.batchSize true truncated_env customers_csv
                   "customers" provisioned_world).1 = Js.Resolved tt /\
  tables (processCSV_with false Guarded.batchSize true truncated_env
            customers_csv "customers" provisioned_world).2
  = tables provisioned_world /\
  exists e', console (processCSV_with false Guarded.batchSize true
                        truncated_env customers_csv "customers"
                        provisioned_world).2
             = console provisioned_world
               ++ ["An error occurred while processing the CSV: "
                     +:+ Js.show_error e'].
Proof.
  apply (processCSV_parser_error false Guarded.batchSize true truncated_env
           customers_csv "customers" truncated_csv provisioned_world eq_refl
           (Js.LibError "fast-csv"
              "Unexpected Error: column header mismatch expected: 2 columns got: 3")).
  reflexivity.
Defined.

(** A load of 20 rows into a store without tables by the version with
    the guard: nothing is reported, and the line printed is 0. *)
Lemma processCSV_missing_table_witness :
  console (processCSV_with false Guarded.batchSize true
             (sample_env (sample_rows 20) (sample_rows 3) never_fails)
             customers_csv "customers" empty_world).2
  = console empty_world ++ ["0"].
Proof.
  destruct (processCSV_missing_table false Guarded.batchSize true
              (sample_env (sample_rows 20) (sample_rows 3) never_fails)
              customers_csv "customers" (csv_of (sample_rows 20)) empty_world
              ltac:(unfold Guarded.batchSize; lia) eq_refl eq_refl eq_refl)
    as (_ & _ & _ & H).
  apply H.
  - vm_compute. reflexivity.
  - reflexivity.
  - reflexivity.
Defined.

(** A file with its header line only. *)
Lemma processCSV_empty_file_witness :
  (processCSV_with false Guarded.batchSize true
                   (sample_env [] (sample_rows 3) never_fails) customers_csv
                   "customers" empty_world).1 = Js.Resolved tt /\
  tables (processCSV_with false Guarded.batchSize true
                          (sample_env [] (sample_rows 3) never_fails)
                          customers_csv "customers" empty_world).2
  = tables empty_world /\
  oplog (processCSV_with false Guarded.batchSize true
                         (sample_env [] (sample_rows 3) never_fails)
                         customers_csv "customers" empty_world).2
  = oplog empty_world ++ [OpCommit].
Proof.
  apply (processCSV_empty_file false Guarded.batchSize true
           (sample_env [] (sample_rows 3) never_fails) customers_csv
           "customers" (csv_of []) empty_world eq_refl).
  - reflexivity.
  - reflexivity.
Defined.

(** 25 rows in batches of 10: the line printed is 5. *)
Lemma processCSV_logged_count_witness :
  console (processCSV_with false Guarded.batchSize true first_run_env
             customers_csv "customers" provisioned_world).2
  = console provisioned_world ++ ["5"].
Proof.
  apply (processCSV_logged_count false Guarded.batchSize true first_run_env
           customers_csv "customers" (csv_of (sample_rows 25))
           provisioned_world
           ltac:(unfold Guarded.batchSize; lia) eq_refl eq_refl
           (table_for [("Index", Some T_int); ("Name", Some T_string)])).
  - reflexivity.
  - intros k. reflexivity.
Defined.

(** The loads of the two versions, evaluated.  The version with the
    guard commits nothing of a file of 20 rows and all of a file of 25;
    the loader of [challenge.ts] commits 90 rows of a file of 180 and
    nothing of a file of 90; when every insert settles before the next
    event is delivered, nothing is lost. *)
Example loads_evaluated :
  row_count (processCSV_with false Guarded.batchSize true
               (sample_env (sample_rows 20) [] never_fails)
               customers_csv "customers" provisioned_world).2 "customers"
  = 0 /\
  row_count (processCSV_with false Guarded.batchSize true
               (sample_env (sample_rows 25) [] never_fails)
               customers_csv "customers" provisioned_world).2 "customers"
  = 25 /\
  row_count (processCSV_with true Paused.batchSize false
               (sample_env (sample_rows 180) [] never_fails)
               customers_csv "customers" provisioned_world).2 "customers"
  = 90 /\
  row_count (processCSV_with true Paused.batchSize false
               (sample_env (sample_rows 90) [] never_fails)
               customers_csv "customers" provisioned_world).2 "customers"
  = 0 /\
  row_count (processCSV_with false Guarded.batchSize true
               (sample_env_under store_first (sample_rows 20) [] never_fails)
               customers_csv "customers" provisioned_world).2 "customers"
  = 20.
Proof. vm_compute. repeat split. Qed.
(* ===================================================================== *)
(** * Properties of the guard and of the entry point                      *)
(* ===================================================================== *)

Lemma countRowsInCSV_length fs filePath stream :
  fs !! filePath = Some stream ->
  stream_error stream = None ->
  countRowsInCSV fs filePath = Js.Resolved (length (stream_rows stream)).
Proof.
  intros Hf Hend. unfold countRowsInCSV. rewrite Hf, Hend. f_equal.
  assert (H : forall (rs : list Row) k, fold_left (fun n _ => S n) rs k
                                        = length rs + k).
  { induction rs as [|r rs IH]; intros k; simpl; [reflexivity|].
    rewrite IH. lia. }
  rewrite H. lia.
Qed.

(** What the guard does when both tables exist and both files can be
    read: it throws as soon as a table holds as many rows as its file,
    and answers [true] when both tables differ from their files. *)
Lemma checkAndVerifyTables_both_exist env w tc to sc so :
  tables w !! "customers" = Some tc ->
  tables w !! "organizations" = Some to ->
  files env !! customers_csv = Some sc ->
  files env !! organizations_csv = Some so ->
  stream_error sc = None ->
  stream_error so = None ->
  Guarded.checkAndVerifyTables env w
  = if (length (body tc) =? length (stream_rows sc))%nat
    then (Js.Rejected
            (Js.AssertionError "customer count in db != customer count in csv"),
          w)
    else if (length (body to) =? length (stream_rows so))%nat
    then (Js.Rejected
            (Js.AssertionError
               "organization count in db != organization count in csv"),
          w)
    else (Js.Resolved true,
          print "Required tables 'customers' and 'organizations' already exist and have the required amount of rows." w).
Proof.
  intros Hc Ho Hfc Hfo Hec Heo.
  unfold Guarded.checkAndVerifyTables, await, Promise_all, checkTableExistence,
    countRowsInTable, lift.
  rewrite Hc, Ho, (countRowsInCSV_length _ _ _ Hfc Hec),
    (countRowsInCSV_length _ _ _ Hfo Heo).
  simpl. rewrite Hc, Ho. simpl.
  destruct (length (body tc) =? length (stream_rows sc))%nat; simpl;
    [reflexivity|].
  destruct (length (body to) =? length (stream_rows so))%nat; reflexivity.
Qed.

(** What the guard does when a table is missing: no count is taken. *)
Lemma checkAndVerifyTables_missing env w :
  tables w !! "customers" = None \/ tables w !! "organizations" = None ->
  Guarded.checkAndVerifyTables env w = (Js.Resolved false, w).
Proof.
  intros H.
  unfold Guarded.checkAndVerifyTables, await, Promise_all, checkTableExistence.
  destruct H as [H|H]; rewrite H; simpl.
  - reflexivity.
  - now destruct (bool_decide _).
Qed.

Section Guard.

Variable env : Env.
Variable w : World.
Variables tc to : Table.
Variables sc so : CsvStream.

Hypothesis Hcustomers : tables w !! "customers" = Some tc.
Hypothesis Horganizations : tables w !! "organizations" = Some to.
Hypothesis Hcustomers_csv : files env !! customers_csv = Some sc.
Hypothesis Horganizations_csv : files env !! organizations_csv = Some so.
Hypothesis Hcustomers_read : stream_error sc = None.
Hypothesis Horganizations_read : stream_error so = None.

(** C1, what the code does: with both tables present, equal counts make
    [checkAndVerifyTables] throw the assertion error whose message reads
    "count in db != count in csv", and counts that differ for both
    datasets make it report the tables as complete and answer [true]
    (skip) -- the reverse of the guard the design document describes. *)
Theorem checkAndVerifyTables_inverted :
  (length (body tc) = length (stream_rows sc) ->
   Guarded.checkAndVerifyTables env w
   = (Js.Rejected
        (Js.AssertionError "customer count in db != customer count in csv"),
      w)) /\
  (length (body tc) <> length (stream_rows sc) ->
   length (body to) <> length (stream_rows so) ->
   Guarded.checkAndVerifyTables env w
   = (Js.Resolved true,
      print "Required tables 'customers' and 'organizations' already exist and have the required amount of rows." w)).
Proof.
  rewrite (checkAndVerifyTables_both_exist env w tc to sc so) by assumption.
  split.
  - intros ->. now rewrite Nat.eqb_refl.
  - intros Hc Ho.
    apply Nat.eqb_neq in Hc, Ho. now rewrite Hc, Ho.
Qed.

End Guard.

Example first_run_loads_everything :
  (Guarded.processDataDump first_run_env empty_world).1 = Js.Resolved tt /\
  tables loaded_world !! "customers" = Some (loaded_table 25) /\
  tables loaded_world !! "organizations" = Some (loaded_table 3) /\
  oplog loaded_world
  = [OpCreateTable "customers"; OpCreateTable "organizations";
     OpBatchInsert "customers" 10; OpBatchInsert "customers" 10;
     OpBatchInsert "customers" 5; OpCommit;
     OpBatchInsert "organizations" 3; OpCommit].
Proof. vm_compute. repeat split. Qed.

(** Witness for C1: on the store a complete first run leaves behind,
    checked against the same files (25 = 25), the guard throws; on a
    store that holds one row per table (1 <> 25, 1 <> 3) it answers
    [true]. *)
Lemma checkAndVerifyTables_inverted_witness :
  Guarded.checkAndVerifyTables first_run_env loaded_world
  = (Js.Rejected
       (Js.AssertionError "customer count in db != customer count in csv"),
     loaded_world) /\
  Guarded.checkAndVerifyTables first_run_env partial_world
  = (Js.Resolved true,
     print "Required tables 'customers' and 'organizations' already exist and have the required amount of rows." partial_world).
Proof.
  split.
  - destruct (checkAndVerifyTables_inverted first_run_env loaded_world
                (loaded_table 25) (loaded_table 3)
                (csv_of (sample_rows 25)) (csv_of (sample_rows 3))
                eq_refl eq_refl eq_refl eq_refl eq_refl eq_refl)
      as [Hequal _].
    apply Hequal. reflexivity.
  - destruct (checkAndVerifyTables_inverted first_run_env partial_world
                (loaded_table 1) (loaded_table 1)
                (csv_of (sample_rows 25)) (csv_of (sample_rows 3))
                eq_refl eq_refl eq_refl eq_refl eq_refl eq_refl)
      as [_ Hdiffer].
    apply Hdiffer; vm_compute; lia.
Defined.

(** The guard on a complete store, evaluated: it throws. *)
Example guard_throws_on_complete_store :
  (Guarded.checkAndVerifyTables first_run_env loaded_world).1
  = Js.Rejected
      (Js.AssertionError "customer count in db != customer count in csv").
Proof. reflexivity. Qed.

(** The guard on a store that holds one customer and one organization
    against files of 25 and 3 rows, evaluated: it answers [true]. *)
Example guard_skips_on_partial_store :
  (Guarded.checkAndVerifyTables first_run_env partial_world).1
  = Js.Resolved true.
Proof. reflexivity. Qed.

(** ** Rerunning the pipeline *)

Ltac case_outcome :=
  match goal with
  | |- context [infer_on_end ?h ?rs] => destruct (infer_on_end h rs)
  end.

Lemma catch_rethrow (t : Task unit) (w : World) :
  catch t rethrow w
  = (match (t w).1 with
     | Js.Rejected e =>
         Js.Rejected (Js.Error ("An error occurred: " +:+ Js.show_error e))
     | other => other
     end, (t w).2).
Proof. unfold catch, rethrow, throw. now destruct (t w) as [[a|e|e] w']. Qed.

(** A run of the guarded pipeline on a complete store changes no table
    and sends the store nothing. *)
Lemma guarded_run_on_loaded_store (env : Env) (w : World) :
  fully_loaded env w ->
  tables (Guarded.processDataDump env w).2 = tables w /\
  oplog (Guarded.processDataDump env w).2 = oplog w.
Proof.
  intros (tc & to & sc & so & Hc & Ho & Hfc & Hfo & Hnc & Hno).
  unfold Guarded.processDataDump. rewrite catch_rethrow. simpl.
  unfold await, say, may_fail, stage, ret, throw, lift, Promise_all,
    inferColumnTypes.
  rewrite Hfc, Hfo. simpl.
  destruct (mkdir_error env); simpl; [now split|].
  destruct (download_error env) as [[e|e]|]; simpl; [now split|now split|].
  destruct (extract_error env) as [[e|e]|]; simpl; [now split|now split|].
  destruct (stream_error sc) eqn:Hec; simpl.
  { destruct (stream_error so); [now split|]. now case_outcome. }
  destruct (stream_error so) eqn:Heo; simpl.
  { now case_outcome. }
  do 2 (case_outcome; simpl; try now split).
  match goal with
  | |- context [Guarded.checkAndVerifyTables env ?w1] =>
      rewrite (checkAndVerifyTables_both_exist env w1 tc to sc so)
        by assumption
  end.
  rewrite Hnc, Nat.eqb_refl. now split.
Qed.

(** C3: on a store whose two tables are already complete, a run of the
    guarded pipeline against the same files leaves every table as it was,
    hence every row count, and sends the store no statement at all: no
    table creation, no insert.  (It does so by way of the guard's
    assertion, see C1: the run ends with an error, not with a skip.) *)
Theorem rerun_changes_nothing (env : Env) (w : World) :
  fully_loaded env w ->
  tables (Guarded.processDataDump env w).2 = tables w /\
  (forall tableName,
      row_count (Guarded.processDataDump env w).2 tableName
      = row_count w tableName) /\
  oplog (Guarded.processDataDump env w).2 = oplog w.
Proof.
  intros Hloaded.
  destruct (guarded_run_on_loaded_store env w Hloaded) as [Ht Hl].
  repeat split; try assumption.
  intros tableName. unfold row_count. now rewrite Ht.
Qed.

(** Witness for C3: the second of two runs over the same files. *)
Lemma rerun_changes_nothing_witness :
  tables (Guarded.processDataDump first_run_env loaded_world).2
  = tables loaded_world /\
  (forall tableName,
      row_count (Guarded.processDataDump first_run_env loaded_world).2 tableName
      = row_count loaded_world tableName) /\
  oplog (Guarded.processDataDump first_run_env loaded_world).2
  = oplog loaded_world.
Proof.
  apply (rerun_changes_nothing first_run_env loaded_world).
  exists (loaded_table 25), (loaded_table 3),
    (csv_of (sample_rows 25)), (csv_of (sample_rows 3)).
  repeat split; reflexivity.
Defined.

(** The second run, evaluated: 25 and 3 rows as before, and the error the
    caller receives. *)
Example second_run_outcome :
  (Guarded.processDataDump first_run_env loaded_world).1
  = Js.Rejected
      (Js.Error "An error occurred: AssertionError [ERR_ASSERTION]: customer count in db != customer count in csv") /\
  row_count (Guarded.processDataDump first_run_env loaded_world).2 "customers"
  = 25 /\
  row_count (Guarded.processDataDump first_run_env loaded_world).2
            "organizations" = 3.
Proof. vm_compute. repeat split. Qed.


(** ** Which errors reach the caller *)

(** Case analysis on a scrutinee that contains no further [match]. *)
Ltac innermost_case :=
  match goal with
  | |- context [match ?x with _ => _ end] =>
      lazymatch x with
      | context [match _ with _ => _ end] => fail
      | _ => destruct x eqn:?
      end
  end.

(** [processDataDump] is its stages before the load followed, unless the
    guard asked to skip, by the load, the whole inside the [try] block. *)
Lemma processDataDump_stages v env w :
  processDataDump_of v env w
  = catch (let! skip := before_load v env in
           if skip : bool then ret tt else load v env) rethrow w.
Proof.
  destruct v; simpl; unfold Paused.processDataDump, Guarded.processDataDump,
    before_load, load, catch, await, say, may_fail, stage, ret, throw, lift,
    Promise_all; simpl;
    repeat (innermost_case; simpl in *; try reflexivity; try congruence).
Qed.

Lemma load_outcome v env w :
  (load v env w).1
  = match files env !! customers_csv, files env !! organizations_csv with
    | Some _, Some _ => Js.Resolved tt
    | _, _ => Js.Uncaught (Js.LibError "fs" "ENOENT: no such file or directory")
    end.
Proof.
  destruct v; unfold load, await, ret, Paused.processCSV, Guarded.processCSV.
  - pose proof (processCSV_outcome true Paused.batchSize false env
                  customers_csv "customers" w) as H1.
    destruct (processCSV_with _ _ _ _ customers_csv _ _) as [o1 w1].
    simpl in H1. subst o1. destruct (files env !! customers_csv); simpl.
    + now rewrite processCSV_outcome.
    + reflexivity.
  - pose proof (processCSV_outcome false Guarded.batchSize true env
                  customers_csv "customers" w) as H1.
    destruct (processCSV_with _ _ _ _ customers_csv _ _) as [o1 w1].
    simpl in H1. subst o1. destruct (files env !! customers_csv); simpl.
    + pose proof (processCSV_outcome false Guarded.batchSize true env
                    organizations_csv "organizations" w1) as H2.
      destruct (processCSV_with _ _ _ _ organizations_csv _ _) as [o2 w2].
      simpl in H2. subst o2. now destruct (files env !! organizations_csv).
    + reflexivity.
Qed.

Section ErrorSurface.

Variable v : Version.
Variable env : Env.
Variable w : World.

(** C4 (amended): every rejection of [processDataDump] is the error
    [Error("An error occurred: " + err)] built by its [catch] block from
    an error [err] with which a stage before the loads was rejected
    (directory, download, extraction, type inference, guard, table
    creation); every rejection of such a stage is re-raised in that
    form; once the loads have started the promise is never rejected;
    and whether and how the promise settles is the same whatever the
    store answers to the inserts. *)
Theorem processDataDump_error_surface :
  (forall e,
      (processDataDump_of v env w).1 = Js.Rejected e ->
      exists err, e = wrapped err /\ (before_load v env w).1 = Js.Rejected err) /\
  (forall err,
      (before_load v env w).1 = Js.Rejected err ->
      (processDataDump_of v env w).1 = Js.Rejected (wrapped err)) /\
  ((before_load v env w).1 = Js.Resolved false ->
   forall e, (processDataDump_of v env w).1 <> Js.Rejected e) /\
  (forall fail,
      (processDataDump_of v (with_insert_error fail env) w).1
      = (processDataDump_of v env w).1).
Proof.
  assert (Hrun : forall env',
             (processDataDump_of v env' w).1
             = match (before_load v env' w).1 with
               | Js.Resolved true => Js.Resolved tt
               | Js.Resolved false => (load v env' (before_load v env' w).2).1
               | Js.Rejected err => Js.Rejected (wrapped err)
               | Js.Uncaught err => Js.Uncaught err
               end).
  { intros env'. rewrite processDataDump_stages, catch_rethrow. simpl.
    unfold await at 1. destruct (before_load v env' w) as [[b|e|e] w1]; simpl;
      try reflexivity.
    destruct b; simpl; [reflexivity|].
    rewrite load_outcome. now repeat innermost_case. }
  repeat split.
  - intros e He. rewrite Hrun in He.
    destruct ((before_load v env w).1) as [b|err|err] eqn:Hb.
    + destruct b; [discriminate|]. rewrite load_outcome in He.
      destruct (files env !! customers_csv), (files env !! organizations_csv);
        discriminate.
    + injection He as <-. eauto.
    + discriminate.
  - intros err Hb. now rewrite Hrun, Hb.
  - intros Hb e He. rewrite Hrun, Hb, load_outcome in He.
    destruct (files env !! customers_csv), (files env !! organizations_csv);
      discriminate.
  - intros fail. rewrite !Hrun.
    change (before_load v (with_insert_error fail env) w)
      with (before_load v env w).
    destruct ((before_load v env w).1) as [[|]|err|err]; try reflexivity.
    now rewrite !load_outcome.
Qed.

End ErrorSurface.

(** C4 as stated fails, in both versions: the load of [customers] fails
    and is rolled back, and [processDataDump] resolves. *)
Lemma load_failure_is_not_reraised :
  ~ reraises_load_failures Guarded.processDataDump /\
  ~ reraises_load_failures Paused.processDataDump.
Proof.
  split; intros H.
  - destruct (H failing_load_env empty_world) as [e He].
    + apply not_elem_of_nil.
    + vm_compute. repeat constructor.
    + vm_compute in He. discriminate He.
  - destruct (H failing_load_env empty_world) as [e He].
    + apply not_elem_of_nil.
    + vm_compute. repeat constructor.
    + vm_compute in He. discriminate He.
Qed.

(** The same run, evaluated for the guarded version. *)
Example failed_load_reported_as_success :
  let r := Guarded.processDataDump failing_load_env empty_world in
  r.1 = Js.Resolved tt /\
  row_count r.2 "customers" = 0 /\
  row_count r.2 "organizations" = 3 /\
  console r.2
  = ["Ensuring directory exists for SQLite database...";
     "Directory check complete.";
     "An error occurred while processing the CSV: Error: SQLITE_FULL: database or disk is full";
     "3"].
Proof. vm_compute. repeat split. Qed.

(** An error before the load, evaluated: the download fails, and the
    caller receives the wrapped error. *)
Example download_failure_is_reraised :
  (Guarded.processDataDump offline_env empty_world).1
  = Js.Rejected
      (Js.Error "An error occurred: Error: connect ECONNREFUSED 127.0.0.1:443").
Proof. reflexivity. Qed.

(** ** A run in which nothing fails *)

Lemma inferColumnTypes_resolves host fs filePath stream :
  fs !! filePath = Some stream ->
  stream_error stream = None ->
  stream_rows stream <> [] ->
  exists schema,
    inferColumnTypes host fs filePath default_sampleSize = Js.Resolved schema.
Proof.
  intros Hf Hend Hne. unfold inferColumnTypes.
  rewrite Hf, Hend, sample_is_prefix.
  destruct (stream_rows stream) as [|r rs]; [contradiction|].
  simpl. eauto.
Qed.

(** The schema has the column names of the first row. *)
Lemma inferColumnTypes_keys host fs filePath stream first rest :
  fs !! filePath = Some stream ->
  stream_error stream = None ->
  stream_rows stream = first :: rest ->
  List.NoDup (Object_keys first) ->
  exists schema,
    inferColumnTypes host fs filePath default_sampleSize = Js.Resolved schema /\
    Object_keys schema = Object_keys first.
Proof.
  intros Hf Hend Hrows Hnd. unfold inferColumnTypes.
  rewrite Hf, Hend, sample_is_prefix, Hrows.
  unfold default_sampleSize. cbn [take infer_on_end].
  eexists. split; [reflexivity|]. now apply infer_on_end_keys.
Qed.

(** [CREATE TABLE] for a table that is not there, with column names the
    store accepts. *)
Lemma setupDatabase_creates env schema tableName w :
  tables w !! tableName = None ->
  duplicate_column [] ("id" :: Object_keys schema) = None ->
  create_error env tableName = None ->
  setupDatabase env schema tableName w
  = (Js.Resolved tt,
     {| tables := <[tableName := table_for schema]> (tables w);
        oplog := oplog w ++ [OpCreateTable tableName];
        console := console w |}).
Proof.
  intros Hno Hcols Hcreate. unfold setupDatabase, issue, set_tables.
  cbn [tables oplog console]. now rewrite Hno, Hcols, Hcreate.
Qed.

(** [CREATE TABLE] for a table that is there. *)
Lemma setupDatabase_refused env schema tableName w :
  is_Some (tables w !! tableName) ->
  setupDatabase env schema tableName w
  = (Js.Rejected (store_error env (TableExists tableName)),
     issue (OpCreateTable tableName) w).
Proof.
  intros [t Ht]. unfold setupDatabase, issue. cbn [tables]. now rewrite Ht.
Qed.

Lemma prelude_ok env :
  prelude_error env = None ->
  mkdir_error env = None /\ download_error env = None /\
  extract_error env = None.
Proof.
  unfold prelude_error.
  destruct (mkdir_error env); [discriminate|].
  destruct (download_error env); [discriminate|]. now repeat split.
Qed.

Section CleanRun.

Variable v : Version.
Variable env : Env.
Variable w : World.
Variables sc so : CsvStream.
Variables (first_c first_o : Row) (rest_c rest_o : list Row).

Hypothesis Hprelude : prelude_error env = None.
Hypothesis Hcustomers_csv : files env !! customers_csv = Some sc.
Hypothesis Horganizations_csv : files env !! organizations_csv = Some so.
Hypothesis Hcustomers_read : stream_error sc = None.
Hypothesis Horganizations_read : stream_error so = None.
Hypothesis Hcustomers_rows : stream_rows sc = first_c :: rest_c.
Hypothesis Horganizations_rows : stream_rows so = first_o :: rest_o.
Hypothesis Hcustomers_columns : columns_accepted first_c.
Hypothesis Horganizations_columns : columns_accepted first_o.
Hypothesis Hno_customers : tables w !! "customers" = None.
Hypothesis Hno_organizations : tables w !! "organizations" = None.
Hypothesis Hcreate : forall t, create_error env t = None.

(** Up to the loads, such a run creates the two tables, empty, and
    touches nothing else. *)
Lemma clean_run_stages :
  exists tyc tyo w1,
    processDataDump_of v env w
    = catch (load v env) rethrow w1 /\
    tables w1
    = <["organizations" := table_for tyo]>
        (<["customers" := table_for tyc]> (tables w)) /\
    oplog w1
    = oplog w ++ [OpCreateTable "customers"; OpCreateTable "organizations"].
Proof.
  destruct (prelude_ok env Hprelude) as (Hm & Hd & Hx).
  assert (Hnc : List.NoDup (Object_keys first_c)).
  { apply duplicate_column_distinct in Hcustomers_columns as [Hnd _].
    now apply List.NoDup_cons_iff in Hnd as [_ Hnd]. }
  assert (Hno : List.NoDup (Object_keys first_o)).
  { apply duplicate_column_distinct in Horganizations_columns as [Hnd _].
    now apply List.NoDup_cons_iff in Hnd as [_ Hnd]. }
  destruct (inferColumnTypes_keys (host_date_parse env) _ _ _ _ _
              Hcustomers_csv Hcustomers_read Hcustomers_rows Hnc)
    as (tyc & Hc & Hkc).
  destruct (inferColumnTypes_keys (host_date_parse env) _ _ _ _ _
              Horganizations_csv Horganizations_read Horganizations_rows Hno)
    as (tyo & Ho & Hko).
  exists tyc, tyo.
  assert (Hb : exists w1,
             before_load v env w = (Js.Resolved false, w1) /\
             tables w1
             = <["organizations" := table_for tyo]>
                 (<["customers" := table_for tyc]> (tables w)) /\
             oplog w1
             = oplog w
               ++ [OpCreateTable "customers"; OpCreateTable "organizations"]).
  { unfold columns_accepted in Hcustomers_columns, Horganizations_columns.
    rewrite <- Hkc in Hcustomers_columns.
    rewrite <- Hko in Horganizations_columns.
    unfold before_load, await, say, may_fail, stage, ret, throw, lift,
      Promise_all.
    rewrite Hm, Hd, Hx, Hc, Ho. cbn [print tables oplog console fst snd].
    destruct v.
    - rewrite setupDatabase_creates;
        [|exact Hno_customers|exact Hcustomers_columns|apply Hcreate].
      rewrite setupDatabase_creates;
        [|cbn [tables]; now rewrite lookup_insert_ne
         |exact Horganizations_columns|apply Hcreate].
      eexists. split; [reflexivity|]. cbn [tables oplog].
      split; [reflexivity|]. now rewrite <- app_assoc.
    - rewrite checkAndVerifyTables_missing by (now left).
      rewrite setupDatabase_creates;
        [|exact Hno_customers|exact Hcustomers_columns|apply Hcreate].
      rewrite setupDatabase_creates;
        [|cbn [tables]; now rewrite lookup_insert_ne
         |exact Horganizations_columns|apply Hcreate].
      eexists. split; [reflexivity|]. cbn [tables oplog].
      split; [reflexivity|]. now rewrite <- app_assoc. }
  destruct Hb as (w1 & Hb & Ht & Hl). exists w1.
  split; [|now split].
  rewrite processDataDump_stages. unfold catch, await. now rewrite Hb.
Qed.

End CleanRun.

(** ** The two loads of a run *)

Lemma load_unfold v env w :
  load v env w
  = (do! processCSV_of v env customers_csv "customers" in
     processCSV_of v env organizations_csv "organizations") w.
Proof.
  destruct v; unfold load, processCSV_of, Paused.processCSV,
    Guarded.processCSV, await, ret; simpl; [reflexivity|].
  destruct (processCSV_with _ _ _ _ customers_csv _ _) as [[[]|e|e] w1];
    try reflexivity.
  destruct (processCSV_with _ _ _ _ organizations_csv _ _) as [[[]|e|e] w2];
    reflexivity.
Qed.

(** Two loads that go through, each adding rows to its own table. *)
Lemma load_tables v env w tbo (ac ao : list Row) (tbc : Table) :
  tables w !! "organizations" = Some tbo ->
  (let r := processCSV_of v env customers_csv "customers" w in
   r.1 = Js.Resolved tt /\
   tables r.2 = <["customers" := append_rows ac tbc]> (tables w)) ->
  (forall w',
      tables w' !! "organizations" = Some tbo ->
      let r := processCSV_of v env organizations_csv "organizations" w' in
      r.1 = Js.Resolved tt /\
      tables r.2 = <["organizations" := append_rows ao tbo]> (tables w')) ->
  (load v env w).1 = Js.Resolved tt /\
  tables (load v env w).2
  = <["organizations" := append_rows ao tbo]>
      (<["customers" := append_rows ac tbc]> (tables w)).
Proof.
  intros Ho Hc Hload. cbv zeta in Hc. rewrite load_unfold. unfold await.
  destruct (processCSV_of v env customers_csv "customers" w) as [o1 w1].
  cbn [fst snd] in Hc. destruct Hc as [-> Ht1].
  destruct (Hload w1) as [H1 H2].
  { now rewrite Ht1, lookup_insert_ne. }
  split; [exact H1|]. now rewrite H2, Ht1.
Qed.




Lemma batchSize_of_pos v : 0 < batchSize_of v.
Proof. destruct v; unfold batchSize_of, Paused.batchSize, Guarded.batchSize; lia. Qed.

Section Runs.

Variable v : Version.
Variable env : Env.
Variable w : World.
Variables sc so : CsvStream.
Variables (first_c first_o : Row) (rest_c rest_o : list Row).

Hypothesis Hprelude : prelude_error env = None.
Hypothesis Hcustomers_csv : files env !! customers_csv = Some sc.
Hypothesis Horganizations_csv : files env !! organizations_csv = Some so.
Hypothesis Hcustomers_read : stream_error sc = None.
Hypothesis Horganizations_read : stream_error so = None.
Hypothesis Hcustomers_rows : stream_rows sc = first_c :: rest_c.
Hypothesis Horganizations_rows : stream_rows so = first_o :: rest_o.
Hypothesis Hcustomers_columns : columns_accepted first_c.
Hypothesis Horganizations_columns : columns_accepted first_o.
Hypothesis Hno_customers : tables w !! "customers" = None.
Hypothesis Hno_organizations : tables w !! "organizations" = None.
Hypothesis Hcreate : forall t, create_error env t = None.
Hypothesis Hinserts : forall t k, insert_error env t k = None.
Hypothesis Horganizations_count :
  length (stream_rows so) mod batchSize_of v <> 0.

Let r := processDataDump_of v env w.

(** A run in which nothing fails and in which the load of [customers]
    commits the rows [ac]. *)
Lemma run_tables (ac : list Row) :
  (forall w' tb,
      tables w' !! "customers" = Some tb ->
      let r := processCSV_of v env customers_csv "customers" w' in
      r.1 = Js.Resolved tt /\
      tables r.2 = <["customers" := append_rows ac tb]> (tables w')) ->
  r.1 = Js.Resolved tt /\
  (exists tc, tables r.2 !! "customers" = Some tc /\ body tc = ac) /\
  (exists to, tables r.2 !! "organizations" = Some to /\
              body to = stream_rows so) /\
  (forall other, other <> "customers" -> other <> "organizations" ->
                 tables r.2 !! other = tables w !! other).
Proof.
  intros Hc.
  destruct (clean_run_stages v env w sc so first_c first_o rest_c rest_o)
    as (tyc & tyo & w1 & Hrun & Ht1 & _); try assumption.
  destruct (load_tables v env w1 (table_for tyo) ac (stream_rows so)
              (table_for tyc)) as [Hres Htab].
  - now rewrite Ht1, lookup_insert_eq.
  - apply Hc. rewrite Ht1, lookup_insert_ne by done. apply lookup_insert_eq.
  - intros w' Hw'.
    destruct (processCSV_success (pauses_of v) (batchSize_of v)
                (log_count_of v) env organizations_csv "organizations" so w'
                (table_for tyo) (batchSize_of_pos v) Horganizations_csv
                Horganizations_read Horganizations_count Hw'
                (Hinserts "organizations")) as (H1 & H2 & _).
    now split.
  - unfold r. rewrite Hrun. unfold catch.
    destruct (load v env w1) as [o w2]. cbn [fst snd] in *. subst o.
    cbn [fst snd].
    split; [reflexivity|]. rewrite Htab, Ht1. repeat split.
    + eexists. rewrite lookup_insert_ne, lookup_insert_eq by done.
      split; [reflexivity|]. reflexivity.
    + eexists. rewrite lookup_insert_eq. split; [reflexivity|]. reflexivity.
    + intros other H1 H2. now rewrite !lookup_insert_ne.
Qed.

(** X18: a run in which nothing fails, on a store that has neither
    table, with two files whose column names the store accepts and whose
    numbers of rows are not multiples of the batch size, resolves and
    leaves in each table exactly the rows of its file, in file order;
    this holds of both versions of the pipeline, whatever the order in
    which the runtime delivers rows and settles inserts. *)
Theorem processDataDump_clean_run :
  length (stream_rows sc) mod batchSize_of v <> 0 ->
  r.1 = Js.Resolved tt /\
  (exists tc, tables r.2 !! "customers" = Some tc /\
              body tc = stream_rows sc) /\
  (exists to, tables r.2 !! "organizations" = Some to /\
              body to = stream_rows so).
Proof.
  intros Hcount.
  destruct (run_tables (stream_rows sc)) as (H1 & H2 & H3 & _).
  - intros w' tb Hw'.
    destruct (processCSV_success (pauses_of v) (batchSize_of v)
                (log_count_of v) env customers_csv "customers" sc w'
                tb (batchSize_of_pos v) Hcustomers_csv
                Hcustomers_read Hcount Hw' (Hinserts "customers"))
      as (Ha & Hb & _).
    now split.
  - now repeat split.
Qed.


End Runs.

(** The first run of [challenge.ts] on an empty store: 25 and 3 rows. *)
Lemma processDataDump_clean_run_witness :
  (processDataDump_of PausedVersion first_run_env empty_world).1
  = Js.Resolved tt /\
  (exists tc,
      tables (processDataDump_of PausedVersion first_run_env empty_world).2
        !! "customers" = Some tc /\
      body tc = sample_rows 25) /\
  (exists to,
      tables (processDataDump_of PausedVersion first_run_env empty_world).2
        !! "organizations" = Some to /\
      body to = sample_rows 3).
Proof.
  apply (processDataDump_clean_run PausedVersion first_run_env empty_world
           (csv_of (sample_rows 25)) (csv_of (sample_rows 3))
           [("Index", "1"); ("Name", "abc")] [("Index", "1"); ("Name", "abc")]
           (tl (sample_rows 25)) (tl (sample_rows 3)));
    try reflexivity; vm_compute; discriminate.
Defined.


(** The same two runs, evaluated, with what they print: the version with
    the guard prints [rows.length], 0, for the table it left empty. *)
Example clean_run_loses_rows :
  let r := Guarded.processDataDump
             (sample_env (sample_rows 20) (sample_rows 3) never_fails)
             empty_world in
  r.1 = Js.Resolved tt /\
  row_count r.2 "customers" = 0 /\
  row_count r.2 "organizations" = 3 /\
  console r.2
  = ["Ensuring directory exists for SQLite database...";
     "Directory check complete."; "0"; "3"] /\
  let r' := Paused.processDataDump
              (sample_env (sample_rows 180) (sample_rows 3) never_fails)
              empty_world in
  r'.1 = Js.Resolved tt /\
  row_count r'.2 "customers" = 90 /\
  row_count r'.2 "organizations" = 3.
Proof. vm_compute. repeat split. Qed.

(** Two runs in a row over the same files: the second changes no table
    and sends the store nothing. *)
Corollary second_run_after_first env w sc so first_c first_o rest_c rest_o :
  prelude_error env = None ->
  files env !! customers_csv = Some sc ->
  files env !! organizations_csv = Some so ->
  stream_error sc = None ->
  stream_error so = None ->
  stream_rows sc = first_c :: rest_c ->
  stream_rows so = first_o :: rest_o ->
  columns_accepted first_c ->
  columns_accepted first_o ->
  tables w !! "customers" = None ->
  tables w !! "organizations" = None ->
  (forall t, create_error env t = None) ->
  (forall t k, insert_error env t k = None) ->
  length (stream_rows sc) mod Guarded.batchSize <> 0 ->
  length (stream_rows so) mod Guarded.batchSize <> 0 ->
  let w1 := (Guarded.processDataDump env w).2 in
  let w2 := (Guarded.processDataDump env w1).2 in
  row_count w1 "customers" = length (stream_rows sc) /\
  row_count w1 "organizations" = length (stream_rows so) /\
  tables w2 = tables w1 /\
  oplog w2 = oplog w1.
Proof.
  intros Hpre Hfc Hfo Hrc Hro Hnc Hno Hcc Hco Htc Hto Hcr Hok Hmc Hmo. simpl.
  destruct (run_tables GuardedVersion env w sc so first_c first_o rest_c
              rest_o Hpre Hfc Hfo Hrc Hro Hnc Hno Hcc Hco Htc Hto Hcr Hok Hmo
              (stream_rows sc))
    as (_ & (tc & Hc & Hbc) & (to & Ho & Hbo) & _).
  { intros w' tb Hw'.
    destruct (processCSV_success false Guarded.batchSize true env
                customers_csv "customers" sc w' tb ltac:(unfold Guarded.batchSize; lia)
                Hfc Hrc Hmc Hw' (Hok "customers")) as (Ha & Hb & _).
    now split. }
  simpl in Hc, Ho.
  assert (Hloaded : fully_loaded env (Guarded.processDataDump env w).2).
  { exists tc, to, sc, so. rewrite Hbc, Hbo. now repeat split. }
  destruct (guarded_run_on_loaded_store _ _ Hloaded) as [Ht Hl].
  unfold row_count. rewrite Hc, Ho, Hbc, Hbo. now repeat split.
Qed.

(* ===================================================================== *)
(** * Further properties of the store functions                           *)
(* ===================================================================== *)

(** Column names that [CREATE TABLE] accepts differ from each other and
    from the names seen before, whatever the case of their letters. *)
Lemma duplicate_column_fresh seen cols :
  duplicate_column seen cols = None ->
  forall c s, In c cols -> In s seen -> same_name c s = false.
Proof.
  revert seen. induction cols as [|c0 cols IH]; intros seen H c s Hc Hs;
    simpl in *; [contradiction|].
  destruct (existsb (same_name c0) seen) eqn:Hex; [discriminate|].
  destruct Hc as [<-|Hc].
  - destruct (same_name c0 s) eqn:Hsame; [|reflexivity].
    assert (existsb (same_name c0) seen = true) as Htrue; [|congruence].
    apply existsb_exists. now exists s.
  - apply (IH _ H c s Hc). apply in_or_app. now left.
Qed.

Section SetupDatabase.

Variable env : Env.
Variable inferredTypes : InferredSchema.
Variable tableName : string.
Variable w : World.

Let r := setupDatabase env inferredTypes tableName w.

(** X7: [setupDatabase] never replaces or empties a table, and sends the
    store exactly one [CREATE TABLE].  The call is rejected, and every
    table is what it was, when the table exists already, when two
    columns of the statement have the same name (the [id] column the
    code adds counts, and so does the case of the letters), or when the
    store refuses the statement for a reason of its own.  Otherwise the
    call resolves and the new table, which has the columns of the schema
    after [id] and no row, is the only change. *)
Theorem setupDatabase_effect :
  (forall tb, tables w !! tableName = Some tb ->
              r.1 = Js.Rejected (store_error env (TableExists tableName)) /\
              tables r.2 = tables w) /\
  (tables w !! tableName = None ->
   match duplicate_column [] ("id" :: Object_keys inferredTypes),
         create_error env tableName with
   | Some c, _ =>
       r.1 = Js.Rejected (store_error env (DuplicateColumn tableName c)) /\
       tables r.2 = tables w
   | None, Some e => r.1 = Js.Rejected e /\ tables r.2 = tables w
   | None, None =>
       r.1 = Js.Resolved tt /\
       tables r.2 = <[tableName := table_for inferredTypes]> (tables w) /\
       row_count r.2 tableName = 0
   end) /\
  (forall other, other <> tableName ->
                 tables r.2 !! other = tables w !! other) /\
  oplog r.2 = oplog w ++ [OpCreateTable tableName].
Proof.
  unfold r, setupDatabase, issue, set_tables, row_count.
  cbn [tables oplog console].
  destruct (tables w !! tableName) as [tb|] eqn:Ht;
    [|destruct (duplicate_column [] ("id" :: Object_keys inferredTypes))
        as [c|] eqn:Hdup;
      [|destruct (create_error env tableName) as [e|] eqn:Hcreate]];
    cbn [fst snd tables oplog];
    (split; [|split; [|split]]); try reflexivity; try discriminate;
    try (intros; now split).
  - intros _. rewrite lookup_insert_eq. now repeat split.
  - intros other Hne. now rewrite lookup_insert_ne.
Qed.

(** X8: after [setupDatabase] resolves, [checkTableExistence] answers
    [true] for the table and [countRowsInTable] answers 0; after it is
    rejected, both answer what they answered before the call: [true] and
    the number of rows of the table when it was there, [false] and a
    rejection when it was not. *)
Theorem setupDatabase_then_queries :
  (r.1 = Js.Resolved tt ->
   (checkTableExistence tableName r.2).1 = Js.Resolved true /\
   (countRowsInTable env tableName r.2).1 = Js.Resolved 0) /\
  (forall e,
      r.1 = Js.Rejected e ->
      (checkTableExistence tableName r.2).1
      = (checkTableExistence tableName w).1 /\
      (countRowsInTable env tableName r.2).1
      = (countRowsInTable env tableName w).1) /\
  (forall tb,
      tables w !! tableName = Some tb ->
      (checkTableExistence tableName r.2).1 = Js.Resolved true /\
      (countRowsInTable env tableName r.2).1
      = Js.Resolved (length (body tb))).
Proof.
  unfold r, setupDatabase, checkTableExistence, countRowsInTable, issue,
    set_tables.
  cbn [tables oplog console].
  destruct (tables w !! tableName) as [tb|] eqn:Ht;
    [|destruct (duplicate_column [] ("id" :: Object_keys inferredTypes))
        as [c|] eqn:Hdup;
      [|destruct (create_error env tableName) as [e|] eqn:Hcreate]];
    cbn [fst snd tables oplog]; rewrite ?Ht, ?lookup_insert_eq;
    (split; [|split]); try discriminate; try (intros; now split).
  intros tb' [= <-]. now split.
Qed.

End SetupDatabase.

(** A file with a column named [id], in whatever case, cannot be given
    its table: the statement has that name twice. *)
Lemma duplicate_column_id (keys : list string) (k : string) :
  In k keys -> same_name k "id" = true ->
  exists c, duplicate_column [] ("id" :: keys) = Some c.
Proof.
  intros Hk Hsame.
  destruct (duplicate_column [] ("id" :: keys)) as [c|] eqn:Hdup; [eauto|].
  simpl in Hdup.
  pose proof (duplicate_column_fresh _ _ Hdup k "id" Hk ltac:(now left)).
  congruence.
Qed.

(** X26: [setupDatabase] cannot create the table of a schema that has a
    column named [id] (or [ID], [Id], [iD]).  It adds its own [id]
    column before the columns of the schema, the store refuses the
    [CREATE TABLE] for its duplicate column, the call is rejected and no
    table is created. *)
Theorem setupDatabase_id_column (env : Env) (inferredTypes : InferredSchema)
  (tableName : string) (w : World) (k : string) :
  In k (Object_keys inferredTypes) ->
  same_name k "id" = true ->
  tables w !! tableName = None ->
  let r := setupDatabase env inferredTypes tableName w in
  (exists c,
      r.1 = Js.Rejected (store_error env (DuplicateColumn tableName c))) /\
  tables r.2 = tables w.
Proof.
  intros Hk Hsame Hno r.
  destruct (duplicate_column_id _ _ Hk Hsame) as [c Hc].
  unfold r, setupDatabase, issue. cbn [tables]. rewrite Hno, Hc.
  split; [now exists c|reflexivity].
Qed.

(** The customers file of the sample dump has a column [Index]; one with
    a column [Id] is refused. *)
Lemma setupDatabase_id_column_witness :
  (exists c,
      (setupDatabase first_run_env [("Id", Some T_int); ("Name", Some T_string)]
                     "customers" empty_world).1
      = Js.Rejected
          (store_error first_run_env (DuplicateColumn "customers" c))) /\
  tables (setupDatabase first_run_env
            [("Id", Some T_int); ("Name", Some T_string)]
            "customers" empty_world).2
  = tables empty_world.
Proof.
  apply (setupDatabase_id_column first_run_env
           [("Id", Some T_int); ("Name", Some T_string)]
           "customers" empty_world "Id").
  - vm_compute. now left.
  - reflexivity.
  - reflexivity.
Defined.

(** X9: [checkAndVerifyTables] only reads.  Whatever the store and the
    files, it leaves every table as it is and sends the store no
    statement; it prints its one line only when it answers [true]. *)
Theorem checkAndVerifyTables_reads_only (env : Env) (w : World) :
  tables (Guarded.checkAndVerifyTables env w).2 = tables w /\
  oplog (Guarded.checkAndVerifyTables env w).2 = oplog w /\
  ((Guarded.checkAndVerifyTables env w).1 <> Js.Resolved true ->
   (Guarded.checkAndVerifyTables env w).2 = w).
Proof.
  unfold Guarded.checkAndVerifyTables, await, Promise_all, checkTableExistence,
    countRowsInTable, lift, assert, say, ret, throw.
  simpl.
  repeat (innermost_case; simpl in *; try (repeat split; (reflexivity || congruence))).
Qed.

(* ===================================================================== *)
(** * Further properties of [processDataDump]                             *)
(* ===================================================================== *)

Section Prelude.

Variable v : Version.
Variable env : Env.
Variable w : World.

Let r := processDataDump_of v env w.

(** X16: when the directory cannot be made, the download fails or the
    archive cannot be extracted, the run stops before any file is read:
    no table is created or changed and no statement reaches the store.
    If the stage rejected its promise, the run is rejected with that
    error wrapped; if the failure is an error raised on a stream that
    has no listener for it (a corrupt archive in the gunzip stream), the
    exception is uncaught and the promise of the run never settles. *)
Theorem processDataDump_prelude_failure (f : Failure) :
  prelude_error env = Some f ->
  r.1 = match f with
        | Rejects e => Js.Rejected (wrapped e)
        | Throws e => Js.Uncaught e
        end /\
  tables r.2 = tables w /\
  oplog r.2 = oplog w.
Proof.
  unfold prelude_error, r. intros He.
  destruct v; simpl;
    unfold Paused.processDataDump, Guarded.processDataDump;
    rewrite catch_rethrow; unfold await, say, may_fail, stage, ret, throw;
    simpl;
    destruct (mkdir_error env); simpl;
    try (injection He as <-; now repeat split);
    destruct (download_error env) as [[e|e]|]; simpl;
    try (injection He as <-; now repeat split);
    destruct (extract_error env) as [[e|e]|]; simpl;
    try (injection He as <-; now repeat split); discriminate.
Qed.


End Prelude.

(** A run on an archive that is not a gzip file. *)
Lemma processDataDump_prelude_failure_witness :
  (processDataDump_of GuardedVersion corrupt_archive_env empty_world).1
  = Js.Uncaught (Js.LibError "zlib" "incorrect header check") /\
  tables (processDataDump_of GuardedVersion corrupt_archive_env empty_world).2
  = tables empty_world /\
  oplog (processDataDump_of GuardedVersion corrupt_archive_env empty_world).2
  = oplog empty_world.
Proof.
  exact (processDataDump_prelude_failure GuardedVersion corrupt_archive_env
           empty_world
           (Throws (Js.LibError "zlib" "incorrect header check")) eq_refl).
Defined.

(** The same run and a run without network, evaluated. *)
Example corrupt_archive_is_uncaught :
  (Paused.processDataDump corrupt_archive_env empty_world).1
  = Js.Uncaught (Js.LibError "zlib" "incorrect header check") /\
  (Paused.processDataDump offline_env empty_world).1
  = Js.Rejected
      (wrapped (Js.LibError "axios" "connect ECONNREFUSED 127.0.0.1:443")).
Proof. split; reflexivity. Qed.


Section Reruns.

Variable env : Env.
Variable w : World.
Variables sc so : CsvStream.

Hypothesis Hprelude : prelude_error env = None.
Hypothesis Hcustomers_csv : files env !! customers_csv = Some sc.
Hypothesis Horganizations_csv : files env !! organizations_csv = Some so.
Hypothesis Hcustomers_read : stream_error sc = None.
Hypothesis Horganizations_read : stream_error so = None.
Hypothesis Hcustomers_rows : stream_rows sc <> [].
Hypothesis Horganizations_rows : stream_rows so <> [].

(** X19: the pipeline of challenge-1/challenge.ts has no guard: run on a
    store that already has the table [customers], it rejects with the
    error knex reports for the refused [CREATE TABLE], wrapped; the
    refused statement is the only one sent, and no table changes. *)
Theorem processDataDump_unguarded_rerun (tc : Table) :
  tables w !! "customers" = Some tc ->
  let r := Paused.processDataDump env w in
  r.1 = Js.Rejected (wrapped (store_error env (TableExists "customers"))) /\
  tables r.2 = tables w /\
  oplog r.2 = oplog w ++ [OpCreateTable "customers"].
Proof.
  intros Hc.
  destruct (inferColumnTypes_resolves (host_date_parse env) _ _ _
              Hcustomers_csv Hcustomers_read Hcustomers_rows) as [tyc Hic].
  destruct (inferColumnTypes_resolves (host_date_parse env) _ _ _
              Horganizations_csv Horganizations_read Horganizations_rows)
    as [tyo Hio].
  destruct (prelude_ok env Hprelude) as (Hm & Hd & Hx).
  simpl. unfold Paused.processDataDump.
  rewrite catch_rethrow.
  unfold await, say, may_fail, stage, ret, throw, lift.
  rewrite Hm, Hd, Hx, Hic, Hio. cbn [print tables oplog console fst snd].
  rewrite setupDatabase_refused by (cbn [tables]; eauto).
  now repeat split.
Qed.

(** X20: when exactly one of the two tables exists, the guard of
    src/unnamed/part_000 lets the run go on; [Promise.all] starts both
    [CREATE TABLE] statements, so the missing table is created, empty,
    provided the store accepts the statement for it, although the run
    rejects with the refusal for the table that was there; nothing is
    inserted. *)
Theorem processDataDump_half_provisioned (present missing : string)
  (first : Row) (rest : list Row) :
  (present = "customers" /\ missing = "organizations" /\
   stream_rows so = first :: rest) \/
  (present = "organizations" /\ missing = "customers" /\
   stream_rows sc = first :: rest) ->
  columns_accepted first ->
  create_error env missing = None ->
  is_Some (tables w !! present) ->
  tables w !! missing = None ->
  let r := Guarded.processDataDump env w in
  r.1 = Js.Rejected (wrapped (store_error env (TableExists present))) /\
  tables r.2 !! present = tables w !! present /\
  (exists t, tables r.2 !! missing = Some t /\ body t = []) /\
  oplog r.2
  = oplog w ++ [OpCreateTable "customers"; OpCreateTable "organizations"].
Proof.
  intros Hwhich Hcols Hcreate Hp Hmiss.
  assert (Hnd : List.NoDup (Object_keys first)).
  { apply duplicate_column_distinct in Hcols as [Hnd _].
    now apply List.NoDup_cons_iff in Hnd as [_ Hnd]. }
  unfold columns_accepted in Hcols.
  destruct (prelude_ok env Hprelude) as (Hm & Hd & Hx).
  simpl. unfold Guarded.processDataDump.
  rewrite catch_rethrow.
  unfold await, say, may_fail, stage, ret, throw, lift, Promise_all.
  rewrite Hm, Hd, Hx.
  destruct Hwhich as [(-> & -> & Hrows)|(-> & -> & Hrows)].
  - destruct (inferColumnTypes_resolves (host_date_parse env) _ _ _
                Hcustomers_csv Hcustomers_read Hcustomers_rows) as [tyc Hic].
    destruct (inferColumnTypes_keys (host_date_parse env) _ _ _ _ _
                Horganizations_csv Horganizations_read Hrows Hnd)
      as (tyo & Hio & Hko).
    rewrite <- Hko in Hcols.
    rewrite Hic, Hio. cbn [print tables oplog console fst snd].
    rewrite checkAndVerifyTables_missing by (now right).
    rewrite setupDatabase_refused by (cbn [tables]; exact Hp).
    rewrite setupDatabase_creates;
      [|exact Hmiss|exact Hcols|exact Hcreate].
    cbn [fst snd tables oplog issue].
    rewrite lookup_insert_ne, lookup_insert_eq, <- app_assoc by done.
    split; [reflexivity|]. split; [reflexivity|].
    split; [|reflexivity]. now eexists.
  - destruct (inferColumnTypes_keys (host_date_parse env) _ _ _ _ _
                Hcustomers_csv Hcustomers_read Hrows Hnd)
      as (tyc & Hic & Hkc).
    destruct (inferColumnTypes_resolves (host_date_parse env) _ _ _
                Horganizations_csv Horganizations_read Horganizations_rows)
      as [tyo Hio].
    rewrite <- Hkc in Hcols.
    rewrite Hic, Hio. cbn [print tables oplog console fst snd].
    rewrite checkAndVerifyTables_missing by (now left).
    rewrite setupDatabase_creates;
      [|exact Hmiss|exact Hcols|exact Hcreate].
    rewrite setupDatabase_refused
      by (cbn [tables]; now rewrite lookup_insert_ne).
    cbn [fst snd tables oplog issue].
    rewrite lookup_insert_ne, lookup_insert_eq, <- app_assoc by done.
    split; [reflexivity|]. split; [reflexivity|].
    split; [|reflexivity]. now eexists.
Qed.

(** X21: on a store where both tables exist and each holds a number of
    rows other than that of its file (for instance two tables left empty
    by a failed run), the guard of src/unnamed/part_000 answers that the
    load can be skipped: the run resolves, and no table is touched. *)
Theorem processDataDump_skips_incomplete_store (tc to : Table) :
  tables w !! "customers" = Some tc ->
  tables w !! "organizations" = Some to ->
  length (body tc) <> length (stream_rows sc) ->
  length (body to) <> length (stream_rows so) ->
  let r := Guarded.processDataDump env w in
  r.1 = Js.Resolved tt /\
  tables r.2 = tables w /\
  oplog r.2 = oplog w.
Proof.
  intros Hc Ho Hnc Hno.
  destruct (inferColumnTypes_resolves (host_date_parse env) _ _ _
              Hcustomers_csv Hcustomers_read Hcustomers_rows) as [tyc Hic].
  destruct (inferColumnTypes_resolves (host_date_parse env) _ _ _
              Horganizations_csv Horganizations_read Horganizations_rows)
    as [tyo Hio].
  destruct (prelude_ok env Hprelude) as (Hm & Hd & Hx).
  simpl. unfold Guarded.processDataDump.
  rewrite catch_rethrow.
  unfold await, say, may_fail, stage, ret, throw, lift, Promise_all.
  rewrite Hm, Hd, Hx, Hic, Hio. simpl.
  match goal with
  | |- context [Guarded.checkAndVerifyTables env ?w1] =>
      rewrite (checkAndVerifyTables_both_exist env w1 tc to sc so)
        by assumption
  end.
  apply Nat.eqb_neq in Hnc, Hno. rewrite Hnc, Hno. simpl.
  now repeat split.
Qed.

End Reruns.

(** A second run of [challenge.ts] on the store a first run left. *)
Lemma processDataDump_unguarded_rerun_witness :
  (Paused.processDataDump first_run_env loaded_world).1
  = Js.Rejected
      (wrapped (store_error first_run_env (TableExists "customers"))) /\
  tables (Paused.processDataDump first_run_env loaded_world).2
  = tables loaded_world /\
  oplog (Paused.processDataDump first_run_env loaded_world).2
  = oplog loaded_world ++ [OpCreateTable "customers"].
Proof.
  apply (processDataDump_unguarded_rerun first_run_env loaded_world
           (csv_of (sample_rows 25)) (csv_of (sample_rows 3))
           eq_refl eq_refl eq_refl eq_refl eq_refl
           ltac:(discriminate) ltac:(discriminate) (loaded_table 25)).
  reflexivity.
Defined.

(** A run on a store that has [customers] only. *)
Lemma processDataDump_half_provisioned_witness :
  (Guarded.processDataDump first_run_env customers_only_world).1
  = Js.Rejected
      (wrapped (store_error first_run_env (TableExists "customers"))) /\
  tables (Guarded.processDataDump first_run_env customers_only_world).2
    !! "customers" = tables customers_only_world !! "customers" /\
  (exists t,
      tables (Guarded.processDataDump first_run_env customers_only_world).2
        !! "organizations" = Some t /\ body t = []) /\
  oplog (Guarded.processDataDump first_run_env customers_only_world).2
  = oplog customers_only_world
    ++ [OpCreateTable "customers"; OpCreateTable "organizations"].
Proof.
  apply (processDataDump_half_provisioned first_run_env customers_only_world
           (csv_of (sample_rows 25)) (csv_of (sample_rows 3))
           eq_refl eq_refl eq_refl eq_refl eq_refl
           ltac:(discriminate) ltac:(discriminate)
           "customers" "organizations"
           [("Index", "1"); ("Name", "abc")] (tl (sample_rows 3))).
  - left. repeat split; reflexivity.
  - reflexivity.
  - reflexivity.
  - exists (loaded_table 25). reflexivity.
  - reflexivity.
Defined.

(** A run on a store whose tables hold one row each, against files of 25
    and 3 rows. *)
Lemma processDataDump_skips_incomplete_store_witness :
  (Guarded.processDataDump first_run_env partial_world).1 = Js.Resolved tt /\
  tables (Guarded.processDataDump first_run_env partial_world).2
  = tables partial_world /\
  oplog (Guarded.processDataDump first_run_env partial_world).2
  = oplog partial_world.
Proof.
  apply (processDataDump_skips_incomplete_store first_run_env partial_world
           (csv_of (sample_rows 25)) (csv_of (sample_rows 3))
           eq_refl eq_refl eq_refl eq_refl eq_refl
           ltac:(discriminate) ltac:(discriminate)
           (loaded_table 1) (loaded_table 1)).
  - reflexivity.
  - reflexivity.
  - vm_compute. lia.
  - vm_compute. lia.
Defined.

(** X22: the two counts the guard compares agree with what the loader
    does when the batch size does not divide the number of rows of the
    file.  After such a load, with every insert accepted,
    [countRowsInTable] on the destination answers the number of rows the
    table held before plus the number [countRowsInCSV] answers for the
    file. *)
Theorem counts_after_load (pauses : bool) (B : nat) (log_count : bool)
  (env : Env) (filePath tableName : string) (stream : CsvStream) (w : World)
  (tb : Table) :
  0 < B ->
  files env !! filePath = Some stream ->
  stream_error stream = None ->
  length (stream_rows stream) mod B <> 0 ->
  tables w !! tableName = Some tb ->
  (forall k, insert_error env tableName k = None) ->
  let w' := (processCSV_with pauses B log_count env filePath tableName w).2 in
  exists n,
    countRowsInCSV (files env) filePath = Js.Resolved n /\
    (countRowsInTable env tableName w').1
    = Js.Resolved (length (body tb) + n).
Proof.
  intros HB Hfile Hend Hmod Htb Hok w'.
  exists (length (stream_rows stream)).
  split; [now apply countRowsInCSV_length|].
  destruct (processCSV_success pauses B log_count env filePath tableName
              stream w tb HB Hfile Hend Hmod Htb Hok) as (_ & Htab & _).
  unfold countRowsInTable, w'. rewrite Htab, lookup_insert_eq. simpl.
  now rewrite length_app.
Qed.

(** One row in the table, 25 in the file. *)
Lemma counts_after_load_witness :
  exists n,
    countRowsInCSV (files first_run_env) customers_csv = Js.Resolved n /\
    (countRowsInTable first_run_env "customers"
       (processCSV_with true Paused.batchSize false first_run_env
                        customers_csv "customers" partial_world).2).1
    = Js.Resolved (length (body (loaded_table 1)) + n).
Proof.
  apply (counts_after_load true Paused.batchSize false first_run_env
           customers_csv "customers" (csv_of (sample_rows 25)) partial_world
           (loaded_table 1)).
  - unfold Paused.batchSize. lia.
  - reflexivity.
  - reflexivity.
  - vm_compute. discriminate.
  - reflexivity.
  - intros k. reflexivity.
Defined.

(* ===================================================================== *)
(** * Liveness and memory of the loader under the event loop               *)
(* ===================================================================== *)

Module EventLoopProgress.
Import EventLoop EventLoopSpec EventLoopFacts.

(** X23: the loader always finishes, in both versions, for every file
    and whatever the order in which the runtime delivers rows and
    settles inserts.  A run from the start of a file of [n] rows has at
    most [2 n + 2] events; as long as the promise is neither resolved
    nor rejected the runtime has an event to deliver (in particular the
    pause never leaves the stream stopped with nothing in flight to
    resume it); once [resolve()] has been called the parser has
    reported no error and the batches started are those of the file;
    and when the runtime has nothing left to deliver the stream is
    over, no insert is in flight, and the promise was resolved if the
    parser reported no error and rejected with its error if it did. *)
Theorem loader_always_finishes pauses B stream evs s :
  run pauses B evs (open stream) = Some s ->
  length evs <= 2 * length (stream_rows stream) + 2 /\
  (closing s = None -> exists ev s', step pauses B ev s = Some s') /\
  (resolved s = true ->
   stream_error stream = None /\
   issued s = batches B (stream_rows stream)) /\
  (at_rest pauses B s ->
   ended s = true /\ in_flight s = [] /\
   closing s = Some (closing_of stream)).
Proof.
  intros Hrun.
  pose proof (run_loader_inv _ _ _ _ _ _ Hrun (open_loader_inv pauses B stream))
    as Hinv.
  pose proof (run_broken _ _ _ _ _ Hrun) as Hbroken. simpl in Hbroken.
  destruct Hinv as [Hcut Hlog Hlive].
  split; [|split; [|split]].
  - pose proof (run_work_left _ _ _ _ _ Hrun) as H.
    unfold work_left in H at 2. simpl in H. lia.
  - intros Hc. destruct (ended s) eqn:He.
    + destruct (end_pending s Hlog He Hc) as (_ & _ & q & Hq & _).
      exists EvSettle. simpl. rewrite Hq.
      destruct q as [|[b who] q]; simpl; eauto.
    + destruct (flowing_or_busy pauses s Hlive He) as [Hf|Hne].
      * destruct (source s) as [|row rest] eqn:Hs.
        -- destruct (broken s) as [e|] eqn:Hb.
           ++ exists EvError. simpl. rewrite Hs, Hb, He. eauto.
           ++ exists EvEnd. simpl. rewrite Hs, Hb, He. eauto.
        -- exists EvData. simpl. rewrite Hs, Hf, He. eauto.
      * destruct (in_flight s) as [|[b who] l] eqn:Hl; [easy|].
        exists EvSettle. simpl. rewrite Hl. eauto.
  - intros Hr. unfold resolved in Hr.
    destruct (closing s) as [[|e]|] eqn:Hc; try discriminate.
    destruct (closed_once s Hlog _ Hc) as (He & _ & Hwhy).
    rewrite Hbroken in Hwhy.
    destruct (stream_error stream) eqn:Herr; [discriminate|].
    split; [reflexivity|].
    destruct Hcut as (d & _ & _ & H). rewrite He, Hbroken in H.
    now destruct H.
  - intros Hrest.
    destruct (at_rest_over pauses B (stream_rows stream) s)
      as (_ & He & Hfl); [now split|exact Hrest|].
    split; [exact He|]. split; [exact Hfl|].
    destruct (closing s) as [c|] eqn:Hc.
    + destruct (closed_once s Hlog _ Hc) as (_ & _ & ->).
      rewrite Hbroken. reflexivity.
    + destruct (end_pending s Hlog He Hc) as (_ & _ & q & Hq & _).
      rewrite Hfl in Hq. now destruct q.
Qed.

(** A run of the version that does not pause, on 25 rows. *)
Lemma loader_always_finishes_witness :
  exists s,
    run false Guarded.batchSize (repeat EvData 25 ++ [EvEnd; EvSettle])
        (open (csv_of (sample_rows 25))) = Some s /\
    length (repeat EvData 25 ++ [EvEnd; EvSettle])
    <= 2 * length (stream_rows (csv_of (sample_rows 25))) + 2 /\
    (closing s = None ->
     exists ev s', step false Guarded.batchSize ev s = Some s') /\
    (resolved s = true ->
     stream_error (csv_of (sample_rows 25)) = None /\
     issued s
     = batches Guarded.batchSize (stream_rows (csv_of (sample_rows 25)))) /\
    (at_rest false Guarded.batchSize s ->
     ended s = true /\ in_flight s = [] /\
     closing s = Some (closing_of (csv_of (sample_rows 25)))).
Proof.
  eexists. split; [vm_compute; reflexivity|].
  match goal with
  | |- _ <= _ /\ (closing ?s = _ -> _) /\ _ =>
      apply (loader_always_finishes false Guarded.batchSize
               (csv_of (sample_rows 25))
               (repeat EvData 25 ++ [EvEnd; EvSettle]) s)
  end.
  vm_compute. reflexivity.
Defined.

Lemma step_batches_bounded pauses B ev s s' :
  0 < B ->
  step pauses B ev s = Some s' ->
  buffer_inv B s -> batches_bounded B s -> batches_bounded B s'.
Proof.
  intros HB Hstep [_ Hrows] Hbd. unfold batches_bounded in *.
  step_cases Hstep.
  - unfold data_listener.
    destruct (B <=? length (rows s ++ [row]))%nat; simpl; [|exact Hbd].
    apply Forall_app. split; [exact Hbd|].
    constructor; [|constructor]. simpl. rewrite length_take. lia.
  - unfold end_listener.
    destruct (rows s) eqn:Hr; simpl; [exact Hbd|].
    apply Forall_app. split; [exact Hbd|].
    constructor; [|constructor]. simpl in *. lia.
  - simpl. exact Hbd.
  - simpl. rewrite Hfl in Hbd. now apply Forall_inv_tail in Hbd.
Qed.

Lemma run_batches_bounded pauses B evs s s' :
  0 < B ->
  run pauses B evs s = Some s' ->
  buffer_inv B s -> batches_bounded B s -> batches_bounded B s'.
Proof.
  intros HB. revert s. induction evs as [|ev evs IH]; intros s Hrun Hbuf Hbd.
  - simpl in Hrun. now injection Hrun as <-.
  - simpl in Hrun. destruct (step pauses B ev s) as [s1|] eqn:Hstep;
      [|discriminate].
    eapply IH; [exact Hrun| |].
    + eapply step_buffer_inv; eauto.
    + eapply step_batches_bounded; eauto.
Qed.

(** X24: the loader of [challenge.ts], which pauses the stream, holds at
    most one batch in memory besides its buffer: in every state the
    runtime can reach, the ['end'] delivered to a paused stream
    included, the buffer has fewer than [batchSize] rows and the inserts
    in flight hold at most [batchSize] rows together, whatever the size
    of the file. *)
Theorem paused_loader_memory_bound B src evs s :
  0 < B ->
  run true B evs (init src) = Some s ->
  length (rows s) < B /\ rows_in_flight s <= B.
Proof.
  intros HB Hrun. rewrite init_open in Hrun.
  destruct (run_buffer_inv _ _ _ _ _ HB Hrun
              (open_buffer_inv B (csv_of src) HB)) as [_ Hrows].
  split; [exact Hrows|].
  pose proof (run_batches_bounded true B evs _ _ HB Hrun
                (open_buffer_inv B (csv_of src) HB) (List.Forall_nil _))
    as Hbd.
  assert (Hone : length (in_flight s) <= 1).
  { apply (at_most_one s).
    eapply run_paused_inv; [exact HB|exact Hrun| | |].
    - now apply open_buffer_inv.
    - apply (inv_log true B (stream_rows (csv_of src))), open_loader_inv.
    - apply open_paused_inv. }
  unfold rows_in_flight, batches_bounded in *.
  destruct (in_flight s) as [|[b who] [|q l]]; simpl in *.
  - lia.
  - apply Forall_inv in Hbd. simpl in Hbd. lia.
  - lia.
Qed.

(** A file of 180 rows, up to the ['end'] that finds the stream
    paused. *)
Lemma paused_loader_memory_bound_witness :
  exists s,
    run true Paused.batchSize
        (repeat EvData 90 ++ [EvSettle] ++ repeat EvData 90 ++ [EvEnd])
        (init (sample_rows 180))
    = Some s /\
    length (rows s) < Paused.batchSize /\
    rows_in_flight s <= Paused.batchSize.
Proof.
  eexists. split; [vm_compute; reflexivity|].
  match goal with
  | |- length (rows ?s) < _ /\ _ =>
      apply (paused_loader_memory_bound Paused.batchSize (sample_rows 180)
               (repeat EvData 90 ++ [EvSettle] ++ repeat EvData 90 ++ [EvEnd])
               s)
  end.
  - unfold Paused.batchSize. lia.
  - vm_compute. reflexivity.
Defined.

(** Delivering all the rows left, one after the other, to the loader
    that does not pause. *)
Lemma unpaused_deliver_all B :
  0 < B ->
  forall src s,
    source s = src -> flowing s = true -> ended s = false ->
    length (rows s) < B ->
    exists s',
      run false B (repeat EvData (length src)) s = Some s' /\
      source s' = [] /\ flowing s' = true /\ ended s' = false /\
      resolved s' = resolved s /\
      length (in_flight s')
      = length (in_flight s) + (length (rows s) + length src) / B /\
      rows_in_flight s'
      = rows_in_flight s + B * ((length (rows s) + length src) / B) /\
      length (rows s') = (length (rows s) + length src) mod B.
Proof.
  intros HB. induction src as [|row rest IH]; intros s Hs Hf He Hr.
  - exists s. simpl. rewrite Nat.add_0_r, Nat.div_small, Nat.mod_small by lia.
    repeat split; try assumption; lia.
  - simpl. rewrite Hs, Hf, He. simpl.
    set (s1 := data_listener false B row rest s).
    assert (Hlen : length (rows s ++ [row]) = S (length (rows s)))
      by (rewrite length_app; simpl; lia).
    destruct (B <=? length (rows s ++ [row]))%nat eqn:Hcmp.
    + apply Nat.leb_le in Hcmp.
      assert (HeqB : S (length (rows s)) = B) by lia.
      destruct (IH s1) as (s' & Hrun & H1 & H2 & H3 & H4 & H5 & H6 & H7).
      * unfold s1, data_listener. now rewrite (proj2 (Nat.leb_le _ _) Hcmp).
      * unfold s1, data_listener. rewrite (proj2 (Nat.leb_le _ _) Hcmp).
        exact Hf.
      * unfold s1, data_listener. rewrite (proj2 (Nat.leb_le _ _) Hcmp).
        exact He.
      * unfold s1, data_listener. rewrite (proj2 (Nat.leb_le _ _) Hcmp).
        simpl. rewrite length_drop. lia.
      * exists s'. split; [exact Hrun|].
        assert (Hrows1 : length (rows s1) = 0).
        { unfold s1, data_listener. rewrite (proj2 (Nat.leb_le _ _) Hcmp).
          simpl. rewrite length_drop. lia. }
        assert (Hfl1 : length (in_flight s1) = S (length (in_flight s))).
        { unfold s1, data_listener. rewrite (proj2 (Nat.leb_le _ _) Hcmp).
          simpl. rewrite length_app. simpl. lia. }
        assert (Hrf1 : rows_in_flight s1 = rows_in_flight s + B).
        { unfold rows_in_flight, s1, data_listener.
          rewrite (proj2 (Nat.leb_le _ _) Hcmp). simpl.
          rewrite map_app, list_sum_app. simpl.
          rewrite length_take. lia. }
        assert (Hres1 : resolved s1 = resolved s).
        { unfold s1, data_listener. now rewrite (proj2 (Nat.leb_le _ _) Hcmp). }
        rewrite Hrows1 in H5, H6, H7. simpl in H5, H6, H7.
        assert (Hsum : length (rows s) + S (length rest)
                       = length rest + 1 * B) by lia.
        rewrite Hsum, Nat.div_add, Nat.Div0.mod_add by lia.
        repeat split; try assumption; try congruence; lia.
    + apply Nat.leb_gt in Hcmp.
      destruct (IH s1) as (s' & Hrun & H1 & H2 & H3 & H4 & H5 & H6 & H7).
      * unfold s1, data_listener. now rewrite (proj2 (Nat.leb_gt _ _) Hcmp).
      * unfold s1, data_listener. rewrite (proj2 (Nat.leb_gt _ _) Hcmp).
        exact Hf.
      * unfold s1, data_listener. rewrite (proj2 (Nat.leb_gt _ _) Hcmp).
        exact He.
      * unfold s1, data_listener. rewrite (proj2 (Nat.leb_gt _ _) Hcmp).
        simpl. lia.
      * exists s'. split; [exact Hrun|].
        assert (Hrows1 : length (rows s1) = S (length (rows s))).
        { unfold s1, data_listener. rewrite (proj2 (Nat.leb_gt _ _) Hcmp).
          simpl. lia. }
        assert (Hfl1 : in_flight s1 = in_flight s).
        { unfold s1, data_listener.
          now rewrite (proj2 (Nat.leb_gt _ _) Hcmp). }
        assert (Hres1 : resolved s1 = resolved s).
        { unfold s1, data_listener. now rewrite (proj2 (Nat.leb_gt _ _) Hcmp). }
        unfold rows_in_flight in *. rewrite Hfl1 in *. rewrite Hrows1 in *.
        replace (length (rows s) + S (length rest))
          with (S (length (rows s)) + length rest) by lia.
        repeat split; try assumption; congruence.
Qed.

(** X25: the loader of src/unnamed/part_000, which does not pause, has
    no such bound.  When the parser delivers the [n] rows of a file
    without an insert settling in between, [n / batchSize] inserts are
    in flight and they hold [batchSize * (n / batchSize)] rows; and when
    [batchSize] divides [n], ['end'] then finds the buffer empty and
    resolves the promise of the transaction while all those inserts are
    still in flight. *)
Theorem unpaused_loader_unbounded B src :
  0 < B ->
  exists s,
    run false B (repeat EvData (length src)) (init src) = Some s /\
    length (in_flight s) = length src / B /\
    rows_in_flight s = B * (length src / B) /\
    (length src mod B = 0 ->
     exists s', step false B EvEnd s = Some s' /\
                resolved s' = true /\ in_flight s' = in_flight s).
Proof.
  intros HB.
  destruct (unpaused_deliver_all B HB src (init src))
    as (s & Hrun & Hs & Hf & He & _ & Hfl & Hrf & Hrows);
    try reflexivity; [simpl; lia|].
  simpl in Hfl, Hrf, Hrows.
  exists s. split; [exact Hrun|]. split; [exact Hfl|]. split; [exact Hrf|].
  intros Hmod. rewrite Hmod in Hrows.
  pose proof (run_broken _ _ _ _ _ Hrun) as Hb. simpl in Hb.
  exists (end_listener s). simpl. rewrite Hs, Hb, He.
  split; [reflexivity|]. unfold end_listener, resolved.
  destruct (rows s); [|discriminate]. now split.
Qed.

(** Thirty rows, batches of ten. *)
Lemma unpaused_loader_unbounded_witness :
  exists s,
    run false Guarded.batchSize (repeat EvData (length (sample_rows 30)))
        (init (sample_rows 30)) = Some s /\
    length (in_flight s) = length (sample_rows 30) / Guarded.batchSize /\
    rows_in_flight s
    = Guarded.batchSize * (length (sample_rows 30) / Guarded.batchSize) /\
    (length (sample_rows 30) mod Guarded.batchSize = 0 ->
     exists s', step false Guarded.batchSize EvEnd s = Some s' /\
                resolved s' = true /\ in_flight s' = in_flight s).
Proof.
  apply (unpaused_loader_unbounded Guarded.batchSize (sample_rows 30)).
  unfold Guarded.batchSize. lia.
Defined.

End EventLoopProgress.
